(** * Claude Code Bridge: the protocol server, embedded and verified

    A shallow embedding of the WebSocket/MCP server of the Obsidian
    plugin: from [WebSocketServer] (src/websocket.ts) the frame codec
    ([createWebSocketFrame], [parseWebSocketFrames]), the upgrade gate
    ([handleWebSocketUpgrade]), the per-connection read handler
    ([handleConnection]), [sendMessage], [broadcast] and the health
    check; from [MCPHandler] (src/mcp-handler.ts) the JSON-RPC
    dispatcher ([handleMessage]); from [LockFileManager]
    (src/lock-file.ts) the credential [createLockFile] generates; from
    the plugin class (main.ts) the file tracking ([handleFileChange],
    [sendSelectionChanged]) and the wiring of dispatcher and server.

    Conventions.
    - A [Buffer] is a list of bytes; a byte read from it is a [Z] in
      [0, 255], a number stored into it is reduced modulo 256.
    - A JavaScript string is the list of its UTF-16 code units, each a
      [Z] in [0, 65535].
    - Offsets and lengths are [Z], as the source computes with numbers. *)

From Stdlib Require Import ZArith Lia Bool Strings.Byte.
From stdpp Require Import base list strings gmap.

Local Open Scope Z_scope.

(** ** Buffers and strings of the runtime *)

Definition Buffer := list byte.
Definition JSString := list Z.

(** The number read from an element of a Uint8Array. *)
Definition b2z (b : byte) : Z := Z.of_N (Byte.to_N b).

(** The element stored by [buf[i] = z]: [z] modulo 256. *)
Definition z2b (z : Z) : byte :=
  match Byte.of_N (Z.to_N (z mod 256)) with
  | Some b => b
  | None => x00
  end.

(** A buffer literal. *)
Definition bytes (l : list Z) : Buffer := map z2b l.

(** A string literal of the source, as UTF-16 code units (ASCII only). *)
Definition js (s : string) : JSString :=
  map (fun a => Z.of_nat (Ascii.nat_of_ascii a)) (String.list_ascii_of_string s).

(** [buffer.length] *)
Definition blen (b : Buffer) : Z := Z.of_nat (length b).

(** [buf[i]] on a Uint8Array; the parser only reads below [buf.length]. *)
Definition byte_at (buf : Buffer) (i : Z) : Z := b2z (nth (Z.to_nat i) buf x00).

(** [buf.subarray(a, b)] and [buf.subarray(a)] for [0 <= a]; both clamp
    to the length of the buffer. *)
Definition subarray (buf : Buffer) (a b : Z) : Buffer :=
  take (Z.to_nat (b - a)) (drop (Z.to_nat a) buf).

Definition subarray_from (buf : Buffer) (a : Z) : Buffer :=
  drop (Z.to_nat a) buf.

(** Big-endian integers: [readUInt16BE], [readBigUInt64BE],
    [writeUInt16BE], [writeBigUInt64BE]. *)
Definition be_value (buf : Buffer) : Z :=
  fold_left (fun acc b => acc * 256 + b2z b) buf 0.

Fixpoint be_bytes (n : nat) (v : Z) : Buffer :=
  match n with
  | O => []
  | S k => z2b (v / 256 ^ Z.of_nat k) :: be_bytes k v
  end.

Definition readUInt16BE (buf : Buffer) (off : Z) : Z :=
  be_value (subarray buf off (off + 2)).

Definition readBigUInt64BE (buf : Buffer) (off : Z) : Z :=
  be_value (subarray buf off (off + 8)).

(** [Number(big)] for a BigInt [0 <= big < 2^64]: exact below [2^53],
    otherwise rounded to the nearest double, ties to even. The sums of
    offsets and lengths are kept exact: a double rounds them from [2^53]
    on only, where they exceed the length of any Buffer either way. *)
Definition Number_of_BigInt (n : Z) : Z :=
  if n <? 2 ^ 53 then n
  else
    let e := Z.log2 n - 52 in
    let q := n / 2 ^ e in
    let r := n mod 2 ^ e in
    let half := 2 ^ (e - 1) in
    if r <? half then q * 2 ^ e
    else if half <? r then (q + 1) * 2 ^ e
    else if Z.even q then q * 2 ^ e else (q + 1) * 2 ^ e.

(** [buffer.constants.MAX_LENGTH]: no Buffer is longer (its largest
    value over the supported runtimes). *)
Definition kMaxLength : Z := 2 ^ 53 - 1.

(** ** UTF-8: [Buffer.from(s, "utf8")] and [buf.toString("utf8")] *)

Module Utf8.

Definition is_high_surrogate (c : Z) : bool := (0xD800 <=? c) && (c <=? 0xDBFF).
Definition is_low_surrogate (c : Z) : bool := (0xDC00 <=? c) && (c <=? 0xDFFF).

(** The bytes of one code point. *)
Definition encode_code_point (cp : Z) : list Z :=
  if cp <? 0x80 then [cp]
  else if cp <? 0x800 then [0xC0 + cp / 64; 0x80 + cp mod 64]
  else if cp <? 0x10000 then
    [0xE0 + cp / 4096; 0x80 + (cp / 64) mod 64; 0x80 + cp mod 64]
  else
    [0xF0 + cp / 262144; 0x80 + (cp / 4096) mod 64;
     0x80 + (cp / 64) mod 64; 0x80 + cp mod 64].

(** U+FFFD, which replaces an unpaired surrogate. *)
Definition replacement : Z := 0xFFFD.

(** [Buffer.from(s, "utf8")]: a surrogate pair is one code point, an
    unpaired surrogate is written as U+FFFD. *)
Fixpoint encode_units (s : JSString) : list Z :=
  match s with
  | [] => []
  | c :: rest =>
    if is_high_surrogate c then
      match rest with
      | d :: rest' =>
        if is_low_surrogate d then
          encode_code_point (0x10000 + (c - 0xD800) * 1024 + (d - 0xDC00))
            ++ encode_units rest'
        else encode_code_point replacement ++ encode_units rest
      | [] => encode_code_point replacement
      end
    else if is_low_surrogate c then
      encode_code_point replacement ++ encode_units rest
    else encode_code_point c ++ encode_units rest
  end.

Definition encode (s : JSString) : Buffer := map z2b (encode_units s).

(** The decoder state of the WHATWG UTF-8 decoder: the code point being
    assembled, the continuation bytes still needed and the bounds of the
    next continuation byte. *)
Record Decoder := {
  code_point : Z;
  bytes_needed : nat;
  lower_boundary : Z;
  upper_boundary : Z
}.

Definition idle : Decoder :=
  {| code_point := 0; bytes_needed := 0;
     lower_boundary := 0x80; upper_boundary := 0xBF |}.

(** A code point as UTF-16 code units. *)
Definition utf16_of_code_point (cp : Z) : JSString :=
  if cp <? 0x10000 then [cp]
  else [0xD800 + (cp - 0x10000) / 1024; 0xDC00 + (cp - 0x10000) mod 1024].

(** A byte read while no sequence is open. *)
Definition start (b : Z) : Decoder * JSString :=
  if (0 <=? b) && (b <=? 0x7F) then (idle, [b])
  else if (0xC2 <=? b) && (b <=? 0xDF) then
    ({| code_point := b - 0xC0; bytes_needed := 1;
        lower_boundary := 0x80; upper_boundary := 0xBF |}, [])
  else if (0xE0 <=? b) && (b <=? 0xEF) then
    ({| code_point := b - 0xE0; bytes_needed := 2;
        lower_boundary := if b =? 0xE0 then 0xA0 else 0x80;
        upper_boundary := if b =? 0xED then 0x9F else 0xBF |}, [])
  else if (0xF0 <=? b) && (b <=? 0xF4) then
    ({| code_point := b - 0xF0; bytes_needed := 3;
        lower_boundary := if b =? 0xF0 then 0x90 else 0x80;
        upper_boundary := if b =? 0xF4 then 0x8F else 0xBF |}, [])
  else (idle, [replacement]).

(** One byte: a continuation byte in range extends the open sequence; a
    byte out of range closes it with U+FFFD and is read again as a first
    byte. *)
Definition step (st : Decoder) (b : Z) : Decoder * JSString :=
  match bytes_needed st with
  | O => start b
  | S k =>
    if (lower_boundary st <=? b) && (b <=? upper_boundary st) then
      let cp := code_point st * 64 + (b - 0x80) in
      match k with
      | O => (idle, utf16_of_code_point cp)
      | S _ => ({| code_point := cp; bytes_needed := k;
                   lower_boundary := 0x80; upper_boundary := 0xBF |}, [])
      end
    else let '(st', out) := start b in (st', replacement :: out)
  end.

Fixpoint decode_from (st : Decoder) (input : list Z) : JSString :=
  match input with
  | [] => match bytes_needed st with O => [] | S _ => [replacement] end
  | b :: rest => let '(st', out) := step st b in out ++ decode_from st' rest
  end.

(** [buf.toString("utf8")] *)
Definition decode (buf : Buffer) : JSString := decode_from idle (map b2z buf).

(** [s.isWellFormed()]: 16-bit code units, every surrogate paired. *)
Fixpoint isWellFormed (s : JSString) : bool :=
  match s with
  | [] => true
  | c :: rest =>
    if is_high_surrogate c then
      match rest with
      | d :: rest' => is_low_surrogate d && isWellFormed rest'
      | [] => false
      end
    else (0 <=? c) && (c <=? 0xFFFF) && negb (is_low_surrogate c)
         && isWellFormed rest
  end.

(** A Unicode scalar value: a code point that is not a surrogate. *)
Definition scalar (cp : Z) : Prop :=
  0 <= cp < 0x110000 /\ ~ (0xD800 <= cp <= 0xDFFF).

End Utf8.

(** ** The frame codec of [WebSocketServer] *)

(** [createWebSocketFrame(data)] *)
Definition createWebSocketFrame (data : JSString) : Buffer :=
  let payload := Utf8.encode data in
  let payloadLength := blen payload in
  let frame :=
    if payloadLength <? 126 then [z2b 0x81; z2b payloadLength]
    else if payloadLength <? 65536 then
      [z2b 0x81; z2b 126] ++ be_bytes 2 payloadLength
    else [z2b 0x81; z2b 127] ++ be_bytes 8 payloadLength in
  frame ++ payload.

(** The unmasking loop: [unmaskedPayload[i] = payload[i] ^ maskKey[i % 4]],
    stored into a Uint8Array. *)
Definition unmask (payload maskKey : Buffer) : Buffer :=
  imap (fun i b => z2b (Z.lxor (b2z b) (byte_at maskKey (Z.of_nat i mod 4))))
       payload.

(** One turn of the [while] loop of [parseWebSocketFrames]: [Break], or
    the next offset together with the message pushed, if any. *)
Inductive Turn :=
  | Break
  | Next (offset : Z) (message : option JSString).

Definition extendedLength (fullBuffer : Buffer) (payloadLength payloadOffset : Z)
  : option (Z * Z) :=
  if payloadLength =? 126 then
    if payloadOffset + 2 >? blen fullBuffer then None
    else Some (readUInt16BE fullBuffer payloadOffset, payloadOffset + 2)
  else if payloadLength =? 127 then
    if payloadOffset + 8 >? blen fullBuffer then None
    else Some (Number_of_BigInt (readBigUInt64BE fullBuffer payloadOffset),
               payloadOffset + 8)
  else Some (payloadLength, payloadOffset).

Definition readMask (fullBuffer : Buffer) (masked : bool) (payloadOffset : Z)
  : option (option Buffer * Z) :=
  if masked then
    if payloadOffset + 4 >? blen fullBuffer then None
    else Some (Some (subarray fullBuffer payloadOffset (payloadOffset + 4)),
               payloadOffset + 4)
  else Some (None, payloadOffset).

Definition parseFrameAt (fullBuffer : Buffer) (offset : Z) : Turn :=
  if offset + 2 >? blen fullBuffer then Break
  else
    let firstByte := byte_at fullBuffer offset in
    let secondByte := byte_at fullBuffer (offset + 1) in
    let opcode := Z.land firstByte 0x0f in
    let masked := Z.land secondByte 0x80 =? 0x80 in
    match extendedLength fullBuffer (Z.land secondByte 0x7f) (offset + 2) with
    | None => Break
    | Some (payloadLength, payloadOffset) =>
      match readMask fullBuffer masked payloadOffset with
      | None => Break
      | Some (maskKey, payloadOffset) =>
        if payloadOffset + payloadLength >? blen fullBuffer then Break
        else
          let payload :=
            subarray fullBuffer payloadOffset (payloadOffset + payloadLength) in
          let payload :=
            match maskKey with
            | Some key => unmask payload key
            | None => payload
            end in
          Next (payloadOffset + payloadLength)
               (if opcode =? 0x1 then Some (Utf8.decode payload) else None)
      end
    end.

(** [messages.push(...)] when the turn produced a message. *)
Definition push (messages : list JSString) (m : option JSString) : list JSString :=
  match m with
  | Some text => messages ++ [text]
  | None => messages
  end.

(** The [while (offset < fullBuffer.length)] loop. Every turn that does
    not break moves the offset forward by at least two bytes, so
    [length fullBuffer] turns are enough (see [parseLoop_run]). *)
Fixpoint parseLoop (fuel : nat) (fullBuffer : Buffer) (offset : Z)
    (messages : list JSString) : list JSString * Z :=
  match fuel with
  | O => (messages, offset)
  | S fuel' =>
    if offset <? blen fullBuffer then
      match parseFrameAt fullBuffer offset with
      | Break => (messages, offset)
      | Next offset' m => parseLoop fuel' fullBuffer offset' (push messages m)
      end
    else (messages, offset)
  end.

Record Parsed := { parsed : list JSString; remaining : Buffer }.

(** [parseWebSocketFrames(data, existingBuffer)] *)
Definition parseWebSocketFrames (data existingBuffer : Buffer) : Parsed :=
  let fullBuffer := existingBuffer ++ data in
  let '(messages, offset) := parseLoop (length fullBuffer) fullBuffer 0 [] in
  {| parsed := messages; remaining := subarray_from fullBuffer offset |}.

(** The loop as the source runs it, without a bound on the turns. *)
Inductive loopRun (fullBuffer : Buffer) :
    Z -> list JSString -> list JSString * Z -> Prop :=
  | run_end offset messages :
      blen fullBuffer <= offset ->
      loopRun fullBuffer offset messages (messages, offset)
  | run_break offset messages :
      offset < blen fullBuffer ->
      parseFrameAt fullBuffer offset = Break ->
      loopRun fullBuffer offset messages (messages, offset)
  | run_next offset messages offset' m result :
      offset < blen fullBuffer ->
      parseFrameAt fullBuffer offset = Next offset' m ->
      loopRun fullBuffer offset' (push messages m) result ->
      loopRun fullBuffer offset messages result.

(** ** The layout of a frame on the wire (RFC 6455, section 5.2)

    The two header bytes, the extended length (0, 2 or 8 bytes), the
    masking key (0 or 4 bytes) and the payload. The decoder is compared
    with this description. *)
Record WireFrame := {
  wf_first : byte;
  wf_second : byte;
  wf_extended : Buffer;
  wf_maskKey : Buffer;
  wf_payload : Buffer
}.

Definition wf_opcode (fr : WireFrame) : Z := Z.land (b2z (wf_first fr)) 0x0f.
Definition wf_masked (fr : WireFrame) : bool :=
  Z.land (b2z (wf_second fr)) 0x80 =? 0x80.
Definition wf_length7 (fr : WireFrame) : Z := Z.land (b2z (wf_second fr)) 0x7f.

(** The payload length the header declares. *)
Definition wf_declared (fr : WireFrame) : Z :=
  if wf_length7 fr =? 126 then be_value (wf_extended fr)
  else if wf_length7 fr =? 127 then Number_of_BigInt (be_value (wf_extended fr))
  else wf_length7 fr.

(** Every field has the size the header announces. *)
Definition wellFramed (fr : WireFrame) : Prop :=
  blen (wf_extended fr) =
    (if wf_length7 fr =? 126 then 2 else if wf_length7 fr =? 127 then 8 else 0)
  /\ blen (wf_maskKey fr) = (if wf_masked fr then 4 else 0)
  /\ blen (wf_payload fr) = wf_declared fr.

(** The bytes of the frame, from its first header byte to the end of its
    payload. *)
Definition wire (fr : WireFrame) : Buffer :=
  [wf_first fr; wf_second fr] ++ wf_extended fr ++ wf_maskKey fr ++ wf_payload fr.

(** The payload string a text frame carries; other opcodes carry none. *)
Definition wf_text (fr : WireFrame) : option JSString :=
  if wf_opcode fr =? 0x1 then
    Some (Utf8.decode (if wf_masked fr then unmask (wf_payload fr) (wf_maskKey fr)
                       else wf_payload fr))
  else None.

(** The strings a sequence of frames delivers, in order. *)
Definition texts (frames : list WireFrame) : list JSString :=
  omap wf_text frames.

(** The frame [createWebSocketFrame] writes, field by field. *)
Definition encodedFrame (data : JSString) : WireFrame :=
  let payload := Utf8.encode data in
  let payloadLength := blen payload in
  {| wf_first := z2b 0x81;
     wf_second :=
       z2b (if payloadLength <? 126 then payloadLength
            else if payloadLength <? 65536 then 126 else 127);
     wf_extended :=
       if payloadLength <? 126 then []
       else if payloadLength <? 65536 then be_bytes 2 payloadLength
       else be_bytes 8 payloadLength;
     wf_maskKey := [];
     wf_payload := payload |}.

(** A ping frame with a masked two-byte payload. *)
Definition pingFrame : WireFrame :=
  {| wf_first := z2b 0x89; wf_second := z2b 0x82;
     wf_extended := []; wf_maskKey := bytes [1; 2; 3; 4];
     wf_payload := bytes [9; 9] |}.

(** ** JavaScript values: messages and their JSON text *)

#[local] Set Warnings "-register-all".

(** The values a message is made of. A number is a safe integer
    ([JNumber]: an integer between -(2^53 - 1) and 2^53 - 1, as ids,
    error codes, line and column numbers are; -0 behaves as 0
    everywhere here) or another finite number ([JFloat]: 1.5, 1e21,
    2^53 + 2), which is known here by the text its conversion to string
    gives. An object is the list of its own properties, in insertion
    order, each key once. *)
Inductive JSValue :=
  | JUndefined
  | JNull
  | JBool (b : bool)
  | JNumber (n : Z)
  | JFloat (text : JSString)
  | JString (s : JSString)
  | JArray (items : list JSValue)
  | JObject (props : list (JSString * JSValue)).

Fixpoint lookupProp (props : list (JSString * JSValue)) (name : JSString)
  : JSValue :=
  match props with
  | [] => JUndefined
  | (k, v) :: rest => if decide (k = name) then v else lookupProp rest name
  end.

(** [v.name] for the names the server reads ([method], [id], [params],
    [path], which no prototype defines): a TypeError ([None]) on
    [undefined] and [null], the own property of an object, [undefined]
    on anything else. *)
Definition getProp (v : JSValue) (name : JSString) : option JSValue :=
  match v with
  | JUndefined | JNull => None
  | JObject props => Some (lookupProp props name)
  | _ => Some JUndefined
  end.

(** [v === "literal"] *)
Definition strictEquals (v : JSValue) (literal : JSString) : bool :=
  match v with
  | JString s => bool_decide (s = literal)
  | _ => false
  end.

(** [v?.name] *)
Definition getPropOpt (v : JSValue) (name : JSString) : JSValue :=
  match getProp v name with
  | Some x => x
  | None => JUndefined
  end.

(** Truthiness: [if (v)], [!v]. *)
Definition truthy (v : JSValue) : bool :=
  match v with
  | JUndefined | JNull => false
  | JBool b => b
  | JNumber n => negb (n =? 0)
  | JFloat _ => true
  | JString s => match s with [] => false | _ => true end
  | JArray _ | JObject _ => true
  end.

(** [xs.join(sep)] on strings. *)
Fixpoint join (sep : JSString) (xs : list JSString) : JSString :=
  match xs with
  | [] => []
  | [x] => x
  | x :: rest => x ++ sep ++ join sep rest
  end.

Fixpoint digits (d : Decimal.uint) : JSString :=
  match d with
  | Decimal.Nil => []
  | Decimal.D0 d => 48 :: digits d
  | Decimal.D1 d => 49 :: digits d
  | Decimal.D2 d => 50 :: digits d
  | Decimal.D3 d => 51 :: digits d
  | Decimal.D4 d => 52 :: digits d
  | Decimal.D5 d => 53 :: digits d
  | Decimal.D6 d => 54 :: digits d
  | Decimal.D7 d => 55 :: digits d
  | Decimal.D8 d => 56 :: digits d
  | Decimal.D9 d => 57 :: digits d
  end.

(** [String(n)] for a safe integer: its decimal digits. *)
Definition numberToString (n : Z) : JSString :=
  match Z.to_int n with
  | Decimal.Pos d => digits d
  | Decimal.Neg d => 45 :: digits d
  end.

(** Whether the object has an own property of this name. *)
Fixpoint hasOwnProperty (props : list (JSString * JSValue)) (name : JSString)
  : bool :=
  match props with
  | [] => false
  | (k, _) :: rest => if decide (k = name) then true else hasOwnProperty rest name
  end.

(** [String(v)], as a template literal converts; [None] is the TypeError
    of a conversion that finds no primitive value. An object without an
    own [toString] inherits the one of [Object.prototype]; an own
    [toString] is data, as every property of these objects is, so it is
    not callable, and [valueOf], own or inherited, gives no primitive
    either. An array is joined with commas, its elements converted in
    turn, [undefined] and [null] giving the empty string. *)
Fixpoint toStr (v : JSValue) : option JSString :=
  match v with
  | JUndefined => Some (js "undefined")
  | JNull => Some (js "null")
  | JBool true => Some (js "true")
  | JBool false => Some (js "false")
  | JNumber n => Some (numberToString n)
  | JFloat text => Some text
  | JString s => Some s
  | JArray items =>
    option_map (join (js ","))
      ((fix elements (xs : list JSValue) : option (list JSString) :=
          match xs with
          | [] => Some []
          | x :: rest =>
            match match x with
                  | JUndefined | JNull => Some []
                  | _ => toStr x
                  end with
            | Some t => option_map (cons t) (elements rest)
            | None => None
            end
          end) items)
  | JObject props =>
    if hasOwnProperty props (js "toString") then None
    else Some (js "[object Object]")
  end.

(** The message of that TypeError. *)
Definition notPrimitive : JSValue :=
  JString (js "Cannot convert object to primitive value").

(** The message of the TypeError of [v.name] on [undefined] or [null]. *)
Definition typeError (v : JSValue) (name : JSString) : JSValue :=
  JString (js "Cannot read properties of "
           ++ match v with JNull => js "null" | _ => js "undefined" end
           ++ js " (reading '" ++ name ++ js "')").

Definition hexDigit (n : Z) : Z := if n <? 10 then 48 + n else 87 + n.

(** [\uXXXX] *)
Definition unicodeEscape (c : Z) : JSString :=
  js "\u" ++ [hexDigit (c / 4096 mod 16); hexDigit (c / 256 mod 16);
              hexDigit (c / 16 mod 16); hexDigit (c mod 16)].

Definition escapeUnit (c : Z) : JSString :=
  if c =? 0x22 then js "\" ++ [0x22]
  else if c =? 0x5C then js "\\"
  else if c =? 0x08 then js "\b"
  else if c =? 0x0C then js "\f"
  else if c =? 0x0A then js "\n"
  else if c =? 0x0D then js "\r"
  else if c =? 0x09 then js "\t"
  else if c <? 0x20 then unicodeEscape c
  else [c].

(** The body of a JSON string: escapes, surrogate pairs kept, unpaired
    surrogates escaped. *)
Fixpoint quoteBody (s : JSString) : JSString :=
  match s with
  | [] => []
  | c :: rest =>
    if Utf8.is_high_surrogate c then
      match rest with
      | d :: rest' =>
        if Utf8.is_low_surrogate d then c :: d :: quoteBody rest'
        else unicodeEscape c ++ quoteBody rest
      | [] => unicodeEscape c
      end
    else if Utf8.is_low_surrogate c then unicodeEscape c ++ quoteBody rest
    else escapeUnit c ++ quoteBody rest
  end.

Definition quote (s : JSString) : JSString := [0x22] ++ quoteBody s ++ [0x22].

(** The number decimal digits denote, read from the left. *)
Fixpoint digitsValue (acc : Z) (s : JSString) : option Z :=
  match s with
  | [] => Some acc
  | c :: rest =>
    if (48 <=? c) && (c <=? 57) then digitsValue (acc * 10 + (c - 48)) rest
    else None
  end.

(** A key that is an array index: the canonical decimal text of an
    integer below 2^32 - 1. *)
Definition arrayIndex (k : JSString) : option Z :=
  match digitsValue 0 k with
  | Some n =>
    if bool_decide (numberToString n = k) && (n <? 4294967295) then Some n
    else None
  | None => None
  end.

Fixpoint insertIndexed {A : Type} (n : Z) (x : A) (sorted : list (Z * A))
  : list (Z * A) :=
  match sorted with
  | [] => [(n, x)]
  | (m, y) :: rest =>
    if n <? m then (n, x) :: sorted else (m, y) :: insertIndexed n x rest
  end.

(** The order in which the own properties of an object are listed: the
    array indices in ascending order, then the other keys in insertion
    order. *)
Definition ownPropertyOrder {A : Type} (members : list (JSString * A))
  : list (JSString * A) :=
  map snd
    (foldr (fun '(n, m) sorted => insertIndexed n m sorted) []
       (omap (fun m => (fun n => (n, m)) <$> arrayIndex m.1) members))
  ++ filter (fun m => arrayIndex m.1 = None) members.

(** [JSON.stringify(v)]: [None] is the result [undefined]. Properties
    whose value is [undefined] are left out, the others are written in
    the order of [ownPropertyOrder]; [undefined] in an array is written
    [null]. *)
Fixpoint JSON_stringify (v : JSValue) : option JSString :=
  match v with
  | JUndefined => None
  | JNull => Some (js "null")
  | JBool true => Some (js "true")
  | JBool false => Some (js "false")
  | JNumber n => Some (numberToString n)
  | JFloat text => Some text
  | JString s => Some (quote s)
  | JArray items =>
    Some (js "[" ++
          join (js ",")
            (map (fun x => match JSON_stringify x with
                           | Some t => t
                           | None => js "null"
                           end) items)
          ++ js "]")
  | JObject props =>
    Some (js "{" ++
          join (js ",")
            (map (fun m => quote m.1 ++ js ":" ++ m.2)
               (ownPropertyOrder
                  ((fix members (ps : list (JSString * JSValue))
                      : list (JSString * JSString) :=
                      match ps with
                      | [] => []
                      | (k, x) :: rest =>
                        match JSON_stringify x with
                        | Some t => (k, t) :: members rest
                        | None => members rest
                        end
                      end) props)))
          ++ js "}")
  end.

(** [s.length] *)
Definition slen (s : JSString) : Z := Z.of_nat (length s).

(** ** Sockets, effects and the state of [WebSocketServer] *)

(** A socket object is named by a number. *)
Definition SocketId := nat.

(** [socket.destroyed] and [socket.writable]. *)
Record SocketFlags := { destroyed : bool; writable : bool }.

Definition liveSocket : SocketFlags := {| destroyed := false; writable := true |}.

(** What a handler does to the outside, in order. *)
Inductive Effect :=
  | SocketEnd (socket : SocketId) (text : JSString)
  | SocketWriteText (socket : SocketId) (text : JSString)
  | SocketWrite (socket : SocketId) (frame : Buffer)
  | SocketDestroy (socket : SocketId)
  | OnMessage (message : JSValue) (socket : SocketId)
  | OnConnection (socket : SocketId).

(** A header of [request.headers]: [string | string[]]; a header that is
    absent is [undefined]. *)
Inductive HeaderValue :=
  | HString (value : JSString)
  | HArray (values : list JSString).

Record UpgradeRequest := {
  headers : gmap string HeaderValue;
  url : JSString
}.

(** The fields of the server, the [buffer] variable each connection's
    listeners close over (present once [handleConnection] has run for
    the socket) and the flags of the socket objects. A socket the map
    does not mention is live. *)
Record Server := {
  connections : list SocketId;
  authToken : JSString;
  buffers : gmap SocketId Buffer;
  sockets : gmap SocketId SocketFlags
}.

(** The server after [new WebSocketServer(...)]. *)
Definition newServer : Server :=
  {| connections := []; authToken := []; buffers := ∅; sockets := ∅ |}.

Definition flagsOf (srv : Server) (socket : SocketId) : SocketFlags :=
  default liveSocket (sockets srv !! socket).

Definition MAX_CONNECTIONS : Z := 10.
Definition MAX_BUFFER_SIZE : Z := 1024 * 1024.
Definition MAX_MESSAGE_SIZE : Z := 10 * 1024 * 1024.

(** [this.connections.size] *)
Definition size (srv : Server) : Z := Z.of_nat (length (connections srv)).

(** [Set.prototype.add] and [Set.prototype.delete], in insertion order. *)
Definition setAdd (socket : SocketId) (set : list SocketId) : list SocketId :=
  if decide (socket ∈ set) then set else set ++ [socket].

Definition setDelete (socket : SocketId) (set : list SocketId) : list SocketId :=
  filter (fun x => x ≠ socket) set.

Definition withConnections (srv : Server) (c : list SocketId) : Server :=
  {| connections := c; authToken := authToken srv;
     buffers := buffers srv; sockets := sockets srv |}.

Definition withFlags (srv : Server) (socket : SocketId) (f : SocketFlags) : Server :=
  {| connections := connections srv; authToken := authToken srv;
     buffers := buffers srv; sockets := <[socket := f]> (sockets srv) |}.

Definition withBuffer (srv : Server) (socket : SocketId) (b : Buffer) : Server :=
  {| connections := connections srv; authToken := authToken srv;
     buffers := <[socket := b]> (buffers srv); sockets := sockets srv |}.

(** [socket.end(text)]: the text is written and the writable side ends. *)
Definition socketEnd (srv : Server) (socket : SocketId) (text : JSString)
  : Server * list Effect :=
  (withFlags srv socket
     {| destroyed := destroyed (flagsOf srv socket); writable := false |},
   [SocketEnd socket text]).

(** [socket.destroy()] *)
Definition socketDestroy (srv : Server) (socket : SocketId) : Server * list Effect :=
  (withFlags srv socket {| destroyed := true; writable := false |},
   [SocketDestroy socket]).

(** [cleanupConnection(socket)] *)
Definition cleanupConnection (srv : Server) (socket : SocketId)
  : Server * list Effect :=
  let srv := withConnections srv (setDelete socket (connections srv)) in
  if negb (destroyed (flagsOf srv socket)) then socketDestroy srv socket
  else (srv, []).

(** The error objects of the size limits. *)
Definition messageTooLarge : JSValue :=
  JObject
    [(js "jsonrpc", JString (js "2.0"));
     (js "error",
      JObject [(js "code", JNumber (-32600));
               (js "message", JString (js "Message too large"))])].

Definition responseTooLarge (id : JSValue) : JSValue :=
  JObject
    [(js "jsonrpc", JString (js "2.0"));
     (js "id", id);
     (js "error",
      JObject [(js "code", JNumber (-32600));
               (js "message", JString (js "Response too large"))])].

(** [sendMessage(socket, message)]. [payload.length] on [undefined] and
    [message.id] on [null] throw, and the [catch] cleans the connection
    up; [socket.write] itself does not throw. *)
Definition sendMessage (srv : Server) (socket : SocketId) (message : JSValue)
  : Server * list Effect :=
  if negb (destroyed (flagsOf srv socket)) && writable (flagsOf srv socket) then
    match JSON_stringify message with
    | None => cleanupConnection srv socket
    | Some payload =>
      if slen payload >? MAX_MESSAGE_SIZE then
        match getProp message (js "id") with
        | None => cleanupConnection srv socket
        | Some id =>
          match JSON_stringify (responseTooLarge id) with
          | None => cleanupConnection srv socket
          | Some errorPayload =>
            (srv, [SocketWrite socket (createWebSocketFrame errorPayload)])
          end
        end
      else (srv, [SocketWrite socket (createWebSocketFrame payload)])
    end
  else (srv, []).

Definition crlf : JSString := [13; 10].

Definition badRequest : JSString := js "HTTP/1.1 400 Bad Request" ++ crlf ++ crlf.

Definition unauthorized (reason : string) : JSString :=
  js "HTTP/1.1 401 Unauthorized" ++ crlf ++ js "Content-Type: text/plain"
    ++ crlf ++ crlf ++ js reason.

Definition serviceUnavailable : JSString :=
  js "HTTP/1.1 503 Service Unavailable" ++ crlf ++ js "Content-Type: text/plain"
    ++ crlf ++ crlf ++ js "Connection limit reached".

Definition switchingProtocols (acceptKey : JSString) : JSString :=
  join crlf
    [js "HTTP/1.1 101 Switching Protocols"; js "Upgrade: websocket";
     js "Connection: Upgrade"; js "Sec-WebSocket-Accept: " ++ acceptKey;
     js "Sec-WebSocket-Protocol: mcp"; []; []].

(** [Array.isArray(keyHeader) ? keyHeader[0] : keyHeader] *)
Definition firstValue (h : option HeaderValue) : option JSString :=
  match h with
  | Some (HArray values) => head values
  | Some (HString value) => Some value
  | None => None
  end.

(** [!key] on [string | undefined] *)
Definition missing (key : option JSString) : bool :=
  match key with
  | None | Some [] => true
  | Some _ => false
  end.

(** [!authHeader] on [string | string[] | undefined] *)
Definition headerMissing (h : option HeaderValue) : bool :=
  match h with
  | None | Some (HString []) => true
  | Some _ => false
  end.

(** [authHeader !== this.authToken] *)
Definition differsFrom (h : option HeaderValue) (token : JSString) : bool :=
  match h with
  | Some (HString value) => negb (bool_decide (value = token))
  | _ => true
  end.

Section WebSocketServer.

(** The runtime: [JSON.parse], which throws ([None]) on text that is not
    JSON, and the SHA-1 digest in base64 of [crypto]. *)
Variable JSON_parse : JSString -> option JSValue.
Variable sha1_base64 : JSString -> JSString.

(** [handleConnection(socket)], the part that runs at once; the
    listeners it registers are [onData], [onClose] and [onError]. *)
Definition handleConnection (srv : Server) (socket : SocketId)
  : Server * list Effect :=
  let srv := withConnections srv (setAdd socket (connections srv)) in
  let srv := withBuffer srv socket [] in
  (srv, [OnConnection socket]).

(** [handleWebSocketUpgrade(request, socket, head)] *)
Definition handleWebSocketUpgrade (srv : Server) (request : UpgradeRequest)
    (socket : SocketId) : Server * list Effect :=
  let key := firstValue (headers request !! "sec-websocket-key") in
  if missing key then socketEnd srv socket badRequest
  else
    let authHeader := headers request !! "x-claude-code-ide-authorization" in
    if headerMissing authHeader then
      socketEnd srv socket
        (unauthorized "Missing authentication header: x-claude-code-ide-authorization")
    else if differsFrom authHeader (authToken srv) then
      socketEnd srv socket (unauthorized "Invalid authentication token")
    else if size srv >=? MAX_CONNECTIONS then
      socketEnd srv socket serviceUnavailable
    else
      let acceptKey :=
        sha1_base64 (default [] key ++ js "258EAFA5-E914-47DA-95CA-C5AB0DC85B11") in
      let '(srv, effects) := handleConnection srv socket in
      (srv, SocketWriteText socket (switchingProtocols acceptKey) :: effects).

(** The callback of [messages.parsed.forEach]: one decoded payload. *)
Definition onMessageText (srv : Server) (socket : SocketId) (messageText : JSString)
  : Server * list Effect :=
  if slen messageText >? MAX_MESSAGE_SIZE then
    sendMessage srv socket messageTooLarge
  else
    match JSON_parse messageText with
    | Some message => (srv, [OnMessage message socket])
    | None => (srv, [])
    end.

Fixpoint forEachMessage (srv : Server) (socket : SocketId)
    (messages : list JSString) : Server * list Effect :=
  match messages with
  | [] => (srv, [])
  | messageText :: rest =>
    let '(srv, effects) := onMessageText srv socket messageText in
    let '(srv, effects') := forEachMessage srv socket rest in
    (srv, effects ++ effects')
  end.

(** The ["data"] listener of a connection whose buffer holds [buffer]. *)
Definition onData (srv : Server) (socket : SocketId) (buffer data : Buffer)
  : Server * list Effect :=
  if blen buffer + blen data >? MAX_BUFFER_SIZE then cleanupConnection srv socket
  else
    let messages := parseWebSocketFrames data buffer in
    let srv := withBuffer srv socket (remaining messages) in
    forEachMessage srv socket (parsed messages).

(** The ["close"] listener. *)
Definition onClose (srv : Server) (socket : SocketId) : Server * list Effect :=
  (withConnections srv (setDelete socket (connections srv)), []).

(** The ["error"] listener. *)
Definition onError (srv : Server) (socket : SocketId) : Server * list Effect :=
  cleanupConnection srv socket.

(** [forEach] over sockets, threading the server through. *)
Fixpoint forEachSocket (f : Server -> SocketId -> Server * list Effect)
    (srv : Server) (l : list SocketId) : Server * list Effect :=
  match l with
  | [] => (srv, [])
  | socket :: rest =>
    let '(srv, effects) := f srv socket in
    let '(srv, effects') := forEachSocket f srv rest in
    (srv, effects ++ effects')
  end.

(** [broadcast(message)], over a snapshot of the set. *)
Definition broadcast (srv : Server) (message : JSValue) : Server * list Effect :=
  forEachSocket
    (fun srv socket =>
       if negb (destroyed (flagsOf srv socket)) && writable (flagsOf srv socket)
       then sendMessage srv socket message
       else cleanupConnection srv socket)
    srv (connections srv).

(** A tick of the health check. *)
Definition healthCheck (srv : Server) : Server * list Effect :=
  forEachSocket
    (fun srv socket =>
       if destroyed (flagsOf srv socket) || negb (writable (flagsOf srv socket))
       then (withConnections srv (setDelete socket (connections srv)), [])
       else (srv, []))
    srv (connections srv).

(** [stop()], as far as the connections go. *)
Definition stop (srv : Server) : Server * list Effect :=
  let '(srv, effects) := forEachSocket cleanupConnection srv (connections srv) in
  (withConnections srv [], effects).

(** [setAuthToken(token)] *)
Definition setAuthToken (srv : Server) (token : JSString) : Server :=
  {| connections := connections srv; authToken := token;
     buffers := buffers srv; sockets := sockets srv |}.

(** What can happen to a running server: the events of the HTTP server
    and of the sockets, the timer, the calls of its public methods, and
    a transport that changes state on its own. A socket that has not been
    through [handleConnection] has no listeners; the HTTP server emits
    ["upgrade"] once for a socket. *)
Inductive Event :=
  | Upgrade (request : UpgradeRequest) (socket : SocketId)
  | Data (socket : SocketId) (data : Buffer)
  | Close (socket : SocketId)
  | Error (socket : SocketId)
  | Tick
  | CallSendMessage (socket : SocketId) (message : JSValue)
  | CallBroadcast (message : JSValue)
  | CallSetAuthToken (token : JSString)
  | CallStop
  | Transport (socket : SocketId) (flags : SocketFlags).

Definition step (srv : Server) (e : Event) : Server * list Effect :=
  match e with
  | Upgrade request socket => handleWebSocketUpgrade srv request socket
  | Data socket data =>
    match buffers srv !! socket with
    | Some buffer => onData srv socket buffer data
    | None => (srv, [])
    end
  | Close socket =>
    match buffers srv !! socket with
    | Some _ => onClose srv socket
    | None => (srv, [])
    end
  | Error socket =>
    match buffers srv !! socket with
    | Some _ => onError srv socket
    | None => (srv, [])
    end
  | Tick => healthCheck srv
  | CallSendMessage socket message => sendMessage srv socket message
  | CallBroadcast message => broadcast srv message
  | CallSetAuthToken token => (setAuthToken srv token, [])
  | CallStop => stop srv
  | Transport socket flags => (withFlags srv socket flags, [])
  end.

(** The server after a sequence of events, and everything it did. *)
Fixpoint run (srv : Server) (events : list Event) : Server * list Effect :=
  match events with
  | [] => (srv, [])
  | e :: rest =>
    let '(srv, effects) := step srv e in
    let '(srv, effects') := run srv rest in
    (srv, effects ++ effects')
  end.

(** The request passes the credential check of the server. *)
Definition passesCheck (srv : Server) (request : UpgradeRequest) : Prop :=
  exists value,
    headers request !! "x-claude-code-ide-authorization" = Some (HString value)
    /\ value <> [] /\ value = authToken srv.

(** The handlers that only ever remove connections leave a sublist. *)
Definition shrinks (srv srv' : Server) : Prop :=
  connections srv' `sublist_of` connections srv.

(** The four ways an upgrade request ends. *)
Inductive UpgradeResult (srv : Server) (request : UpgradeRequest)
    (socket : SocketId) : Server * list Effect -> Prop :=
  | upgrade_bad_request :
      missing (firstValue (headers request !! "sec-websocket-key")) = true ->
      UpgradeResult srv request socket (socketEnd srv socket badRequest)
  | upgrade_unauthorized reason :
      missing (firstValue (headers request !! "sec-websocket-key")) = false ->
      ~ passesCheck srv request ->
      UpgradeResult srv request socket (socketEnd srv socket (unauthorized reason))
  | upgrade_unavailable :
      missing (firstValue (headers request !! "sec-websocket-key")) = false ->
      passesCheck srv request ->
      MAX_CONNECTIONS <= size srv ->
      UpgradeResult srv request socket (socketEnd srv socket serviceUnavailable)
  | upgrade_established key :
      firstValue (headers request !! "sec-websocket-key") = Some key ->
      key <> [] ->
      passesCheck srv request ->
      size srv < MAX_CONNECTIONS ->
      UpgradeResult srv request socket
        (withBuffer (withConnections srv (setAdd socket (connections srv))) socket [],
         [SocketWriteText socket
            (switchingProtocols
               (sha1_base64 (key ++ js "258EAFA5-E914-47DA-95CA-C5AB0DC85B11")));
          OnConnection socket]).

End WebSocketServer.

(** ** The earlier revision of the server (src/websocket.ts without the
    resource limits)

    The frame codec is the same text in both revisions. The upgrade
    handler has no connection ceiling and takes the key header as it
    comes; the read handler has no size checks. *)
Module Legacy.

Section WebSocketServer.

Variable JSON_parse : JSString -> option JSValue.
Variable sha1_base64 : JSString -> JSString.

(** [!key] and [key + "258EAFA5-..."] on [string | string[] | undefined] *)
Definition keyText (h : HeaderValue) : JSString :=
  match h with
  | HString value => value
  | HArray values => join (js ",") values
  end.

Definition handleConnection (srv : Server) (socket : SocketId)
  : Server * list Effect :=
  let srv := withConnections srv (setAdd socket (connections srv)) in
  let srv := withBuffer srv socket [] in
  (srv, [OnConnection socket]).

Definition handleWebSocketUpgrade (srv : Server) (request : UpgradeRequest)
    (socket : SocketId) : Server * list Effect :=
  let key := headers request !! "sec-websocket-key" in
  if headerMissing key then socketEnd srv socket badRequest
  else
    let authHeader := headers request !! "x-claude-code-ide-authorization" in
    if headerMissing authHeader then
      socketEnd srv socket
        (unauthorized "Missing authentication header: x-claude-code-ide-authorization")
    else if differsFrom authHeader (authToken srv) then
      socketEnd srv socket (unauthorized "Invalid authentication token")
    else
      let acceptKey :=
        sha1_base64 (from_option keyText [] key
                     ++ js "258EAFA5-E914-47DA-95CA-C5AB0DC85B11") in
      let '(srv, effects) := handleConnection srv socket in
      (srv, SocketWriteText socket (switchingProtocols acceptKey) :: effects).

Definition onMessageText (srv : Server) (socket : SocketId) (messageText : JSString)
  : Server * list Effect :=
  match JSON_parse messageText with
  | Some message => (srv, [OnMessage message socket])
  | None => (srv, [])
  end.

End WebSocketServer.

End Legacy.

(** ** [MCPHandler]: the dispatcher *)

Module MCPHandler.

(** The host application, as far as the handlers ask it. *)
Record TFile := { filePath : JSString }.

Record Editor := {
  getSelection : JSString;
  cursorLine : Z;
  cursorCh : Z
}.

(** [vault.getAbstractFileByPath(path)] gives a [TFile] or something
    else; [vault.read(file)] gives the content or rejects with an error,
    of which the handler reads [message]; [getActiveViewOfType] gives
    the editor of the active markdown view, if there is one. *)
Record App := {
  getAbstractFileByPath : JSValue -> option TFile;
  read : TFile -> JSString + JSValue;
  getActiveViewOfType : option Editor
}.

(** A call of the [sendMessage] callback. *)
Definition Sent := (SocketId * JSValue)%type.

(** What a handler leaves behind: the calls made, and whether it
    returned or threw an error with this [message]. *)
Inductive Outcome :=
  | Returned
  | Threw (message : JSValue).

Definition response (id result : JSValue) : JSValue :=
  JObject [(js "jsonrpc", JString (js "2.0")); (js "id", id); (js "result", result)].

Definition errorResponse (id : JSValue) (code : Z) (message : JSValue) : JSValue :=
  JObject [(js "jsonrpc", JString (js "2.0")); (js "id", id);
           (js "error", JObject [(js "code", JNumber code); (js "message", message)])].

Definition initializeResult : JSValue :=
  JObject
    [(js "protocolVersion", JString (js "2024-11-05"));
     (js "capabilities",
      JObject [(js "resources", JObject []); (js "tools", JObject []);
               (js "prompts", JObject [])]);
     (js "serverInfo",
      JObject [(js "name", JString (js "Obsidian"));
               (js "version", JString (js "1.0.0"))])].

(** [handleFileRead(message, socket, sendMessage)]; the message is an
    object here, its [method] was read. *)
Definition handleFileRead (app : App) (message : JSValue) (socket : SocketId)
  : list Sent * Outcome :=
  let filePath := getPropOpt (getPropOpt message (js "params")) (js "path") in
  if negb (truthy filePath) then
    ([], Threw (JString (js "File path is required")))
  else
    match getAbstractFileByPath app filePath with
    | None =>
      match toStr filePath with
      | Some text => ([], Threw (JString (js "File not found: " ++ text)))
      | None => ([], Threw notPrimitive)
      end
    | Some file =>
      match read app file with
      | inr error => ([], Threw error)
      | inl content =>
        ([(socket,
           response (getPropOpt message (js "id"))
             (JObject [(js "content", JString content)]))],
         Returned)
      end
    end.

(** [handleWorkspaceSelection(message, socket, sendMessage)] *)
Definition handleWorkspaceSelection (app : App) (message : JSValue)
    (socket : SocketId) : list Sent * Outcome :=
  match getActiveViewOfType app with
  | None => ([], Threw (JString (js "No active markdown view")))
  | Some editor =>
    ([(socket,
       response (getPropOpt message (js "id"))
         (JObject
            [(js "selection", JString (getSelection editor));
             (js "cursor",
              JObject [(js "line", JNumber (cursorLine editor));
                       (js "ch", JNumber (cursorCh editor))])]))],
     Returned)
  end.

(** The body of the [try] of [handleMessage]. The argument of
    [logger.debug] is a template literal, which converts [message.method]
    to a string before the call, whether or not anything is logged: for a
    method that has no string conversion that is a TypeError, before the
    [switch] and again in its [default] branch. *)
Definition dispatch (app : App) (message : JSValue) (socket : SocketId)
  : list Sent * Outcome :=
  match getProp message (js "method") with
  | None => ([], Threw (typeError message (js "method")))
  | Some method =>
    let id := getPropOpt message (js "id") in
    if truthy method then
      match toStr method with
      | None => ([], Threw notPrimitive)
      | Some _ =>
        if strictEquals method (js "initialize") then
          ([(socket, response id initializeResult)], Returned)
        else if strictEquals method (js "initialized") then
          ([], Returned)
        else if strictEquals method (js "files/read") then
          handleFileRead app message socket
        else if strictEquals method (js "workspace/selection") then
          handleWorkspaceSelection app message socket
        else if strictEquals method (js "resources/list") then
          ([(socket, response id (JObject [(js "resources", JArray [])]))],
           Returned)
        else
          match toStr method with
          | None => ([], Threw notPrimitive)
          | Some _ =>
            ([(socket,
               errorResponse id (-32601) (JString (js "Method not found")))],
             Returned)
          end
      end
    else ([], Returned)
  end.

(** [handleMessage(message, socket, sendMessage)]: the calls of
    [sendMessage] it makes, and whether the promise resolves. In the
    [catch], [message.id] on [undefined] or [null] throws again. *)
Definition handleMessage (app : App) (message : JSValue) (socket : SocketId)
  : list Sent * Outcome :=
  match dispatch app message socket with
  | (sent, Returned) => (sent, Returned)
  | (sent, Threw errorMessage) =>
    match getProp message (js "id") with
    | None => (sent, Threw (typeError message (js "id")))
    | Some id =>
      if truthy id then
        (sent ++ [(socket, errorResponse id (-32603) errorMessage)], Returned)
      else (sent, Returned)
    end
  end.

End MCPHandler.

(** ** Concrete requests and runtimes for the examples *)

(** Stand-ins for the runtime where an example needs one: a parser that
    accepts nothing and a digest that returns its input. *)
Definition noParse : JSString -> option JSValue := fun _ => None.
Definition plainDigest : JSString -> JSString := fun text => text.

Definition someToken : JSString := js "3f9c2a7e-41d8".

Definition requestWith (hs : list (string * HeaderValue)) : UpgradeRequest :=
  {| headers := list_to_map hs; url := js "/" |}.

(** A request with the key and the right credential, one with the key and
    a wrong credential, one with the key only, and one with no header. *)
Definition goodRequest : UpgradeRequest :=
  requestWith [("sec-websocket-key", HString (js "dGhlIHNhbXBsZSBub25jZQ=="));
               ("x-claude-code-ide-authorization", HString someToken)].

Definition wrongRequest : UpgradeRequest :=
  requestWith [("sec-websocket-key", HString (js "dGhlIHNhbXBsZSBub25jZQ=="));
               ("x-claude-code-ide-authorization", HString (js "guess"))].

Definition anonymousRequest : UpgradeRequest :=
  requestWith [("sec-websocket-key", HString (js "dGhlIHNhbXBsZSBub25jZQ=="))].

Definition bareRequest : UpgradeRequest := requestWith [].

(** A request with the key and an empty authorization header. *)
Definition emptyRequest : UpgradeRequest :=
  requestWith [("sec-websocket-key", HString (js "dGhlIHNhbXBsZSBub25jZQ=="));
               ("x-claude-code-ide-authorization", HString [])].

(** The credential is set, then ten clients connect. *)
Definition tenUpgrades : list Event :=
  CallSetAuthToken someToken :: map (Upgrade goodRequest) (seq 1 10).

Definition fullServer : Server := (run noParse plainDigest newServer tenUpgrades).1.

(** Text with apostrophes for the double quotes of JSON. *)
Definition dq (s : string) : JSString :=
  map (fun c => if c =? 0x27 then 0x22 else c) (js s).

(** The JSON text of [messageTooLarge]. *)
Definition messageTooLargeText : JSString :=
  dq "{'jsonrpc':'2.0','error':{'code':-32600,'message':'Message too large'}}".

(** A payload of one code unit more than the ceiling allows. *)
Definition oversizedText : JSString :=
  replicate (Z.to_nat (MAX_MESSAGE_SIZE + 1)) 0x61.

(** A host application with no active view and no file. *)
Definition idleApp : MCPHandler.App :=
  {| MCPHandler.getAbstractFileByPath := fun _ => None;
     MCPHandler.read := fun _ => inr (JString (js "unreachable"));
     MCPHandler.getActiveViewOfType := None |}.

(** An object literal with ASCII keys. *)
Definition jsonObject (props : list (string * JSValue)) : JSValue :=
  JObject (map (fun kv => (js kv.1, kv.2)) props).

(** ** The server seen from outside: liveness, locality, what is passed on *)

(** [!socket.destroyed && socket.writable], the guard of [sendMessage]
    and [broadcast]. *)
Definition live (srv : Server) (socket : SocketId) : bool :=
  negb (destroyed (flagsOf srv socket)) && writable (flagsOf srv socket).

(** The socket an effect is about. *)
Definition effectSocket (e : Effect) : SocketId :=
  match e with
  | SocketEnd socket _ | SocketWriteText socket _ | SocketWrite socket _
  | SocketDestroy socket | OnMessage _ socket | OnConnection socket => socket
  end.

(** The handlers other than the upgrade and the data handler leave the
    buffers and the credential alone. *)
Definition keepsStore (srv srv' : Server) : Prop :=
  buffers srv' = buffers srv /\ authToken srv' = authToken srv.

(** The messages the callback of the read handler passes to [onMessage]
    for payloads within the ceiling: one for every payload that parses,
    in order. *)
Definition dispatched (JSON_parse : JSString -> option JSValue)
    (socket : SocketId) (texts : list JSString) : list Effect :=
  omap (fun text => (fun m => OnMessage m socket) <$> JSON_parse text) texts.

(** The socket of an event of one socket; the timer and the calls of
    [broadcast], [setAuthToken] and [stop] concern all of them. *)
Definition eventSocket (e : Event) : option SocketId :=
  match e with
  | Upgrade _ socket | Data socket _ | Close socket | Error socket
  | CallSendMessage socket _ | Transport socket _ => Some socket
  | Tick | CallBroadcast _ | CallSetAuthToken _ | CallStop => None
  end.

(** Two states of the server that differ at most in what concerns
    [socket]: its membership in the set, its buffer, its flags. *)
Definition sameButFor (socket : SocketId) (srv srv' : Server) : Prop :=
  setDelete socket (connections srv') = setDelete socket (connections srv)
  /\ authToken srv' = authToken srv
  /\ (forall s, s <> socket ->
        buffers srv' !! s = buffers srv !! s /\ flagsOf srv' s = flagsOf srv s).

(** The handler did something to [socket] only. *)
Definition localTo (socket : SocketId) (srv : Server) (r : Server * list Effect)
  : Prop :=
  sameButFor socket srv r.1 /\ Forall (fun e => effectSocket e = socket) r.2.

(** ** The plugin between dispatcher and server *)

(** The callback the plugin gives the dispatcher,
    [this.webSocketServer.sendMessage.bind(this.webSocketServer)],
    applied to the calls a handler makes, in order. *)
Fixpoint deliver (srv : Server) (sent : list MCPHandler.Sent)
  : Server * list Effect :=
  match sent with
  | [] => (srv, [])
  | (socket, answer) :: rest =>
    let '(srv, effects) := sendMessage srv socket answer in
    let '(srv, effects') := deliver srv rest in
    (srv, effects ++ effects')
  end.

(** The answers a handler can give to a message: a result, or an error
    with one of the two codes the dispatcher uses, under the id of the
    message. *)
Inductive Answer (message : JSValue) (socket : SocketId) : MCPHandler.Sent -> Prop :=
  | answer_result result :
      Answer message socket
        (socket, MCPHandler.response (getPropOpt message (js "id")) result)
  | answer_error code text :
      code = -32601 \/ code = -32603 ->
      Answer message socket
        (socket, MCPHandler.errorResponse (getPropOpt message (js "id")) code text).

(** ** The values of the runtime *)

(** A string of the runtime is a sequence of 16-bit code units; the
    text of a number is ASCII. *)
Definition isCodeUnit (c : Z) : bool := (0 <=? c) && (c <=? 0xFFFF).

Definition isAscii (c : Z) : bool := (0 <=? c) && (c <? 128).

(** [Number.isSafeInteger(n)] *)
Definition isSafeInteger (n : Z) : bool :=
  (- (2 ^ 53 - 1) <=? n) && (n <=? 2 ^ 53 - 1).

(** The values of the runtime among the terms of [JSValue]: strings of
    code units, safe integers under [JNumber], the other numbers under
    [JFloat] with their text, objects with each key once. *)
Fixpoint isValue (v : JSValue) : bool :=
  match v with
  | JNumber n => isSafeInteger n
  | JFloat text => forallb isAscii text
  | JString s => forallb isCodeUnit s
  | JArray items => forallb isValue items
  | JObject props =>
    forallb (fun '(k, x) => forallb isCodeUnit k && isValue x) props
    && bool_decide (NoDup props.*1)
  | _ => true
  end.

(** ** [LockFileManager]: the credential *)

Module LockFileManager.

(** [buf.toString("hex")]: two lowercase digits for every byte. *)
Definition toHex (buf : Buffer) : JSString :=
  flat_map (fun b => [hexDigit (b2z b / 16); hexDigit (b2z b mod 16)]) buf.

(** [crypto.randomBytes(n)], against the bytes the generator is going to
    give: the call takes the next [n] of them. *)
Definition randomBytes (n : nat) (entropy : list byte) : Buffer * list byte :=
  (take n entropy, drop n entropy).

(** [createLockFile(port, workspacePath)], as far as the credential
    goes: the token it generates, stores and returns (the lock file it
    writes carries this token under [authToken]). *)
Definition createLockFile (entropy : list byte) : JSString * list byte :=
  let '(r1, entropy) := randomBytes 16 entropy in
  let '(r2, entropy) := randomBytes 2 entropy in
  let '(r3, entropy) := randomBytes 2 entropy in
  let '(r4, entropy) := randomBytes 2 entropy in
  let '(r5, entropy) := randomBytes 6 entropy in
  (toHex r1 ++ js "-" ++ toHex r2 ++ js "-" ++ toHex r3 ++ js "-" ++ toHex r4
     ++ js "-" ++ toHex r5,
   entropy).

(** A character of a token: a lowercase hexadecimal digit or a dash. *)
Definition isTokenChar (c : Z) : bool :=
  ((0x30 <=? c) && (c <=? 0x39)) || ((0x61 <=? c) && (c <=? 0x66)) || (c =? 0x2D).

End LockFileManager.

(** ** [ClaudeCodeBridge]: the plugin, where it tracks the active file *)

Module ClaudeCodeBridge.

(** [editor.getCursor()] and [editor.getSelection()] of the active
    markdown view. *)
Record Position := { line : Z; ch : Z }.

Record Editor := { getCursor : Position; getSelection : JSString }.

(** The fields the file tracking uses; [webSocketServer] is [null] until
    the bridge is initialized. *)
Record Plugin := {
  webSocketServer : option Server;
  currentFile : option JSString
}.

(** The notification [sendSelectionChanged] builds. *)
Definition selectionChangedMessage (editor : Editor) (filePath : JSString)
  : JSValue :=
  let cursor := getCursor editor in
  let selection := getSelection editor in
  jsonObject
    [("jsonrpc", JString (js "2.0"));
     ("method", JString (js "selection_changed"));
     ("params",
      jsonObject
        [("text", JString (if truthy (JString selection) then selection else []));
         ("filePath", JString filePath);
         ("fileUrl", JString (js "file://" ++ filePath));
         ("selection",
          jsonObject
            [("start",
              jsonObject [("line", JNumber (line cursor));
                          ("character", JNumber (ch cursor))]);
             ("end",
              jsonObject [("line", JNumber (line cursor));
                          ("character",
                           JNumber (ch cursor
                                    + (if slen selection =? 0 then 0
                                       else slen selection)))]);
             ("isEmpty",
              JBool (negb (truthy (JString selection))
                     || (slen selection =? 0)))])])].

(** [sendSelectionChanged(filePath)]; [activeView] is the editor of
    [getActiveViewOfType(MarkdownView)], if there is such a view. *)
Definition sendSelectionChanged (activeView : option Editor) (plugin : Plugin)
    (filePath : JSString) : Plugin * list Effect :=
  match activeView with
  | None => (plugin, [])
  | Some editor =>
    match webSocketServer plugin with
    | None => (plugin, [])
    | Some srv =>
      let '(srv, effects) :=
        broadcast srv (selectionChangedMessage editor filePath) in
      ({| webSocketServer := Some srv; currentFile := currentFile plugin |},
       effects)
    end
  end.

(** [handleFileChange(file)]; [file] is [file?.path]. *)
Definition handleFileChange (activeView : option Editor) (plugin : Plugin)
    (file : option JSString) : Plugin * list Effect :=
  let newFilePath :=
    match file with
    | Some (c :: path) => Some (c :: path)
    | _ => None
    end in
  if bool_decide (newFilePath <> currentFile plugin)
     && match webSocketServer plugin with
        | Some srv => size srv >? 0
        | None => false
        end
  then
    let plugin :=
      {| webSocketServer := webSocketServer plugin; currentFile := newFilePath |} in
    match newFilePath with
    | Some path => sendSelectionChanged activeView plugin path
    | None => (plugin, [])
    end
  else (plugin, []).

End ClaudeCodeBridge.

(** ** More concrete inputs for the examples *)

(** A text frame of a client, masked with the key [1 2 3 4], carrying "hi". *)
Definition maskedHi : WireFrame :=
  {| wf_first := z2b 0x81; wf_second := z2b 0x82;
     wf_extended := []; wf_maskKey := bytes [1; 2; 3; 4];
     wf_payload := unmask (Utf8.encode (js "hi")) (bytes [1; 2; 3; 4]) |}.

(** Upgrade requests arriving before any credential is set: one with the
    empty credential the server starts with, one with the key only, one
    with a guess. *)
Definition earlyUpgrades : list Event :=
  [Upgrade emptyRequest 1%nat; Upgrade anonymousRequest 2%nat;
   Upgrade wrongRequest 3%nat].

(** A vault with one note, and an editor with a selection. *)
Definition noteApp : MCPHandler.App :=
  {| MCPHandler.getAbstractFileByPath :=
       fun path => if strictEquals path (js "notes/today.md")
                   then Some {| MCPHandler.filePath := js "notes/today.md" |}
                   else None;
     MCPHandler.read := fun _ => inl (js "# Today");
     MCPHandler.getActiveViewOfType :=
       Some {| MCPHandler.getSelection := js "Today";
               MCPHandler.cursorLine := 0; MCPHandler.cursorCh := 7 |} |}.

Definition readRequest (id path : JSValue) : JSValue :=
  jsonObject [("jsonrpc", JString (js "2.0")); ("id", id);
              ("method", JString (js "files/read"));
              ("params", jsonObject [("path", path)])].

(** Twenty-eight bytes of a generator, and a request carrying the token
    made from them. *)
Definition someEntropy : list byte := map z2b (map Z.of_nat (seq 0 28)).

Definition tokenRequest : UpgradeRequest :=
  requestWith
    [("sec-websocket-key", HString (js "dGhlIHNhbXBsZSBub25jZQ=="));
     ("x-claude-code-ide-authorization",
      HString (LockFileManager.createLockFile someEntropy).1)].

(** Two clients are connected; then the transport of the second stops
    being writable without an event. *)
Definition twoClients : Server :=
  (run noParse plainDigest newServer
     [CallSetAuthToken someToken; Upgrade goodRequest 1%nat;
      Upgrade goodRequest 2%nat;
      Transport 2%nat {| destroyed := false; writable := false |}]).1.

(** A runtime whose parser knows the text [null] only. *)
Definition parseNull : JSString -> option JSValue :=
  fun text => if bool_decide (text = js "null") then Some JNull else None.

(** The frame [fr] with another first byte. *)
Definition withFirst (fr : WireFrame) (first : byte) : WireFrame :=
  {| wf_first := first; wf_second := wf_second fr;
     wf_extended := wf_extended fr; wf_maskKey := wf_maskKey fr;
     wf_payload := wf_payload fr |}.

(** A text frame with a payload of one byte more than the receive buffer
    may hold, and its header. *)
Definition bigPayloadStart : Buffer :=
  replicate (Z.to_nat MAX_BUFFER_SIZE) (z2b 0x61).

Definition bigHeader : Buffer :=
  [z2b 0x81; z2b 127] ++ be_bytes 8 (MAX_BUFFER_SIZE + 1).

Definition bigFrame : WireFrame :=
  {| wf_first := z2b 0x81; wf_second := z2b 127;
     wf_extended := be_bytes 8 (MAX_BUFFER_SIZE + 1); wf_maskKey := [];
     wf_payload := bigPayloadStart ++ [z2b 0x62] |}.

(** * Proofs *)

(** ** The codec on concrete inputs *)

Example frame_hi : createWebSocketFrame (js "hi") = bytes [0x81; 2; 104; 105].
Proof. reflexivity. Qed.

Example parse_hi :
  parseWebSocketFrames (createWebSocketFrame (js "hi")) [] =
  {| parsed := [js "hi"]; remaining := [] |}.
Proof. reflexivity. Qed.

Example parse_masked :
  parseWebSocketFrames (bytes [0x81; 0x82; 1; 2; 3; 4; 105; 107]) [] =
  {| parsed := [js "hi"]; remaining := [] |}.
Proof. reflexivity. Qed.

Example number_of_bigint :
  Number_of_BigInt (2 ^ 53 + 1) = 2 ^ 53
  /\ Number_of_BigInt (2 ^ 53 + 3) = 2 ^ 53 + 4
  /\ Number_of_BigInt (2 ^ 64 - 1) = 2 ^ 64
  /\ Number_of_BigInt 65536 = 65536.
Proof. repeat split. Qed.

(** A frame longer than the buffer holds so far: nothing is consumed. *)
Example parse_partial :
  parseWebSocketFrames (bytes [0x81; 5; 104; 101]) [] =
  {| parsed := []; remaining := bytes [0x81; 5; 104; 101] |}.
Proof. reflexivity. Qed.

(** A 16-bit length, a ping in between, and a masked frame. *)
Example parse_mixed :
  parseWebSocketFrames
    (bytes [0x81; 126; 0; 2; 104; 105] ++ bytes [0x89; 0]
     ++ bytes [0x81; 0x82; 1; 2; 3; 4; 105; 107] ++ bytes [0x81]) [] =
  {| parsed := [js "hi"; js "hi"]; remaining := bytes [0x81] |}.
Proof. reflexivity. Qed.

Example json_text :
  JSON_stringify
    (JObject [(js "a", JArray [JNumber (-12); JUndefined; JBool true; JNull]);
              (js "b", JUndefined);
              (js "c", JString [0x22; 0x5C; 0x0A; 0x01; 0xD800; 0xE9])]) =
  Some (dq "{'a':[-12,null,true,null],'c':'\'\\\n\u0001\ud800" ++ [0xE9]
        ++ dq "'}").
Proof. vm_compute. reflexivity. Qed.

Example parse_euro :
  parseWebSocketFrames (createWebSocketFrame [0x20AC; 0xD83D; 0xDE00; 0xE9]) [] =
  {| parsed := [[0x20AC; 0xD83D; 0xDE00; 0xE9]]; remaining := [] |}.
Proof. reflexivity. Qed.

(** ** Bytes and buffers *)

Lemma b2z_range (b : byte) : 0 <= b2z b < 256.
Proof.
  unfold b2z. pose proof (Byte.to_N_bounded b). lia.
Qed.

Lemma b2z_z2b (z : Z) : b2z (z2b z) = z mod 256.
Proof.
  unfold b2z, z2b.
  pose proof (Z.mod_pos_bound z 256 ltac:(lia)) as Hm.
  destruct (Byte.of_N (Z.to_N (z mod 256))) as [b|] eqn:E.
  - apply Byte.to_of_N in E. rewrite E. lia.
  - apply Byte.of_N_None_iff in E. lia.
Qed.

Lemma b2z_z2b_small (z : Z) : 0 <= z < 256 -> b2z (z2b z) = z.
Proof. intros H. rewrite b2z_z2b. apply Z.mod_small, H. Qed.

Lemma z2b_b2z (b : byte) : z2b (b2z b) = b.
Proof.
  unfold z2b, b2z. pose proof (Byte.to_N_bounded b).
  rewrite Z.mod_small by lia. rewrite N2Z.id, Byte.of_to_N. reflexivity.
Qed.

Lemma blen_app (a b : Buffer) : blen (a ++ b) = blen a + blen b.
Proof. unfold blen. rewrite length_app. lia. Qed.

Lemma blen_cons (x : byte) (b : Buffer) : blen (x :: b) = 1 + blen b.
Proof. unfold blen. simpl length. lia. Qed.

Lemma blen_nil : blen [] = 0.
Proof. reflexivity. Qed.

Lemma blen_nonneg (b : Buffer) : 0 <= blen b.
Proof. unfold blen. lia. Qed.

(** Reading inside the middle part of a buffer. *)
Lemma byte_at_middle (a c : Buffer) (x : byte) (i : Z) :
  i = blen a -> byte_at (a ++ x :: c) i = b2z x.
Proof.
  intros ->. unfold byte_at, blen. rewrite Nat2Z.id.
  rewrite nth_middle. reflexivity.
Qed.

Lemma subarray_middle (a m c : Buffer) (i j : Z) :
  i = blen a -> j = blen a + blen m -> subarray (a ++ m ++ c) i j = m.
Proof.
  intros -> ->. unfold subarray, blen.
  replace (Z.to_nat (Z.of_nat (length a) + Z.of_nat (length m) - Z.of_nat (length a)))
    with (length m) by lia.
  rewrite Nat2Z.id, drop_app_length, take_app_length. reflexivity.
Qed.

(** A subarray is cut at any point in between. *)
Lemma subarray_split (buf : Buffer) (i j k : Z) :
  0 <= i <= j -> j <= k ->
  subarray buf i k = subarray buf i j ++ subarray buf j k.
Proof.
  intros Hij Hjk. unfold subarray.
  replace (Z.to_nat (k - i)) with (Z.to_nat (j - i) + Z.to_nat (k - j))%nat by lia.
  rewrite <- take_take_drop. f_equal. rewrite drop_drop. do 2 f_equal. lia.
Qed.

Lemma subarray_length (buf : Buffer) (i j : Z) :
  0 <= i <= j -> j <= blen buf -> blen (subarray buf i j) = j - i.
Proof.
  unfold subarray, blen. intros Hij Hj.
  rewrite length_take, length_drop. lia.
Qed.

Lemma subarray_one (buf : Buffer) (i : Z) :
  0 <= i < blen buf ->
  subarray buf i (i + 1) = [nth (Z.to_nat i) buf x00].
Proof.
  unfold subarray, blen. intros Hi.
  replace (Z.to_nat (i + 1 - i)) with 1%nat by lia.
  assert (Hlt : (Z.to_nat i < length buf)%nat) by lia.
  revert Hlt. generalize (Z.to_nat i). clear Hi.
  induction buf as [|x buf IH]; intros [|n] Hn; simpl in *; try lia.
  - rewrite take_0. reflexivity.
  - apply IH. lia.
Qed.

Lemma subarray_take_drop (buf : Buffer) (j : Z) :
  0 <= j -> subarray buf 0 j ++ subarray_from buf j = buf.
Proof.
  intros Hj. unfold subarray, subarray_from. simpl. rewrite drop_0.
  rewrite Z.sub_0_r. apply take_drop.
Qed.

Lemma subarray_empty (buf : Buffer) (i : Z) : subarray buf i i = [].
Proof. unfold subarray. rewrite Z.sub_diag. apply take_0. Qed.

(** Big-endian values. *)
Lemma be_value_from (buf : Buffer) (acc : Z) :
  fold_left (fun a b => a * 256 + b2z b) buf acc =
  acc * 256 ^ blen buf + be_value buf.
Proof.
  unfold be_value. revert acc.
  induction buf as [|x buf IH]; intros acc.
  - simpl. rewrite blen_nil. lia.
  - simpl fold_left. rewrite IH, (IH (0 * 256 + b2z x)), blen_cons.
    rewrite Z.pow_add_r by (pose proof (blen_nonneg buf); lia). lia.
Qed.

Lemma be_value_cons (x : byte) (buf : Buffer) :
  be_value (x :: buf) = b2z x * 256 ^ blen buf + be_value buf.
Proof.
  unfold be_value at 1. simpl fold_left. rewrite be_value_from. lia.
Qed.

Lemma be_value_bounds (buf : Buffer) : 0 <= be_value buf < 256 ^ blen buf.
Proof.
  induction buf as [|x buf IH].
  - compute. split; [discriminate | reflexivity].
  - rewrite be_value_cons, blen_cons.
    pose proof (b2z_range x). pose proof (blen_nonneg buf).
    rewrite Z.pow_add_r by lia. nia.
Qed.

Lemma be_bytes_length (n : nat) (v : Z) : blen (be_bytes n v) = Z.of_nat n.
Proof.
  induction n as [|n IH]; [reflexivity|].
  simpl be_bytes. rewrite blen_cons, IH. lia.
Qed.

Lemma be_value_bytes (n : nat) (v : Z) :
  0 <= v -> be_value (be_bytes n v) = v mod 256 ^ Z.of_nat n.
Proof.
  intros Hv. induction n as [|n IH].
  - simpl. rewrite Z.mod_1_r. reflexivity.
  - simpl be_bytes. rewrite be_value_cons, be_bytes_length, IH, b2z_z2b.
    rewrite Nat2Z.inj_succ, Z.pow_succ_r by lia.
    set (p := 256 ^ Z.of_nat n).
    assert (Hp : 0 < p) by (apply Z.pow_pos_nonneg; lia).
    rewrite (Z.mul_comm 256 p).
    rewrite (Z.rem_mul_r v p 256) by lia. lia.
Qed.

Lemma Number_exact (n : Z) : n < 2 ^ 53 -> Number_of_BigInt n = n.
Proof.
  intros H. unfold Number_of_BigInt.
  destruct (Z.ltb_spec n (2 ^ 53)); [reflexivity | lia].
Qed.

Lemma Number_nonneg (n : Z) : 0 <= n -> 0 <= Number_of_BigInt n.
Proof.
  intros Hn. unfold Number_of_BigInt.
  destruct (Z.ltb_spec n (2 ^ 53)) as [|Hbig]; [lia|].
  set (e := Z.log2 n - 52).
  assert (Hq : 0 <= n / 2 ^ e) by (apply Z.div_pos; [lia | apply Z.pow_pos_nonneg; [lia|]];
    subst e; assert (52 <= Z.log2 n) by (apply Z.log2_le_pow2; lia); lia).
  assert (Hp : 0 <= 2 ^ e) by (apply Z.pow_nonneg; lia).
  repeat match goal with |- context [if ?c then _ else _] => destruct c end; nia.
Qed.

(** ** One turn of the decoder against the wire layout *)

Ltac blen_simpl :=
  repeat rewrite ?blen_app, ?blen_cons, ?blen_nil in *.

Ltac blen_known b :=
  lazymatch goal with
  | _ : 0 <= blen b |- _ => fail
  | _ => pose proof (blen_nonneg b)
  end.

Ltac blen_lia :=
  blen_simpl;
  repeat match goal with
         | |- context [blen ?b] => blen_known b
         | _ : context [blen ?b] |- _ => blen_known b
         end;
  lia.

Lemma wire_length (fr : WireFrame) :
  blen (wire fr) =
  2 + blen (wf_extended fr) + blen (wf_maskKey fr) + blen (wf_payload fr).
Proof. unfold wire. blen_lia. Qed.

(** A well-framed frame laid anywhere in a buffer is read whole: the turn
    ends just behind its payload and yields its text. *)
Lemma frame_at (pre post : Buffer) (fr : WireFrame) :
  wellFramed fr ->
  parseFrameAt (pre ++ wire fr ++ post) (blen pre) =
  Next (blen pre + blen (wire fr)) (wf_text fr).
Proof.
  destruct fr as [f s ext key payload].
  unfold wellFramed, wf_declared, wf_length7, wf_masked, wf_text, wf_opcode.
  rewrite wire_length. unfold wire. cbn [wf_first wf_second wf_extended
    wf_maskKey wf_payload].
  intros (Hext & Hkey & Hpay).
  set (buf := pre ++ ([f; s] ++ ext ++ key ++ payload) ++ post).
  assert (Hlen : blen buf = blen pre + 2 + blen ext + blen key + blen payload + blen post)
    by (subst buf; blen_lia).
  assert (Hf : byte_at buf (blen pre) = b2z f).
  { subst buf. cbn [app]. apply byte_at_middle. reflexivity. }
  assert (Hs : byte_at buf (blen pre + 1) = b2z s).
  { subst buf. cbn [app].
    replace (pre ++ f :: s :: (ext ++ key ++ payload) ++ post)
      with ((pre ++ [f]) ++ s :: (ext ++ key ++ payload) ++ post)
      by (rewrite <- app_assoc; reflexivity).
    apply byte_at_middle. blen_lia. }
  assert (Hx : subarray buf (blen pre + 2) (blen pre + 2 + blen ext) = ext).
  { subst buf.
    replace (pre ++ ([f; s] ++ ext ++ key ++ payload) ++ post)
      with ((pre ++ [f; s]) ++ ext ++ (key ++ payload ++ post))
      by (rewrite <- !app_assoc; reflexivity).
    apply subarray_middle; blen_lia. }
  assert (Hk : subarray buf (blen pre + 2 + blen ext)
                 (blen pre + 2 + blen ext + blen key) = key).
  { subst buf.
    replace (pre ++ ([f; s] ++ ext ++ key ++ payload) ++ post)
      with ((pre ++ [f; s] ++ ext) ++ key ++ (payload ++ post))
      by (rewrite <- !app_assoc; reflexivity).
    apply subarray_middle; blen_lia. }
  assert (Hp : subarray buf (blen pre + 2 + blen ext + blen key)
                 (blen pre + 2 + blen ext + blen key + blen payload) = payload).
  { subst buf.
    replace (pre ++ ([f; s] ++ ext ++ key ++ payload) ++ post)
      with ((pre ++ [f; s] ++ ext ++ key) ++ payload ++ post)
      by (rewrite <- !app_assoc; reflexivity).
    apply subarray_middle; blen_lia. }
  clearbody buf.
  pose proof (blen_nonneg pre). pose proof (blen_nonneg post).
  pose proof (blen_nonneg payload). pose proof (blen_nonneg ext).
  pose proof (blen_nonneg key).
  unfold parseFrameAt. rewrite Hf, Hs.
  destruct (Z.gtb_spec (blen pre + 2) (blen buf)) as [Hgt|_];
    [pose proof (blen_nonneg ext); pose proof (blen_nonneg key); lia|].
  unfold extendedLength, readUInt16BE, readBigUInt64BE.
  assert (Hrm : forall po, po = blen pre + 2 + blen ext ->
    readMask buf (Z.land (b2z s) 128 =? 128) po =
    Some (if Z.land (b2z s) 128 =? 128 then Some key else None, po + blen key)).
  { intros po ->. unfold readMask.
    destruct (Z.land (b2z s) 128 =? 128).
    - destruct (Z.gtb_spec (blen pre + 2 + blen ext + 4) (blen buf)); [lia|].
      rewrite Hkey. rewrite <- Hkey at 1. rewrite Hk. reflexivity.
    - rewrite Hkey, Z.add_0_r. reflexivity. }
  assert (Hfin : forall pl po, pl = blen payload ->
    po = blen pre + 2 + blen ext + blen key ->
    (if po + pl >? blen buf then Break
     else Next (po + pl)
            (if Z.land (b2z f) 15 =? 1
             then Some (Utf8.decode
                          match (if Z.land (b2z s) 128 =? 128 then Some key else None) with
                          | Some k => unmask (subarray buf po (po + pl)) k
                          | None => subarray buf po (po + pl)
                          end)
             else None)) =
    Next (blen pre + (2 + blen ext + blen key + blen payload))
      (if Z.land (b2z f) 15 =? 1
       then Some (Utf8.decode (if Z.land (b2z s) 128 =? 128
                               then unmask payload key else payload))
       else None)).
  { intros pl po -> ->.
    destruct (Z.gtb_spec (blen pre + 2 + blen ext + blen key + blen payload) (blen buf));
      [lia|].
    rewrite Hp. f_equal; [lia|].
    destruct (Z.land (b2z s) 128 =? 128); reflexivity. }
  revert Hext Hpay Hx Hk Hp Hrm Hfin Hlen.
  destruct (Z.eqb_spec (Z.land (b2z s) 127) 126) as [E126|N126];
    [|destruct (Z.eqb_spec (Z.land (b2z s) 127) 127) as [E127|N127]];
    intros Hext Hpay Hx Hk Hp Hrm Hfin Hlen.
  - replace (blen pre + 2 + 2) with (blen pre + 2 + blen ext) by lia.
    destruct (Z.gtb_spec (blen pre + 2 + blen ext) (blen buf)); [lia|].
    rewrite Hx, (Hrm _ eq_refl). apply Hfin; lia.
  - replace (blen pre + 2 + 8) with (blen pre + 2 + blen ext) by lia.
    destruct (Z.gtb_spec (blen pre + 2 + blen ext) (blen buf)); [lia|].
    rewrite Hx, (Hrm _ eq_refl). apply Hfin; lia.
  - rewrite (Hrm (blen pre + 2)) by lia.
    apply Hfin; lia.
Qed.

Lemma extendedLength_inv (buf : Buffer) (l7 po pl po1 : Z) :
  0 <= l7 -> po <= blen buf ->
  extendedLength buf l7 po = Some (pl, po1) ->
  po1 = po + (if l7 =? 126 then 2 else if l7 =? 127 then 8 else 0)
  /\ po1 <= blen buf
  /\ 0 <= pl
  /\ pl = (if l7 =? 126 then be_value (subarray buf po po1)
           else if l7 =? 127 then Number_of_BigInt (be_value (subarray buf po po1))
           else l7).
Proof.
  intros Hl7 Hpo. unfold extendedLength, readUInt16BE, readBigUInt64BE.
  destruct (Z.eqb_spec l7 126); [|destruct (Z.eqb_spec l7 127)].
  - destruct (Z.gtb_spec (po + 2) (blen buf)); [discriminate|].
    intros [= <- <-]. repeat split; try lia.
    apply be_value_bounds.
  - destruct (Z.gtb_spec (po + 8) (blen buf)); [discriminate|].
    intros [= <- <-]. repeat split; try lia.
    apply Number_nonneg, be_value_bounds.
  - intros [= <- <-]. repeat split; lia.
Qed.

Lemma readMask_inv (buf : Buffer) (masked : bool) (po : Z) mk (po2 : Z) :
  po <= blen buf ->
  readMask buf masked po = Some (mk, po2) ->
  po2 = po + (if masked then 4 else 0)
  /\ po2 <= blen buf
  /\ mk = (if masked then Some (subarray buf po po2) else None).
Proof.
  intros Hpo. unfold readMask. destruct masked.
  - destruct (Z.gtb_spec (po + 4) (blen buf)); [discriminate|].
    intros [= <- <-]. repeat split; lia.
  - intros [= <- <-]. repeat split; lia.
Qed.

(** Conversely, a turn that does not break has read one well-framed
    frame: the bytes between the old and the new offset. *)
Lemma turn_frame (buf : Buffer) (off off' : Z) (m : option JSString) :
  0 <= off ->
  parseFrameAt buf off = Next off' m ->
  exists fr, wellFramed fr /\ subarray buf off off' = wire fr
             /\ m = wf_text fr /\ off' <= blen buf.
Proof.
  intros Hoff H. unfold parseFrameAt in H.
  destruct (Z.gtb_spec (off + 2) (blen buf)) as [|Hhdr]; [discriminate|].
  destruct (extendedLength _ _ _) as [[pl po1]|] eqn:Eext; [|discriminate].
  destruct (readMask _ _ _) as [[mk po2]|] eqn:Emask; [|discriminate].
  destruct (Z.gtb_spec (po2 + pl) (blen buf)) as [|Hfit]; [discriminate|].
  injection H as <- <-.
  apply extendedLength_inv in Eext as (Hpo1 & Hpo1le & Hpl & Hplv);
    [|apply Z.land_nonneg; right; lia|lia].
  apply readMask_inv in Emask as (Hpo2 & Hpo2le & Hmk); [|lia].
  set (f := nth (Z.to_nat off) buf x00) in *.
  set (s := nth (Z.to_nat (off + 1)) buf x00) in *.
  assert (Hbf : byte_at buf off = b2z f) by reflexivity.
  assert (Hbs : byte_at buf (off + 1) = b2z s) by reflexivity.
  rewrite Hbf, Hbs in *. clear Hbf Hbs.
  assert (Hk1 : 0 <= po1 - (off + 2))
    by (rewrite Hpo1; destruct (Z.land (b2z s) 127 =? 126);
        [|destruct (Z.land (b2z s) 127 =? 127)]; lia).
  assert (Hk2 : 0 <= po2 - po1)
    by (rewrite Hpo2; destruct (Z.land (b2z s) 128 =? 128); lia).
  exists {| wf_first := f; wf_second := s;
            wf_extended := subarray buf (off + 2) po1;
            wf_maskKey := subarray buf po1 po2;
            wf_payload := subarray buf po2 (po2 + pl) |}.
  split; [|split; [|split]].
  - unfold wellFramed, wf_declared, wf_length7, wf_masked.
    cbn [wf_first wf_second wf_extended wf_maskKey wf_payload].
    rewrite !subarray_length by lia.
    repeat split; [lia | lia |].
    rewrite <- Hplv. lia.
  - unfold wire. cbn [wf_first wf_second wf_extended wf_maskKey wf_payload].
    rewrite (subarray_split buf off (off + 1) (po2 + pl)) by lia.
    rewrite (subarray_split buf (off + 1) (off + 1 + 1) (po2 + pl)) by lia.
    rewrite !subarray_one by lia.
    replace (off + 1 + 1) with (off + 2) by lia.
    rewrite (subarray_split buf (off + 2) po1 (po2 + pl)) by lia.
    rewrite (subarray_split buf po1 po2 (po2 + pl)) by lia.
    reflexivity.
  - unfold wf_text, wf_opcode, wf_masked.
    cbn [wf_first wf_second wf_extended wf_maskKey wf_payload].
    rewrite Hmk. destruct (Z.land (b2z s) 128 =? 128); reflexivity.
  - lia.
Qed.

(** A turn moves the offset forward, by the two header bytes at least. *)
Lemma turn_advance (buf : Buffer) (off off' : Z) (m : option JSString) :
  0 <= off -> parseFrameAt buf off = Next off' m ->
  off + 2 <= off' <= blen buf.
Proof.
  intros Hoff H. destruct (turn_frame _ _ _ _ Hoff H) as (fr & Hwf & Hw & _ & Hle).
  assert (Hlen : blen (subarray buf off off') = blen (wire fr)) by (rewrite Hw; reflexivity).
  rewrite wire_length in Hlen.
  pose proof (blen_nonneg (wf_extended fr)). pose proof (blen_nonneg (wf_maskKey fr)).
  pose proof (blen_nonneg (wf_payload fr)).
  destruct (Z.le_gt_cases off off') as [Hle'|Hgt].
  - rewrite subarray_length in Hlen by lia. lia.
  - unfold subarray in Hlen. replace (Z.to_nat (off' - off)) with 0%nat in Hlen by lia.
    rewrite take_0, blen_nil in Hlen. lia.
Qed.

(** ** The loop *)

(** The bounded loop is the [while] loop: with the fuel
    [parseWebSocketFrames] gives it, it never stops for lack of fuel. *)
Lemma parseLoop_run (fuel : nat) (buf : Buffer) (off : Z) (msgs : list JSString) :
  0 <= off -> blen buf - off <= Z.of_nat fuel ->
  loopRun buf off msgs (parseLoop fuel buf off msgs).
Proof.
  revert off msgs. induction fuel as [|fuel IH]; intros off msgs Hoff Hfuel.
  - simpl. apply run_end. lia.
  - simpl. destruct (Z.ltb_spec off (blen buf)) as [Hlt|Hge].
    + destruct (parseFrameAt buf off) as [|off' m] eqn:E.
      * apply run_break; assumption.
      * pose proof (turn_advance _ _ _ _ Hoff E).
        eapply run_next; [assumption | exact E |]. apply IH; lia.
    + apply run_end. lia.
Qed.

Lemma loopRun_fun (buf : Buffer) (off : Z) (msgs : list JSString) r1 r2 :
  loopRun buf off msgs r1 -> loopRun buf off msgs r2 -> r1 = r2.
Proof.
  intros H1. revert r2.
  induction H1 as [off msgs Hge|off msgs Hlt Hbr|off msgs off' m r Hlt Hnx _ IH];
    intros r2 H2; inversion H2; subst; try reflexivity; try lia; try congruence.
  apply IH. congruence.
Qed.

Lemma parse_of_run (data existing : Buffer) (msgs : list JSString) (off : Z) :
  loopRun (existing ++ data) 0 [] (msgs, off) ->
  parseWebSocketFrames data existing =
  {| parsed := msgs; remaining := subarray_from (existing ++ data) off |}.
Proof.
  intros Hrun. unfold parseWebSocketFrames.
  pose proof (parseLoop_run (length (existing ++ data)) (existing ++ data) 0 []
                ltac:(lia) ltac:(unfold blen; lia)) as Hloop.
  rewrite (loopRun_fun _ _ _ _ _ Hloop Hrun). reflexivity.
Qed.

(** The frames a run has read: they tile the buffer between the two
    offsets, and the messages pushed are their texts, in order. *)
Lemma loopRun_frames (buf : Buffer) (off : Z) (msgs : list JSString) r :
  loopRun buf off msgs r -> 0 <= off <= blen buf ->
  exists frames,
    Forall wellFramed frames
    /\ subarray buf off (snd r) = concat (map wire frames)
    /\ fst r = msgs ++ texts frames
    /\ off <= snd r <= blen buf.
Proof.
  induction 1 as [off msgs Hge|off msgs Hlt Hbr|off msgs off' m r Hlt Hnx _ IH];
    intros Hoff.
  - exists []. cbn [fst snd]. rewrite subarray_empty, app_nil_r.
    repeat split; [constructor | lia | lia].
  - exists []. cbn [fst snd]. rewrite subarray_empty, app_nil_r.
    repeat split; [constructor | lia | lia].
  - pose proof (turn_advance _ _ _ _ (proj1 Hoff) Hnx) as Hadv.
    destruct (turn_frame _ _ _ _ (proj1 Hoff) Hnx) as (fr & Hwf & Hw & Hm & _).
    destruct (IH ltac:(lia)) as (frames & Hall & Htile & Hmsgs & Hle).
    exists (fr :: frames). repeat split; try lia.
    + constructor; assumption.
    + rewrite (subarray_split buf off off' (snd r)) by lia.
      rewrite Hw, Htile. reflexivity.
    + rewrite Hmsgs. unfold texts. cbn [omap list_omap]. rewrite <- Hm.
      destruct m; cbn [push]; [rewrite <- app_assoc|]; reflexivity.
Qed.

(** The offset at which the loop of [parseWebSocketFrames] stops. *)
Lemma parse_offset (data existing : Buffer) :
  exists off,
    0 <= off <= blen (existing ++ data)
    /\ loopRun (existing ++ data) 0 [] (parsed (parseWebSocketFrames data existing), off)
    /\ remaining (parseWebSocketFrames data existing) =
       subarray_from (existing ++ data) off.
Proof.
  unfold parseWebSocketFrames.
  pose proof (parseLoop_run (length (existing ++ data)) (existing ++ data) 0 []
                ltac:(lia) ltac:(unfold blen; lia)) as Hloop.
  destruct (parseLoop _ _ _ _) as [msgs off] eqn:E. cbn [parsed remaining].
  destruct (loopRun_frames _ _ _ _ Hloop) as (_ & _ & _ & _ & Hoff);
    [pose proof (blen_nonneg (existing ++ data)); lia|].
  cbn [snd] in Hoff. exists off. repeat split; [lia | lia | exact Hloop].
Qed.

(** ** Frames followed by more input *)

Lemma push_app (init msgs : list JSString) (m : option JSString) :
  push (init ++ msgs) m = init ++ push msgs m.
Proof. destruct m; cbn [push]; [rewrite <- app_assoc|]; reflexivity. Qed.

(** The messages already collected do not influence a run. *)
Lemma run_with_prefix (buf : Buffer) (off : Z) (msgs : list JSString) r
    (init : list JSString) :
  loopRun buf off msgs r -> loopRun buf off (init ++ msgs) (init ++ fst r, snd r).
Proof.
  induction 1 as [off msgs Hge|off msgs Hlt Hbr|off msgs off' m r Hlt Hnx _ IH].
  - apply run_end. assumption.
  - apply run_break; assumption.
  - eapply run_next; [assumption | exact Hnx |]. rewrite push_app. exact IH.
Qed.

Lemma subarray_shift (pre buf : Buffer) (a b : Z) :
  0 <= a -> subarray (pre ++ buf) (blen pre + a) (blen pre + b) = subarray buf a b.
Proof.
  intros Ha. unfold subarray, blen.
  replace (Z.to_nat (Z.of_nat (length pre) + a)) with (length pre + Z.to_nat a)%nat by lia.
  rewrite <- drop_drop, drop_app_length. do 2 f_equal. lia.
Qed.

Lemma buffer_cut (buf : Buffer) (i j : Z) :
  0 <= i <= j ->
  buf = subarray buf 0 i ++ subarray buf i j ++ subarray_from buf j.
Proof.
  intros Hij. rewrite app_assoc, <- subarray_split by lia.
  symmetry. apply subarray_take_drop. lia.
Qed.

(** A well-framed frame found at an offset is what the turn reads. *)
Lemma turn_locate (buf : Buffer) (off : Z) (fr : WireFrame) :
  0 <= off -> wellFramed fr ->
  off + blen (wire fr) <= blen buf ->
  subarray buf off (off + blen (wire fr)) = wire fr ->
  parseFrameAt buf off = Next (off + blen (wire fr)) (wf_text fr).
Proof.
  intros Hoff Hwf Hle Hsub.
  pose proof (blen_nonneg (wire fr)).
  assert (Hpre : blen (subarray buf 0 off) = off)
    by (rewrite subarray_length; lia).
  assert (Hbuf : buf = subarray buf 0 off ++ wire fr
                       ++ subarray_from buf (off + blen (wire fr))).
  { rewrite <- Hsub at 1. apply buffer_cut. lia. }
  revert Hpre Hbuf.
  generalize (subarray buf 0 off), (subarray_from buf (off + blen (wire fr))).
  intros pre post <- ->. apply frame_at. exact Hwf.
Qed.

Lemma turn_extend (buf post : Buffer) (off off' : Z) (m : option JSString) :
  0 <= off -> parseFrameAt buf off = Next off' m ->
  parseFrameAt (buf ++ post) off = Next off' m.
Proof.
  intros Hoff H.
  pose proof (turn_advance _ _ _ _ Hoff H) as Hadv.
  destruct (turn_frame _ _ _ _ Hoff H) as (fr & Hwf & Hw & -> & Hle).
  assert (Hlen : off' = off + blen (wire fr)).
  { rewrite <- Hw, subarray_length; lia. }
  rewrite Hlen. apply turn_locate; try assumption.
  - blen_lia.
  - rewrite <- Hlen, <- Hw. unfold subarray, blen in *.
    rewrite drop_app_le by lia. rewrite take_app_le; [reflexivity|].
    rewrite length_drop. lia.
Qed.

Lemma turn_shift_next (pre buf : Buffer) (off off' : Z) (m : option JSString) :
  0 <= off -> parseFrameAt buf off = Next off' m ->
  parseFrameAt (pre ++ buf) (blen pre + off) = Next (blen pre + off') m.
Proof.
  intros Hoff H.
  pose proof (turn_advance _ _ _ _ Hoff H) as Hadv.
  destruct (turn_frame _ _ _ _ Hoff H) as (fr & Hwf & Hw & -> & Hle).
  assert (Hlen : off' = off + blen (wire fr)).
  { rewrite <- Hw, subarray_length; lia. }
  pose proof (blen_nonneg pre).
  replace (blen pre + off') with (blen pre + off + blen (wire fr)) by lia.
  apply turn_locate; try assumption; try lia.
  - blen_lia.
  - replace (blen pre + off + blen (wire fr)) with (blen pre + off') by lia.
    rewrite subarray_shift by lia. exact Hw.
Qed.

Lemma turn_shift_break (pre buf : Buffer) (off : Z) :
  0 <= off -> parseFrameAt buf off = Break ->
  parseFrameAt (pre ++ buf) (blen pre + off) = Break.
Proof.
  intros Hoff H.
  pose proof (blen_nonneg pre).
  destruct (parseFrameAt (pre ++ buf) (blen pre + off)) as [|o m] eqn:E;
    [reflexivity|exfalso].
  assert (Hpo : 0 <= blen pre + off) by lia.
  pose proof (turn_advance _ _ _ _ Hpo E) as Hadv.
  destruct (turn_frame _ _ _ _ Hpo E) as (fr & Hwf & Hw & -> & Hle).
  replace o with (blen pre + (o - blen pre)) in Hw by lia.
  rewrite subarray_shift in Hw by lia.
  assert (Hlen : o - blen pre = off + blen (wire fr)).
  { rewrite <- Hw, subarray_length; [lia | lia |]. revert Hle. blen_lia. }
  rewrite Hlen in Hw.
  rewrite (turn_locate buf off fr Hoff Hwf) in H; [discriminate| |exact Hw].
  revert Hle. blen_lia.
Qed.

Lemma run_shift (pre buf : Buffer) (off : Z) (msgs : list JSString) r :
  loopRun buf off msgs r -> 0 <= off ->
  loopRun (pre ++ buf) (blen pre + off) msgs (fst r, blen pre + snd r).
Proof.
  induction 1 as [off msgs Hge|off msgs Hlt Hbr|off msgs off' m r Hlt Hnx _ IH];
    intros Hoff; cbn [fst snd].
  - apply run_end. blen_lia.
  - apply run_break; [blen_lia|]. apply turn_shift_break; assumption.
  - pose proof (turn_advance _ _ _ _ Hoff Hnx).
    eapply run_next; [blen_lia | apply turn_shift_next; eassumption |].
    apply IH. lia.
Qed.

(** Decoding a well-framed frame followed by more input: its text, if it
    has one, then whatever the rest decodes to. *)
Lemma frame_then_rest (fr : WireFrame) (post : Buffer) :
  wellFramed fr ->
  parseWebSocketFrames (wire fr ++ post) [] =
  {| parsed := option_list (wf_text fr) ++ parsed (parseWebSocketFrames post []);
     remaining := remaining (parseWebSocketFrames post []) |}.
Proof.
  intros Hwf.
  destruct (parse_offset post []) as (o & Ho & Hrest & Hrem). cbn [app] in *.
  rewrite Hrem. generalize dependent (parsed (parseWebSocketFrames post [])).
  intros msgs Hrest.
  apply (run_shift (wire fr)) in Hrest; [|lia]. cbn [fst snd] in Hrest.
  apply (run_with_prefix _ _ _ _ (option_list (wf_text fr))) in Hrest.
  cbn [fst snd] in Hrest. rewrite app_nil_r, Z.add_0_r in Hrest.
  pose proof (frame_at [] post fr Hwf) as Hturn. cbn [app] in Hturn.
  rewrite blen_nil, Z.add_0_l in Hturn.
  assert (Hrun : loopRun ([] ++ wire fr ++ post) 0 []
                   (option_list (wf_text fr) ++ msgs, blen (wire fr) + o)).
  { cbn [app]. eapply run_next; [|exact Hturn|].
    - rewrite blen_app, wire_length. blen_lia.
    - destruct (wf_text fr); exact Hrest. }
  rewrite (parse_of_run _ _ _ _ Hrun). f_equal. cbn [app].
  unfold subarray_from, blen.
  replace (Z.to_nat (Z.of_nat (length (wire fr)) + o))
    with (length (wire fr) + Z.to_nat o)%nat by lia.
  rewrite <- drop_drop, drop_app_length. reflexivity.
Qed.

Lemma frames_then_rest (frames : list WireFrame) (post : Buffer) :
  Forall wellFramed frames ->
  parseWebSocketFrames (concat (map wire frames) ++ post) [] =
  {| parsed := texts frames ++ parsed (parseWebSocketFrames post []);
     remaining := remaining (parseWebSocketFrames post []) |}.
Proof.
  induction 1 as [|fr frames Hwf _ IH].
  - cbn. destruct (parseWebSocketFrames post []); reflexivity.
  - cbn [map concat]. rewrite <- app_assoc, (frame_then_rest fr _ Hwf), IH.
    cbn [parsed remaining]. unfold texts. cbn [omap list_omap].
    destruct (wf_text fr); cbn [option_list]; reflexivity.
Qed.

(** A turn that needs bytes beyond a chunk breaks on the chunk alone. *)
Lemma turn_truncate (c1 c2 : Buffer) (off o : Z) (m : option JSString) :
  0 <= off -> parseFrameAt (c1 ++ c2) off = Next o m -> blen c1 < o ->
  parseFrameAt c1 off = Break.
Proof.
  intros Hoff H Hlt.
  destruct (parseFrameAt c1 off) as [|o' m'] eqn:E; [reflexivity|exfalso].
  pose proof (turn_advance _ _ _ _ Hoff E) as Hadv.
  apply (turn_extend _ c2) in E; [|assumption].
  rewrite E in H. injection H as -> _. lia.
Qed.

(** ** The frame the encoder writes *)

Lemma land_header_length (n : Z) :
  0 <= n < 128 -> Z.land n 0x80 = 0 /\ Z.land n 0x7f = n.
Proof.
  intros H. replace n with (Z.of_nat (Z.to_nat n)) by lia.
  assert (Hk : (Z.to_nat n < 128)%nat) by lia.
  revert Hk. generalize (Z.to_nat n). clear. intros k Hk.
  do 128 (destruct k as [|k]; [split; reflexivity|]). lia.
Qed.

Lemma createWebSocketFrame_wire (data : JSString) :
  createWebSocketFrame data = wire (encodedFrame data).
Proof.
  unfold createWebSocketFrame, encodedFrame, wire.
  cbn [wf_first wf_second wf_extended wf_maskKey wf_payload].
  destruct (blen (Utf8.encode data) <? 126);
    [|destruct (blen (Utf8.encode data) <? 65536)]; reflexivity.
Qed.

Lemma encodedFrame_header (data : JSString) :
  wf_opcode (encodedFrame data) = 1
  /\ wf_masked (encodedFrame data) = false
  /\ wf_length7 (encodedFrame data) =
     (if blen (Utf8.encode data) <? 126 then blen (Utf8.encode data)
      else if blen (Utf8.encode data) <? 65536 then 126 else 127).
Proof.
  unfold wf_opcode, wf_masked, wf_length7, encodedFrame.
  cbn [wf_first wf_second]. set (n := blen (Utf8.encode data)).
  pose proof (blen_nonneg (Utf8.encode data)) as Hn. fold n in Hn.
  split; [reflexivity|].
  destruct (Z.ltb_spec n 126); [|destruct (Z.ltb_spec n 65536)];
    try (split; reflexivity).
  rewrite b2z_z2b_small by lia.
  destruct (land_header_length n ltac:(lia)) as [-> ->].
  split; reflexivity.
Qed.

Lemma encodedFrame_wellFramed (data : JSString) :
  blen (Utf8.encode data) <= kMaxLength -> wellFramed (encodedFrame data).
Proof.
  intros Hmax. unfold wellFramed, wf_declared.
  destruct (encodedFrame_header data) as (_ & -> & ->).
  unfold encodedFrame. cbn [wf_extended wf_maskKey wf_payload].
  set (n := blen (Utf8.encode data)) in *.
  pose proof (blen_nonneg (Utf8.encode data)) as Hn. fold n in Hn.
  unfold kMaxLength in Hmax.
  destruct (Z.ltb_spec n 126); [|destruct (Z.ltb_spec n 65536)].
  - destruct (Z.eqb_spec n 126); [lia|]. destruct (Z.eqb_spec n 127); [lia|].
    repeat split.
  - cbn [Z.eqb Pos.eqb]. rewrite be_bytes_length, be_value_bytes by lia.
    repeat split. symmetry. apply Z.mod_small. cbn. lia.
  - cbn [Z.eqb Pos.eqb]. rewrite be_bytes_length, be_value_bytes by lia.
    repeat split. rewrite Z.mod_small by (cbn; lia).
    symmetry. apply Number_exact. lia.
Qed.

Lemma encodedFrame_text (data : JSString) :
  wf_text (encodedFrame data) = Some (Utf8.decode (Utf8.encode data)).
Proof.
  unfold wf_text. destruct (encodedFrame_header data) as (-> & -> & _).
  reflexivity.
Qed.

(** ** UTF-8: decoding what was encoded *)

Module Utf8Facts.
Import Utf8.

Ltac range_dec :=
  repeat match goal with
         | |- context [Z.leb ?a ?b] =>
           let H := fresh in destruct (Z.leb_spec a b) as [H|H]; try lia
         | |- context [Z.ltb ?a ?b] =>
           let H := fresh in destruct (Z.ltb_spec a b) as [H|H]; try lia
         | |- context [Z.eqb ?a ?b] =>
           let H := fresh in destruct (Z.eqb_spec a b) as [H|H]; try lia
         end.

Ltac decode_turn :=
  cbn [app decode_from]; unfold step;
  cbn [bytes_needed lower_boundary upper_boundary code_point idle];
  unfold start; range_dec;
  cbn [bytes_needed lower_boundary upper_boundary code_point idle andb app].

Lemma decode_code_point (cp : Z) (tail : list Z) :
  scalar cp ->
  decode_from idle (encode_code_point cp ++ tail) =
  utf16_of_code_point cp ++ decode_from idle tail.
Proof.
  intros [Hr Hs]. unfold encode_code_point, utf16_of_code_point.
  destruct (Z.ltb_spec cp 0x80) as [H1|H1];
    [|destruct (Z.ltb_spec cp 0x800) as [H2|H2];
      [|destruct (Z.ltb_spec cp 0x10000) as [H3|H3]]].
  - decode_turn. reflexivity.
  - assert (Hd : cp = 64 * (cp / 64) + cp mod 64 /\ 0 <= cp mod 64 < 64)
      by (split; [apply Z.div_mod; lia | apply Z.mod_pos_bound; lia]).
    revert Hd. generalize (cp / 64), (cp mod 64). intros q r [Hq Hr'].
    do 2 decode_turn. unfold utf16_of_code_point. range_dec.
    cbn [app]. do 2 f_equal. lia.
  - assert (Hd : cp = 4096 * (cp / 4096) + 64 * ((cp / 64) mod 64) + cp mod 64
                 /\ 0 <= (cp / 64) mod 64 < 64 /\ 0 <= cp mod 64 < 64)
      by (repeat split; try (apply Z.mod_pos_bound; lia);
          Z.div_mod_to_equations; lia).
    revert Hd. generalize (cp / 4096), ((cp / 64) mod 64), (cp mod 64).
    intros a b c (Hq & Hb & Hc).
    do 3 decode_turn; unfold utf16_of_code_point; range_dec;
      cbn [app]; do 2 f_equal; lia.
  - assert (Hd : cp = 262144 * (cp / 262144) + 4096 * ((cp / 4096) mod 64)
                      + 64 * ((cp / 64) mod 64) + cp mod 64
                 /\ 0 <= (cp / 4096) mod 64 < 64
                 /\ 0 <= (cp / 64) mod 64 < 64 /\ 0 <= cp mod 64 < 64)
      by (repeat split; try (apply Z.mod_pos_bound; lia);
          Z.div_mod_to_equations; lia).
    revert Hd.
    generalize (cp / 262144), ((cp / 4096) mod 64), ((cp / 64) mod 64), (cp mod 64).
    intros a b c d (Hq & Hb & Hc & Hd).
    assert (Hq' : cp - 65536 = 1024 * ((cp - 65536) / 1024) + (cp - 65536) mod 1024
                  /\ 0 <= (cp - 65536) mod 1024 < 1024)
      by (split; [apply Z.div_mod; lia | apply Z.mod_pos_bound; lia]).
    revert Hq'. generalize ((cp - 65536) / 1024), ((cp - 65536) mod 1024).
    intros hi lo [Hhl Hlo].
    do 4 decode_turn; unfold utf16_of_code_point; range_dec;
      cbn [app].
    all: match goal with
         | |- context [?x / 1024] =>
           replace (x / 1024) with hi
             by (apply (Z.div_unique x 1024 hi lo); lia);
           replace (x mod 1024) with lo
             by (apply (Z.mod_unique x 1024 hi lo); lia)
         end.
    all: reflexivity.
Qed.

Lemma encode_code_point_bytes (cp : Z) :
  0 <= cp < 0x110000 ->
  map b2z (map z2b (encode_code_point cp)) = encode_code_point cp.
Proof.
  intros Hr. unfold encode_code_point.
  destruct (Z.ltb_spec cp 0x80); [|destruct (Z.ltb_spec cp 0x800);
    [|destruct (Z.ltb_spec cp 0x10000)]];
    cbn [map]; rewrite !b2z_z2b_small; try reflexivity;
    Z.div_mod_to_equations; lia.
Qed.

(** The shape of a well-formed string: scalar values below U+10000 and
    surrogate pairs. *)
Lemma isWellFormed_cases (c : Z) (rest : JSString) :
  isWellFormed (c :: rest) = true ->
  (scalar c /\ c < 0x10000 /\ is_high_surrogate c = false
   /\ is_low_surrogate c = false /\ isWellFormed rest = true)
  \/ (exists d rest', rest = d :: rest' /\ is_high_surrogate c = true
                      /\ is_low_surrogate d = true /\ isWellFormed rest' = true).
Proof.
  cbn [isWellFormed]. destruct (is_high_surrogate c) eqn:Eh.
  - destruct rest as [|d rest']; [discriminate|].
    intros [Hd Hr]%andb_prop. right. exists d, rest'. auto.
  - intros H. left.
    apply andb_prop in H as [H Hrest]. apply andb_prop in H as [H Hlow].
    apply andb_prop in H as [H0 H1].
    apply negb_true_iff in Hlow.
    unfold is_high_surrogate, is_low_surrogate, scalar in *.
    repeat split; try assumption; lia.
Qed.

Lemma surrogate_pair_scalar (h l : Z) :
  is_high_surrogate h = true -> is_low_surrogate l = true ->
  let cp := 0x10000 + (h - 0xD800) * 1024 + (l - 0xDC00) in
  scalar cp /\ utf16_of_code_point cp = [h; l].
Proof.
  unfold is_high_surrogate, is_low_surrogate, scalar, utf16_of_code_point.
  intros [H1 H2]%andb_prop [H3 H4]%andb_prop. cbn zeta.
  apply Z.leb_le in H1, H2, H3, H4.
  split; [lia|].
  destruct (Z.ltb_spec (65536 + (h - 55296) * 1024 + (l - 56320)) 65536); [lia|].
  f_equal; [|f_equal].
  - assert (h - 55296 = (65536 + (h - 55296) * 1024 + (l - 56320) - 65536) / 1024)
      by (apply (Z.div_unique _ 1024 _ (l - 56320)); lia).
    lia.
  - assert (l - 56320 = (65536 + (h - 55296) * 1024 + (l - 56320) - 65536) mod 1024)
      by (apply (Z.mod_unique _ 1024 (h - 55296)); lia).
    lia.
Qed.

Lemma roundtrip_units (n : nat) (s : JSString) :
  (length s <= n)%nat -> isWellFormed s = true ->
  map b2z (map z2b (encode_units s)) = encode_units s
  /\ decode_from idle (encode_units s) = s.
Proof.
  revert s. induction n as [|n IH]; intros s Hlen Hwf.
  - destruct s; [split; reflexivity | simpl in Hlen; lia].
  - destruct s as [|c rest]; [split; reflexivity|].
    destruct (isWellFormed_cases _ _ Hwf)
      as [(Hsc & Hlt & Hh & Hl & Hrest)|(d & rest' & -> & Hh & Hl & Hrest)].
    + destruct (IH rest ltac:(simpl in Hlen; lia) Hrest) as [IHb IHd].
      cbn [encode_units]. rewrite Hh, Hl. split.
      * rewrite !map_app, encode_code_point_bytes, IHb by apply Hsc. reflexivity.
      * rewrite decode_code_point, IHd by assumption.
        unfold utf16_of_code_point.
        destruct (Z.ltb_spec c 65536); [reflexivity | lia].
    + destruct (IH rest' ltac:(simpl in Hlen; lia) Hrest) as [IHb IHd].
      destruct (surrogate_pair_scalar c d Hh Hl) as [Hsc Hu].
      cbn [encode_units]. rewrite Hh, Hl. split.
      * rewrite !map_app, encode_code_point_bytes, IHb by apply Hsc. reflexivity.
      * rewrite decode_code_point, IHd, Hu by assumption. reflexivity.
Qed.

(** Decoding the UTF-8 encoding of a well-formed string gives it back. *)
Lemma decode_encode (s : JSString) :
  isWellFormed s = true -> decode (encode s) = s.
Proof.
  intros Hwf. unfold decode, encode.
  destruct (roundtrip_units (length s) s (le_n _) Hwf) as [-> ->]. reflexivity.
Qed.

End Utf8Facts.

(** ** The frame codec: round trip, chunks, batches, skipped frames *)

Lemma parse_pure (data existing : Buffer) :
  parseWebSocketFrames data existing = parseWebSocketFrames (existing ++ data) [].
Proof. unfold parseWebSocketFrames. cbn [app]. reflexivity. Qed.

(** Decoding the frame of a string followed by more input: the string as
    UTF-8 carried it, then whatever the rest decodes to. *)
Lemma encoded_then_rest (s : JSString) (post : Buffer) :
  blen (Utf8.encode s) <= kMaxLength ->
  parseWebSocketFrames (createWebSocketFrame s ++ post) [] =
  {| parsed := Utf8.decode (Utf8.encode s) :: parsed (parseWebSocketFrames post []);
     remaining := remaining (parseWebSocketFrames post []) |}.
Proof.
  intros Hmax. rewrite createWebSocketFrame_wire.
  rewrite frame_then_rest by (apply encodedFrame_wellFramed; exact Hmax).
  rewrite encodedFrame_text. reflexivity.
Qed.

(** C1. Framing round trip: a well-formed string (one that UTF-8 can
    carry) whose encoding fits a Buffer, framed by
    [createWebSocketFrame] and decoded by [parseWebSocketFrames] from an
    empty buffer, comes back as the only payload, and no byte remains. *)
Theorem framing_round_trip (s : JSString) :
  Utf8.isWellFormed s = true ->
  blen (Utf8.encode s) <= kMaxLength ->
  parseWebSocketFrames (createWebSocketFrame s) [] =
  {| parsed := [s]; remaining := [] |}.
Proof.
  intros Hwf Hmax.
  rewrite <- (app_nil_r (createWebSocketFrame s)).
  rewrite (encoded_then_rest s [] Hmax), Utf8Facts.decode_encode by exact Hwf.
  reflexivity.
Qed.

Lemma framing_round_trip_witness :
  Utf8.isWellFormed [0x68; 0x20AC; 0xD83D; 0xDE00] = true
  /\ blen (Utf8.encode [0x68; 0x20AC; 0xD83D; 0xDE00]) <= kMaxLength
  /\ parseWebSocketFrames (createWebSocketFrame [0x68; 0x20AC; 0xD83D; 0xDE00]) [] =
     {| parsed := [[0x68; 0x20AC; 0xD83D; 0xDE00]]; remaining := [] |}.
Proof.
  assert (H1 : Utf8.isWellFormed [0x68; 0x20AC; 0xD83D; 0xDE00] = true)
    by reflexivity.
  assert (H2 : blen (Utf8.encode [0x68; 0x20AC; 0xD83D; 0xDE00]) <= kMaxLength)
    by (vm_compute; discriminate).
  exact (conj H1 (conj H2 (framing_round_trip _ H1 H2))).
Defined.

(** A frame of which a part is still missing is kept whole: decoding
    the part that has arrived yields no payload and keeps every byte of
    it. *)
Lemma partial_frame_alone (fr : WireFrame) (chunk1 chunk2 : Buffer) :
  wellFramed fr -> wire fr = chunk1 ++ chunk2 -> chunk2 <> [] ->
  parseWebSocketFrames chunk1 [] = {| parsed := []; remaining := chunk1 |}.
Proof.
  intros Hwf Hsplit Hne.
  assert (Hrun : loopRun ([] ++ chunk1) 0 [] ([], 0)).
  { cbn [app]. destruct chunk1 as [|b chunk1]; [apply run_end; reflexivity|].
    apply run_break; [rewrite blen_cons; blen_lia|].
    pose proof (frame_at [] [] fr Hwf) as Hturn.
    cbn [app] in Hturn. rewrite app_nil_r, blen_nil, Z.add_0_l in Hturn.
    rewrite Hsplit in Hturn.
    eapply turn_truncate; [|exact Hturn|]; [lia|].
    rewrite blen_app. destruct chunk2; [congruence|].
    rewrite (blen_cons _ chunk2). blen_lia. }
  rewrite (parse_of_run _ _ _ _ Hrun). reflexivity.
Qed.

(** The same behind complete frames: their texts are delivered, the
    partial frame stays in the remaining buffer from its first header
    byte on. *)
Lemma partial_frame_kept (before : list WireFrame) (fr : WireFrame)
    (chunk1 chunk2 : Buffer) :
  Forall wellFramed before -> wellFramed fr ->
  wire fr = chunk1 ++ chunk2 -> chunk2 <> [] ->
  parseWebSocketFrames (concat (map wire before) ++ chunk1) [] =
  {| parsed := texts before; remaining := chunk1 |}.
Proof.
  intros Hall Hwf Hsplit Hne.
  rewrite (frames_then_rest before chunk1 Hall).
  rewrite (partial_frame_alone fr chunk1 chunk2 Hwf Hsplit Hne).
  cbn [parsed remaining]. rewrite app_nil_r. reflexivity.
Qed.

(** C7. Incremental feed: an encoded frame cut into two chunks, the
    second not empty. The first feed returns no payload and exactly the
    first chunk as the remaining buffer (the frame intact from its first
    header byte); feeding the second chunk with that remainder gives what
    decoding the whole frame at once gives. *)
Theorem incremental_feed (s : JSString) (chunk1 chunk2 : Buffer) :
  blen (Utf8.encode s) <= kMaxLength ->
  createWebSocketFrame s = chunk1 ++ chunk2 ->
  chunk2 <> [] ->
  parseWebSocketFrames chunk1 [] = {| parsed := []; remaining := chunk1 |}
  /\ parseWebSocketFrames chunk2 (remaining (parseWebSocketFrames chunk1 [])) =
     parseWebSocketFrames (createWebSocketFrame s) [].
Proof.
  intros Hmax Hsplit Hne.
  assert (Hfirst : parseWebSocketFrames chunk1 [] =
                   {| parsed := []; remaining := chunk1 |}).
  { apply (partial_frame_alone (encodedFrame s) chunk1 chunk2);
      [apply encodedFrame_wellFramed; exact Hmax | | exact Hne].
    rewrite <- createWebSocketFrame_wire. exact Hsplit. }
  split; [exact Hfirst|].
  rewrite Hfirst. cbn [remaining]. rewrite parse_pure, Hsplit. reflexivity.
Qed.

Lemma incremental_feed_witness :
  blen (Utf8.encode (js "hello")) <= kMaxLength
  /\ createWebSocketFrame (js "hello") = bytes [0x81; 5; 104] ++ bytes [101; 108; 108; 111]
  /\ bytes [101; 108; 108; 111] <> []
  /\ parseWebSocketFrames (bytes [0x81; 5; 104]) [] =
     {| parsed := []; remaining := bytes [0x81; 5; 104] |}
  /\ parseWebSocketFrames (bytes [101; 108; 108; 111])
       (remaining (parseWebSocketFrames (bytes [0x81; 5; 104]) [])) =
     parseWebSocketFrames (createWebSocketFrame (js "hello")) [].
Proof.
  assert (H1 : blen (Utf8.encode (js "hello")) <= kMaxLength)
    by (vm_compute; discriminate).
  assert (H2 : createWebSocketFrame (js "hello") =
               bytes [0x81; 5; 104] ++ bytes [101; 108; 108; 111]) by reflexivity.
  assert (H3 : bytes [101; 108; 108; 111] <> []) by discriminate.
  exact (conj H1 (conj H2 (conj H3 (incremental_feed _ _ _ H1 H2 H3)))).
Defined.

(** C8. Multi-frame batching: for two strings UTF-8 can carry
    (well-formed, as C1 reads a UTF-8 string) whose encodings fit a
    Buffer, decoding the concatenation of their frames in one call
    yields both payloads in send order and leaves no byte. *)
Theorem multi_frame_batching (s1 s2 : JSString) :
  Utf8.isWellFormed s1 = true -> Utf8.isWellFormed s2 = true ->
  blen (Utf8.encode s1) <= kMaxLength -> blen (Utf8.encode s2) <= kMaxLength ->
  parseWebSocketFrames (createWebSocketFrame s1 ++ createWebSocketFrame s2) [] =
  {| parsed := [s1; s2]; remaining := [] |}.
Proof.
  intros Hwf1 Hwf2 Hmax1 Hmax2.
  rewrite (encoded_then_rest s1 _ Hmax1).
  rewrite <- (app_nil_r (createWebSocketFrame s2)).
  rewrite (encoded_then_rest s2 [] Hmax2).
  rewrite !Utf8Facts.decode_encode by assumption.
  reflexivity.
Qed.

Lemma multi_frame_batching_witness :
  Utf8.isWellFormed (js "one") = true /\ Utf8.isWellFormed [0xE9; 0x4E2D] = true
  /\ blen (Utf8.encode (js "one")) <= kMaxLength
  /\ blen (Utf8.encode [0xE9; 0x4E2D]) <= kMaxLength
  /\ parseWebSocketFrames
       (createWebSocketFrame (js "one") ++ createWebSocketFrame [0xE9; 0x4E2D]) [] =
     {| parsed := [js "one"; [0xE9; 0x4E2D]]; remaining := [] |}.
Proof.
  assert (H1 : Utf8.isWellFormed (js "one") = true) by reflexivity.
  assert (H2 : Utf8.isWellFormed [0xE9; 0x4E2D] = true) by reflexivity.
  assert (H3 : blen (Utf8.encode (js "one")) <= kMaxLength)
    by (vm_compute; discriminate).
  assert (H4 : blen (Utf8.encode [0xE9; 0x4E2D]) <= kMaxLength)
    by (vm_compute; discriminate).
  exact (conj H1 (conj H2 (conj H3 (conj H4 (multi_frame_batching _ _ H1 H2 H3 H4))))).
Defined.

(** Outside these strings: a string with an unpaired surrogate is no
    UTF-8 string; [Buffer.from] writes U+FFFD in its place, and U+FFFD is
    what comes back. The encoder is never given one: its caller passes
    the text of [JSON.stringify] (see [JSON_stringify_wellFormed]). *)
Lemma batching_unpaired_surrogate :
  parseWebSocketFrames
    (createWebSocketFrame [0xD800] ++ createWebSocketFrame (js "a")) [] =
  {| parsed := [[0xFFFD]; js "a"]; remaining := [] |}
  /\ parseWebSocketFrames
       (createWebSocketFrame [0xD800] ++ createWebSocketFrame (js "a")) [] <>
     {| parsed := [[0xD800]; js "a"]; remaining := [] |}.
Proof.
  assert (H : parseWebSocketFrames
                (createWebSocketFrame [0xD800] ++ createWebSocketFrame (js "a")) [] =
              {| parsed := [[0xFFFD]; js "a"]; remaining := [] |}) by reflexivity.
  split; [exact H|]. rewrite H. discriminate.
Qed.



(** The frames [parseWebSocketFrames] has read. *)
Lemma parse_frames (existingBuffer data : Buffer) :
  exists frames : list WireFrame,
    Forall wellFramed frames
    /\ existingBuffer ++ data =
       concat (map wire frames)
         ++ remaining (parseWebSocketFrames data existingBuffer)
    /\ parsed (parseWebSocketFrames data existingBuffer) = texts frames.
Proof.
  destruct (parse_offset data existingBuffer) as (off & Hoff & Hrun & Hrem).
  destruct (loopRun_frames _ _ _ _ Hrun) as (frames & Hall & Htile & Hmsgs & _);
    [pose proof (blen_nonneg (existingBuffer ++ data)); lia|].
  cbn [fst snd] in *. exists frames. repeat split.
  - exact Hall.
  - rewrite Hrem, <- Htile. symmetry. apply subarray_take_drop. lia.
  - exact Hmsgs.
Qed.

(** C10. Whatever the two buffers hold, the decoder accounts for every
    byte of their concatenation once and in order: a sequence of
    well-framed frames followed by the remaining buffer, which is thus a
    suffix. The payloads returned are the texts of those frames, each
    taken from the payload field of its own frame, in the order of the
    frames. The result depends on the concatenation only. *)
Theorem parse_accounts_for_every_byte (existingBuffer data : Buffer) :
  exists frames : list WireFrame,
    Forall wellFramed frames
    /\ existingBuffer ++ data =
       concat (map wire frames)
         ++ remaining (parseWebSocketFrames data existingBuffer)
    /\ parsed (parseWebSocketFrames data existingBuffer) = texts frames
    /\ parseWebSocketFrames data existingBuffer =
       parseWebSocketFrames (existingBuffer ++ data) [].
Proof.
  destruct (parse_frames existingBuffer data) as (frames & Hall & Htile & Htexts).
  exists frames. repeat split; assumption.
Qed.

(** ** Feeding a stream in chunks *)

(** A run over a buffer is the beginning of the run over the buffer with
    more bytes behind it. *)
Lemma run_extend (buf post : Buffer) (off : Z) (msgs : list JSString) r1 r :
  loopRun buf off msgs r1 -> 0 <= off ->
  loopRun (buf ++ post) (snd r1) (fst r1) r ->
  loopRun (buf ++ post) off msgs r.
Proof.
  induction 1 as [off msgs Hge|off msgs Hlt Hbr|off msgs off' m r1 Hlt Hnx _ IH];
    intros Hoff Hrest; cbn [fst snd] in *; try assumption.
  pose proof (turn_advance _ _ _ _ Hoff Hnx).
  eapply run_next; [blen_lia | apply turn_extend; eassumption |].
  apply IH; [lia | exact Hrest].
Qed.

(** Cutting the input anywhere and feeding the second chunk with the
    remainder of the first gives the payloads of decoding all at once, in
    the same order, and the same remainder: the buffering of the read
    handler loses and repeats nothing. *)
Lemma chunked_feed (chunk1 chunk2 existing : Buffer) :
  let first := parseWebSocketFrames chunk1 existing in
  let second := parseWebSocketFrames chunk2 (remaining first) in
  parseWebSocketFrames (chunk1 ++ chunk2) existing =
  {| parsed := parsed first ++ parsed second; remaining := remaining second |}.
Proof.
  cbn zeta.
  destruct (parse_offset chunk1 existing) as (o1 & Ho1 & Hrun1 & Hrem1).
  rewrite Hrem1.
  destruct (parse_offset chunk2 (subarray_from (existing ++ chunk1) o1))
    as (o2 & Ho2 & Hrun2 & Hrem2).
  rewrite Hrem2.
  generalize dependent (parsed (parseWebSocketFrames chunk1 existing)).
  intros ms1 Hrun1.
  generalize dependent
    (parsed (parseWebSocketFrames chunk2 (subarray_from (existing ++ chunk1) o1))).
  intros ms2 Hrun2.
  set (full1 := existing ++ chunk1) in *.
  assert (Hcut : full1 = subarray full1 0 o1 ++ subarray_from full1 o1)
    by (symmetry; apply subarray_take_drop; lia).
  assert (Hpre : blen (subarray full1 0 o1) = o1)
    by (rewrite subarray_length; lia).
  apply (run_shift (subarray full1 0 o1)) in Hrun2; [|lia].
  rewrite app_assoc, <- Hcut, Hpre in Hrun2. cbn [fst snd] in Hrun2.
  rewrite Z.add_0_r in Hrun2.
  apply (run_with_prefix _ _ _ _ ms1) in Hrun2. cbn [fst snd] in Hrun2.
  rewrite app_nil_r in Hrun2.
  pose proof (run_extend full1 chunk2 0 [] (ms1, o1) _ Hrun1 ltac:(lia) Hrun2)
    as Hrun.
  unfold full1 in Hrun. rewrite <- app_assoc in Hrun.
  rewrite (parse_of_run _ _ _ _ Hrun). f_equal.
  rewrite app_assoc. fold full1. rewrite Hcut at 1.
  unfold subarray_from at 1 3.
  replace (Z.to_nat (o1 + o2)) with (Z.to_nat o1 + Z.to_nat o2)%nat by lia.
  rewrite <- drop_drop. f_equal.
  rewrite <- app_assoc.
  replace (Z.to_nat o1) with (length (subarray full1 0 o1))
    by (unfold blen in Hpre; lia).
  rewrite drop_app_length. reflexivity.
Qed.

(** What is left over holds no complete frame: decoding it again yields
    nothing and leaves it as it is. *)
Lemma remaining_is_kept (data existing : Buffer) :
  parseWebSocketFrames [] (remaining (parseWebSocketFrames data existing)) =
  {| parsed := []; remaining := remaining (parseWebSocketFrames data existing) |}.
Proof.
  pose proof (chunked_feed data [] existing) as H. cbn zeta in H.
  rewrite app_nil_r in H.
  destruct (parseWebSocketFrames [] (remaining (parseWebSocketFrames data existing)))
    as [ms rem] eqn:E.
  cbn [parsed remaining] in H.
  destruct (parseWebSocketFrames data existing) as [ms0 rem0] eqn:E0.
  cbn [parsed remaining] in *. injection H as Hms Hrem.
  f_equal; [|symmetry; exact Hrem].
  assert (Hlen : length ms0 = length (ms0 ++ ms)) by (rewrite <- Hms; reflexivity).
  rewrite length_app in Hlen. destruct ms; [reflexivity | simpl in Hlen; lia].
Qed.

(** ** Payloads are no longer than the bytes they come from *)

Lemma decode_from_length (st : Utf8.Decoder) (input : list Z) :
  (length (Utf8.decode_from st input) <=
   2 * length input + match Utf8.bytes_needed st with O => 0 | S _ => 1 end)%nat.
Proof.
  revert st. induction input as [|b rest IH]; intros st.
  - cbn. destruct (Utf8.bytes_needed st); cbn; lia.
  - cbn [Utf8.decode_from].
    assert (Hstart : forall x, (length (Utf8.start x).2 +
              match Utf8.bytes_needed (Utf8.start x).1 with O => 0 | S _ => 1 end
              <= 2)%nat).
    { intros x. unfold Utf8.start.
      repeat match goal with |- context [if ?c then _ else _] => destruct c end;
        cbn; lia. }
    assert (Hstep : (length (Utf8.step st b).2 +
              match Utf8.bytes_needed (Utf8.step st b).1 with O => 0 | S _ => 1 end
              <= 2 + match Utf8.bytes_needed st with O => 0 | S _ => 1 end)%nat).
    { unfold Utf8.step. destruct (Utf8.bytes_needed st) as [|k].
      - pose proof (Hstart b). lia.
      - destruct (_ && _).
        + destruct k; cbn [fst snd Utf8.bytes_needed Utf8.idle length].
          * unfold Utf8.utf16_of_code_point. destruct (_ <? _); cbn; lia.
          * lia.
        + pose proof (Hstart b) as Hs. destruct (Utf8.start b) as [st' out].
          cbn [fst snd length] in *. lia. }
    destruct (Utf8.step st b) as [st' out]. cbn [fst snd] in Hstep.
    rewrite length_app. pose proof (IH st'). cbn [length]. lia.
Qed.

Lemma decode_length (buf : Buffer) : slen (Utf8.decode buf) <= 2 * blen buf.
Proof.
  unfold Utf8.decode, slen, blen.
  pose proof (decode_from_length Utf8.idle (map b2z buf)) as H.
  rewrite length_map in H. cbn in H. lia.
Qed.

Lemma wire_within (fr : WireFrame) (frames : list WireFrame) :
  fr ∈ frames -> blen (wire fr) <= blen (concat (map wire frames)).
Proof.
  induction 1 as [fr rest|fr other rest _ IH]; cbn [map concat]; blen_lia.
Qed.

(** The data handler only decodes when buffer and chunk together are
    within [MAX_BUFFER_SIZE]; no payload decoded from them can be longer
    than [MAX_MESSAGE_SIZE], so in the read handler the size check of the
    callback never fires. *)
Lemma payload_within_ceiling (buffer data : Buffer) (text : JSString) :
  blen buffer + blen data <= MAX_BUFFER_SIZE ->
  text ∈ parsed (parseWebSocketFrames data buffer) ->
  slen text <= MAX_MESSAGE_SIZE.
Proof.
  intros Hcap Hin.
  destruct (parse_frames buffer data) as (frames & _ & Htile & Htexts).
  rewrite Htexts in Hin. unfold texts in Hin.
  apply list_elem_of_omap in Hin as (fr & Hfr & Htext).
  pose proof (wire_within fr frames Hfr) as Hw.
  assert (Htotal : blen (concat (map wire frames)) <= blen buffer + blen data).
  { rewrite <- blen_app, Htile, blen_app.
    pose proof (blen_nonneg (remaining (parseWebSocketFrames data buffer))). lia. }
  rewrite wire_length in Hw.
  pose proof (blen_nonneg (wf_extended fr)). pose proof (blen_nonneg (wf_maskKey fr)).
  unfold wf_text in Htext. destruct (_ =? _) in Htext; [|discriminate].
  injection Htext as <-.
  assert (Hpay : forall b, blen b = blen (wf_payload fr) ->
                           slen (Utf8.decode b) <= MAX_MESSAGE_SIZE).
  { intros b Hb. pose proof (decode_length b).
    unfold MAX_MESSAGE_SIZE, MAX_BUFFER_SIZE in *. lia. }
  apply Hpay. destruct (wf_masked fr); [|reflexivity].
  unfold unmask, blen. rewrite length_imap. reflexivity.
Qed.

(** ** The connection set *)

Lemma setDelete_sublist (socket : SocketId) (set : list SocketId) :
  setDelete socket set `sublist_of` set.
Proof. apply sublist_filter. Qed.

Lemma setAdd_length (socket : SocketId) (set : list SocketId) :
  (length (setAdd socket set) <= S (length set))%nat.
Proof.
  unfold setAdd. destruct (decide (socket ∈ set)); [lia|].
  rewrite length_app. simpl. lia.
Qed.

Lemma setAdd_elem (socket x : SocketId) (set : list SocketId) :
  x ∈ setAdd socket set <-> x = socket \/ x ∈ set.
Proof.
  unfold setAdd. destruct (decide (socket ∈ set)) as [Hin|Hnin].
  - split; [auto | intros [->|]; assumption].
  - rewrite elem_of_app, list_elem_of_singleton. tauto.
Qed.

Lemma shrinks_refl (srv : Server) : shrinks srv srv.
Proof. unfold shrinks. reflexivity. Qed.

Lemma shrinks_trans (a b c : Server) : shrinks a b -> shrinks b c -> shrinks a c.
Proof. unfold shrinks. intros H1 H2. etransitivity; eassumption. Qed.

Lemma cleanupConnection_shrinks (srv : Server) (socket : SocketId) :
  shrinks srv (cleanupConnection srv socket).1.
Proof.
  unfold cleanupConnection, shrinks.
  destruct (negb _); cbn; apply setDelete_sublist.
Qed.

Lemma sendMessage_shrinks (srv : Server) (socket : SocketId) (message : JSValue) :
  shrinks srv (sendMessage srv socket message).1.
Proof.
  unfold sendMessage.
  repeat match goal with
         | |- context [if ?c then _ else _] => destruct c
         | |- context [match ?x with Some _ => _ | None => _ end] => destruct x
         end;
    try apply cleanupConnection_shrinks; apply shrinks_refl.
Qed.

Lemma forEachSocket_shrinks (f : Server -> SocketId -> Server * list Effect)
    (l : list SocketId) :
  (forall srv socket, shrinks srv (f srv socket).1) ->
  forall srv, shrinks srv (forEachSocket f srv l).1.
Proof.
  intros Hf. induction l as [|socket rest IH]; intros srv.
  - apply shrinks_refl.
  - cbn [forEachSocket]. pose proof (Hf srv socket) as H1.
    destruct (f srv socket) as [srv1 effects1]. pose proof (IH srv1) as H2.
    destruct (forEachSocket f srv1 rest) as [srv2 effects2].
    eapply shrinks_trans; eassumption.
Qed.

Section ServerFacts.

Variable JSON_parse : JSString -> option JSValue.
Variable sha1_base64 : JSString -> JSString.

Lemma onMessageText_shrinks (srv : Server) (socket : SocketId) (text : JSString) :
  shrinks srv (onMessageText JSON_parse srv socket text).1.
Proof.
  unfold onMessageText. destruct (_ >? _); [apply sendMessage_shrinks|].
  destruct (JSON_parse text); apply shrinks_refl.
Qed.

Lemma forEachMessage_shrinks (socket : SocketId) (messages : list JSString) :
  forall srv, shrinks srv (forEachMessage JSON_parse srv socket messages).1.
Proof.
  induction messages as [|text rest IH]; intros srv.
  - apply shrinks_refl.
  - cbn [forEachMessage]. pose proof (onMessageText_shrinks srv socket text) as H1.
    destruct (onMessageText JSON_parse srv socket text) as [srv1 effects1].
    pose proof (IH srv1) as H2.
    destruct (forEachMessage JSON_parse srv1 socket rest) as [srv2 effects2].
    eapply shrinks_trans; eassumption.
Qed.

Lemma onData_shrinks (srv : Server) (socket : SocketId) (buffer data : Buffer) :
  shrinks srv (onData JSON_parse srv socket buffer data).1.
Proof.
  unfold onData. destruct (_ >? _); [apply cleanupConnection_shrinks|].
  apply (shrinks_trans _ (withBuffer srv socket
                            (remaining (parseWebSocketFrames data buffer)))).
  - unfold shrinks. cbn. reflexivity.
  - apply forEachMessage_shrinks.
Qed.

(** Only an upgrade can add to the set. *)
Lemma step_shrinks (srv : Server) (e : Event) :
  (forall request socket, e <> Upgrade request socket) ->
  shrinks srv (step JSON_parse sha1_base64 srv e).1.
Proof.
  intros Hnot. destruct e; cbn [step].
  - exfalso. eapply Hnot. reflexivity.
  - destruct (buffers srv !! socket); [apply onData_shrinks | apply shrinks_refl].
  - destruct (buffers srv !! socket); [|apply shrinks_refl].
    unfold onClose, shrinks. cbn. apply setDelete_sublist.
  - destruct (buffers srv !! socket); [|apply shrinks_refl].
    apply cleanupConnection_shrinks.
  - unfold healthCheck. apply forEachSocket_shrinks. intros srv' socket.
    destruct (_ || _); [|apply shrinks_refl].
    unfold shrinks. cbn. apply setDelete_sublist.
  - apply sendMessage_shrinks.
  - unfold broadcast. apply forEachSocket_shrinks. intros srv' socket.
    destruct (_ && _); [apply sendMessage_shrinks | apply cleanupConnection_shrinks].
  - unfold shrinks. cbn. reflexivity.
  - unfold stop. destruct (forEachSocket _ _ _) as [srv' effects].
    unfold shrinks. cbn. apply sublist_nil_l.
  - unfold shrinks. cbn. reflexivity.
Qed.

Lemma passesCheck_iff (srv : Server) (request : UpgradeRequest) :
  passesCheck srv request <->
  headerMissing (headers request !! "x-claude-code-ide-authorization") = false
  /\ differsFrom (headers request !! "x-claude-code-ide-authorization")
       (authToken srv) = false.
Proof.
  unfold passesCheck, headerMissing, differsFrom.
  destruct (headers request !! "x-claude-code-ide-authorization") as [[v|vs]|].
  - split.
    + intros (value & [= <-] & Hne & Heq). split.
      * destruct v; [contradiction | reflexivity].
      * rewrite bool_decide_eq_true_2 by assumption. reflexivity.
    + intros [Hm Hd]. exists v. repeat split.
      * intros ->. discriminate.
      * apply negb_false_iff, bool_decide_eq_true in Hd. exact Hd.
  - split; [intros (value & [=] & _) | intros [_ [=]]].
  - split; [intros (value & [=] & _) | intros [[=] _]].
Qed.

Lemma handleWebSocketUpgrade_result (srv : Server) (request : UpgradeRequest)
    (socket : SocketId) :
  UpgradeResult sha1_base64 srv request socket
    (handleWebSocketUpgrade sha1_base64 srv request socket).
Proof.
  unfold handleWebSocketUpgrade.
  destruct (missing _) eqn:Ekey; [apply upgrade_bad_request; exact Ekey|].
  destruct (headerMissing _) eqn:Emiss.
  { apply upgrade_unauthorized; [exact Ekey|].
    rewrite passesCheck_iff. intros [H _]. congruence. }
  destruct (differsFrom _ _) eqn:Ediff.
  { apply upgrade_unauthorized; [exact Ekey|].
    rewrite passesCheck_iff. intros [_ H]. congruence. }
  assert (Hpass : passesCheck srv request) by (apply passesCheck_iff; auto).
  destruct (Z.geb_spec (size srv) MAX_CONNECTIONS) as [Hfull|Hroom].
  { apply upgrade_unavailable; assumption. }
  destruct (firstValue _) as [key|] eqn:Efirst; [|discriminate].
  apply (upgrade_established sha1_base64 srv request socket key Efirst);
    try assumption.
  intros Hk. rewrite Hk in Ekey. discriminate.
Qed.

End ServerFacts.

(** ** Upgrades: the ceiling and the credential *)

Section Gate.

Variable JSON_parse : JSString -> option JSValue.
Variable sha1_base64 : JSString -> JSString.

Lemma run_cons (srv : Server) (e : Event) (rest : list Event) :
  (run JSON_parse sha1_base64 srv (e :: rest)).1 =
  (run JSON_parse sha1_base64 (step JSON_parse sha1_base64 srv e).1 rest).1.
Proof.
  cbn [run]. destruct (step JSON_parse sha1_base64 srv e) as [srv1 effects1].
  cbn [fst]. destruct (run JSON_parse sha1_base64 srv1 rest) as [srv2 effects2].
  reflexivity.
Qed.

Lemma step_size (srv : Server) (e : Event) :
  size srv <= MAX_CONNECTIONS ->
  size (step JSON_parse sha1_base64 srv e).1 <= MAX_CONNECTIONS.
Proof.
  intros Hsize. destruct e as [request socket| | | | | | | | |].
  { cbn [step].
    destruct (handleWebSocketUpgrade_result sha1_base64 srv request socket)
      as [?|? ? ?|? ? ?|key ? ? ? Hroom]; try exact Hsize.
    unfold size in *. cbn [fst connections withBuffer withConnections].
    pose proof (setAdd_length socket (connections srv)). lia. }
  all: match goal with
       | |- size (step _ _ ?s0 ?e).1 <= _ =>
         pose proof (step_shrinks JSON_parse sha1_base64 s0 e
                       ltac:(intros ? ?; discriminate)) as Hs
       end;
    apply sublist_length in Hs; unfold size in *; lia.
Qed.

Lemma run_size (events : list Event) (srv : Server) :
  size srv <= MAX_CONNECTIONS ->
  size (run JSON_parse sha1_base64 srv events).1 <= MAX_CONNECTIONS.
Proof.
  revert srv. induction events as [|e rest IH]; intros srv Hsize.
  - exact Hsize.
  - rewrite run_cons. apply IH, step_size, Hsize.
Qed.

(** Who is in the set after a step was there before, or has just come
    through an upgrade that passed the credential check. *)
Lemma step_registry (srv : Server) (e : Event) (s : SocketId) :
  s ∈ connections (step JSON_parse sha1_base64 srv e).1 ->
  s ∈ connections srv
  \/ exists request, e = Upgrade request s /\ passesCheck srv request.
Proof.
  intros Hin. destruct e as [request socket| | | | | | | | |].
  { cbn [step] in Hin.
    destruct (handleWebSocketUpgrade_result sha1_base64 srv request socket)
      as [?|? ? ?|? ? ?|key ? ? Hpass ?]; try (left; exact Hin).
    cbn [fst connections withBuffer withConnections] in Hin.
    apply setAdd_elem in Hin as [->|Hin]; [right|left; exact Hin].
    exists request. split; [reflexivity | exact Hpass]. }
  all: left;
    match goal with
    | H : _ ∈ connections (step _ _ ?s0 ?e).1 |- _ =>
      pose proof (step_shrinks JSON_parse sha1_base64 s0 e
                    ltac:(intros ? ?; discriminate)) as Hs
    end;
    eapply elem_of_sublist; eassumption.
Qed.

Lemma run_registry (events : list Event) (srv : Server) (s : SocketId) :
  s ∈ connections (run JSON_parse sha1_base64 srv events).1 ->
  s ∈ connections srv
  \/ exists before request after,
       events = before ++ Upgrade request s :: after
       /\ passesCheck (run JSON_parse sha1_base64 srv before).1 request.
Proof.
  revert srv. induction events as [|e rest IH]; intros srv Hin.
  - left. exact Hin.
  - rewrite run_cons in Hin. destruct (IH _ Hin) as [Hstep|Hlater].
    + destruct (step_registry _ _ _ Hstep) as [Hold|(request & -> & Hpass)].
      * left. exact Hold.
      * right. exists [], request, rest. split; [reflexivity | exact Hpass].
    + destruct Hlater as (before & request & after & -> & Hpass).
      right. exists (e :: before), request, after.
      split; [reflexivity|]. rewrite run_cons. exact Hpass.
Qed.

(** C2. The ceiling: after any sequence of events the set holds at most
    ten connections; and when it holds ten, an upgrade request with a key
    and the right credential is answered with 503 and nothing else (no
    handshake is written), and the set is left as it was. *)
Theorem connection_ceiling (events : list Event) (request : UpgradeRequest)
    (socket : SocketId) :
  let srv := (run JSON_parse sha1_base64 newServer events).1 in
  size srv <= MAX_CONNECTIONS
  /\ (size srv = MAX_CONNECTIONS ->
      missing (firstValue (headers request !! "sec-websocket-key")) = false ->
      passesCheck srv request ->
      (handleWebSocketUpgrade sha1_base64 srv request socket).2 =
        [SocketEnd socket serviceUnavailable]
      /\ connections (handleWebSocketUpgrade sha1_base64 srv request socket).1 =
         connections srv).
Proof.
  cbn zeta. split.
  - apply run_size. unfold size, MAX_CONNECTIONS. cbn. lia.
  - intros Hfull Hkey Hpass.
    destruct (handleWebSocketUpgrade_result sha1_base64
                (run JSON_parse sha1_base64 newServer events).1 request socket)
      as [Hmiss|reason _ Hno|_ _ _|key _ _ _ Hroom].
    + congruence.
    + contradiction.
    + split; reflexivity.
    + lia.
Qed.

End Gate.

Lemma goodRequest_passes (srv : Server) :
  authToken srv = someToken -> passesCheck srv goodRequest.
Proof.
  intros Htoken. exists someToken. repeat split.
  - discriminate.
  - symmetry. exact Htoken.
Qed.

Lemma connection_ceiling_witness :
  size fullServer = MAX_CONNECTIONS
  /\ missing (firstValue (headers goodRequest !! "sec-websocket-key")) = false
  /\ passesCheck fullServer goodRequest
  /\ (handleWebSocketUpgrade plainDigest fullServer goodRequest 11%nat).2 =
       [SocketEnd 11%nat serviceUnavailable]
  /\ connections (handleWebSocketUpgrade plainDigest fullServer goodRequest 11%nat).1 =
       connections fullServer.
Proof.
  assert (H1 : size fullServer = MAX_CONNECTIONS) by (vm_compute; reflexivity).
  assert (H2 : missing (firstValue (headers goodRequest !! "sec-websocket-key")) = false)
    by (vm_compute; reflexivity).
  assert (H3 : passesCheck fullServer goodRequest)
    by (apply goodRequest_passes; vm_compute; reflexivity).
  exact (conj H1 (conj H2 (conj H3
    (proj2 (connection_ceiling noParse plainDigest tenUpgrades goodRequest 11%nat)
       H1 H2 H3)))).
Defined.

Section Credential.

Variable JSON_parse : JSString -> option JSValue.
Variable sha1_base64 : JSString -> JSString.

(** C3, as amended. For an upgrade request that carries a key: when the
    authorization header is absent, empty, not a single string or not
    equal to the credential of the server, 401 is written and the set is
    left as it was; when it is a non-empty string equal to the credential
    and the set holds fewer than ten connections, the 101 handshake is
    written and the socket is in the set. And whoever is in the set after
    any sequence of events came in through an upgrade whose request
    passed the credential check of the server at that moment. *)
Theorem credential_gate (events : list Event) (request : UpgradeRequest)
    (socket : SocketId) :
  let srv := (run JSON_parse sha1_base64 newServer events).1 in
  missing (firstValue (headers request !! "sec-websocket-key")) = false ->
  (~ passesCheck srv request ->
     (exists reason,
        (handleWebSocketUpgrade sha1_base64 srv request socket).2 =
        [SocketEnd socket (unauthorized reason)])
     /\ connections (handleWebSocketUpgrade sha1_base64 srv request socket).1 =
        connections srv)
  /\ (passesCheck srv request -> size srv < MAX_CONNECTIONS ->
      (exists acceptKey,
         (handleWebSocketUpgrade sha1_base64 srv request socket).2 =
         [SocketWriteText socket (switchingProtocols acceptKey);
          OnConnection socket])
      /\ socket ∈ connections (handleWebSocketUpgrade sha1_base64 srv request socket).1)
  /\ (forall s, s ∈ connections srv ->
      exists before request' after,
        events = before ++ Upgrade request' s :: after
        /\ passesCheck (run JSON_parse sha1_base64 newServer before).1 request').
Proof.
  cbn zeta. intros Hkey. repeat split.
  - destruct (handleWebSocketUpgrade_result sha1_base64
                (run JSON_parse sha1_base64 newServer events).1 request socket)
      as [Hmiss|reason _ _|_ Hpass _|key _ _ Hpass _];
      [congruence | | contradiction | contradiction].
    exists reason. reflexivity.
  - destruct (handleWebSocketUpgrade_result sha1_base64
                (run JSON_parse sha1_base64 newServer events).1 request socket)
      as [Hmiss|reason _ _|_ Hpass _|key _ _ Hpass _];
      [congruence | | contradiction | contradiction].
    reflexivity.
  - destruct (handleWebSocketUpgrade_result sha1_base64
                (run JSON_parse sha1_base64 newServer events).1 request socket)
      as [Hmiss|reason _ Hno|_ _ Hfull|key _ _ _ _];
      [congruence | contradiction | lia |].
    eexists. reflexivity.
  - destruct (handleWebSocketUpgrade_result sha1_base64
                (run JSON_parse sha1_base64 newServer events).1 request socket)
      as [Hmiss|reason _ Hno|_ _ Hfull|key _ _ _ _];
      [congruence | contradiction | lia |].
    cbn [fst connections withBuffer withConnections].
    apply setAdd_elem. left. reflexivity.
  - intros s Hin. destruct (run_registry _ _ _ _ _ Hin) as [Hnew|Hup].
    + cbn in Hnew. apply elem_of_nil in Hnew. contradiction.
    + exact Hup.
Qed.

End Credential.

Lemma credential_gate_witness :
  missing (firstValue (headers wrongRequest !! "sec-websocket-key")) = false
  /\ (exists reason,
        (handleWebSocketUpgrade plainDigest
           (run noParse plainDigest newServer
              [CallSetAuthToken someToken; Upgrade goodRequest 1%nat]).1
           wrongRequest 2%nat).2 =
        [SocketEnd 2%nat (unauthorized reason)])
  /\ missing (firstValue (headers goodRequest !! "sec-websocket-key")) = false
  /\ 2%nat ∈ connections
               (handleWebSocketUpgrade plainDigest
                  (run noParse plainDigest newServer
                     [CallSetAuthToken someToken; Upgrade goodRequest 1%nat]).1
                  goodRequest 2%nat).1.
Proof.
  assert (H1 : missing (firstValue (headers wrongRequest !! "sec-websocket-key")) = false)
    by (vm_compute; reflexivity).
  assert (H2 : missing (firstValue (headers goodRequest !! "sec-websocket-key")) = false)
    by (vm_compute; reflexivity).
  split; [exact H1|]. split; [|split; [exact H2|]].
  - refine (proj1 (proj1 (credential_gate noParse plainDigest
              [CallSetAuthToken someToken; Upgrade goodRequest 1%nat]
              wrongRequest 2%nat H1) _)).
    intros (value & Hh & _ & Heq). vm_compute in Hh, Heq.
    injection Hh as <-. discriminate Heq.
  - refine (proj2 (proj1 (proj2 (credential_gate noParse plainDigest
              [CallSetAuthToken someToken; Upgrade goodRequest 1%nat]
              goodRequest 2%nat H2)) _ _)).
    + apply goodRequest_passes. vm_compute. reflexivity.
    + vm_compute. reflexivity.
Defined.

(** C3 as stated fails in three places. With ten connections in the set,
    a request with the key and the right credential gets 503, no
    handshake, and is not added. A request without the authorization
    header that has no key either gets 400, not 401. And before
    [setAuthToken] the credential is the empty string: an empty header
    equals it and gets 401. *)
Lemma credential_gate_counterexample :
  (missing (firstValue (headers goodRequest !! "sec-websocket-key")) = false
   /\ headers goodRequest !! "x-claude-code-ide-authorization" =
        Some (HString (authToken fullServer))
   /\ (handleWebSocketUpgrade plainDigest fullServer goodRequest 11%nat).2 =
        [SocketEnd 11%nat serviceUnavailable]
   /\ 11%nat ∉ connections
                 (handleWebSocketUpgrade plainDigest fullServer goodRequest 11%nat).1)
  /\ (headers bareRequest !! "x-claude-code-ide-authorization" = None
      /\ (handleWebSocketUpgrade plainDigest newServer bareRequest 1%nat).2 =
           [SocketEnd 1%nat badRequest])
  /\ (missing (firstValue (headers emptyRequest !! "sec-websocket-key")) = false
      /\ headers emptyRequest !! "x-claude-code-ide-authorization" =
           Some (HString (authToken newServer))
      /\ (handleWebSocketUpgrade plainDigest newServer emptyRequest 1%nat).2 =
           [SocketEnd 1%nat
              (unauthorized
                 "Missing authentication header: x-claude-code-ide-authorization")]).
Proof.
  repeat split; try (vm_compute; reflexivity).
  assert (Hset : connections
            (handleWebSocketUpgrade plainDigest fullServer goodRequest 11%nat).1 =
          seq 1 10) by (vm_compute; reflexivity).
  rewrite Hset. cbn [seq]. intros Hin.
  repeat (apply elem_of_cons in Hin as [Hin|Hin]; [discriminate Hin|]).
  apply elem_of_nil in Hin. exact Hin.
Qed.

(** ** The read handler and the message-size ceiling *)

Lemma messageTooLarge_text : JSON_stringify messageTooLarge = Some messageTooLargeText.
Proof. vm_compute. reflexivity. Qed.

Lemma cleanupConnection_effects (srv : Server) (socket : SocketId) (e : Effect) :
  e ∈ (cleanupConnection srv socket).2 -> e = SocketDestroy socket.
Proof.
  unfold cleanupConnection. destruct (negb _); cbn [snd socketDestroy].
  - intros H. apply list_elem_of_singleton in H. exact H.
  - intros H. apply elem_of_nil in H. contradiction.
Qed.

(** [sendMessage] writes a frame or destroys the socket, nothing else. *)
Lemma sendMessage_effects (srv : Server) (socket : SocketId) (message : JSValue)
    (e : Effect) :
  e ∈ (sendMessage srv socket message).2 ->
  e = SocketDestroy socket \/ exists frame, e = SocketWrite socket frame.
Proof.
  unfold sendMessage.
  repeat match goal with
         | |- context [if ?c then _ else _] => destruct c
         | |- context [match ?x with Some _ => _ | None => _ end] => destruct x
         end;
    cbn [snd]; intros Hmem;
    try (left; apply cleanupConnection_effects in Hmem; exact Hmem);
    try (apply list_elem_of_singleton in Hmem; right; eexists; exact Hmem);
    apply elem_of_nil in Hmem; contradiction.
Qed.

Section ReadHandler.

Variable JSON_parse : JSString -> option JSValue.

(** A message reaches [onMessage] only from a payload within the
    ceiling that parsed. *)
Lemma onMessageText_dispatches (srv : Server) (socket : SocketId) (text : JSString)
    (m : JSValue) (s : SocketId) :
  OnMessage m s ∈ (onMessageText JSON_parse srv socket text).2 ->
  slen text <= MAX_MESSAGE_SIZE /\ JSON_parse text = Some m /\ s = socket.
Proof.
  unfold onMessageText.
  destruct (Z.gtb_spec (slen text) MAX_MESSAGE_SIZE) as [Hbig|Hfit].
  - intros Hin. apply sendMessage_effects in Hin as [Hin|[frame Hin]];
      discriminate Hin.
  - destruct (JSON_parse text) as [message|]; cbn [snd]; intros Hin.
    + apply list_elem_of_singleton in Hin. injection Hin as -> ->.
      repeat split. lia.
    + apply elem_of_nil in Hin. contradiction.
Qed.

Lemma forEachMessage_dispatches (socket : SocketId) (texts : list JSString)
    (m : JSValue) (s : SocketId) :
  forall srv,
    OnMessage m s ∈ (forEachMessage JSON_parse srv socket texts).2 ->
    exists text, text ∈ texts /\ slen text <= MAX_MESSAGE_SIZE
                 /\ JSON_parse text = Some m /\ s = socket.
Proof.
  induction texts as [|text rest IH]; intros srv; cbn [forEachMessage].
  - cbn [snd]. intros H. apply elem_of_nil in H. contradiction.
  - pose proof (onMessageText_dispatches srv socket text m s) as Hfirst.
    destruct (onMessageText JSON_parse srv socket text) as [srv1 effects1].
    pose proof (IH srv1) as Hrest.
    destruct (forEachMessage JSON_parse srv1 socket rest) as [srv2 effects2].
    cbn [snd] in *. intros H. apply elem_of_app in H as [H|H].
    + exists text. split; [apply list_elem_of_here | apply Hfirst, H].
    + destruct (Hrest H) as (text' & Hin & Hrest').
      exists text'. split; [apply list_elem_of_further, Hin | exact Hrest'].
Qed.

(** C4. A decoded payload longer than the message-size ceiling: the
    callback of the read handler does exactly what
    [sendMessage(socket, error -32600)] does, which on an open, writable
    socket is to write one frame carrying that error; it never calls
    [onMessage]. And whatever chunk a connection receives, every message
    the read handler passes to [onMessage] comes from a payload within
    the ceiling. *)
Theorem oversized_message_rejected (srv : Server) (socket : SocketId)
    (messageText : JSString) :
  slen messageText > MAX_MESSAGE_SIZE ->
  onMessageText JSON_parse srv socket messageText =
    sendMessage srv socket messageTooLarge
  /\ (destroyed (flagsOf srv socket) = false ->
      writable (flagsOf srv socket) = true ->
      onMessageText JSON_parse srv socket messageText =
        (srv, [SocketWrite socket (createWebSocketFrame messageTooLargeText)]))
  /\ (forall m s, OnMessage m s ∉ (onMessageText JSON_parse srv socket messageText).2)
  /\ (forall buffer data m s,
        OnMessage m s ∈ (onData JSON_parse srv socket buffer data).2 ->
        exists text,
          text ∈ parsed (parseWebSocketFrames data buffer)
          /\ slen text <= MAX_MESSAGE_SIZE /\ JSON_parse text = Some m).
Proof.
  intros Hbig.
  assert (Hcall : onMessageText JSON_parse srv socket messageText =
                  sendMessage srv socket messageTooLarge).
  { unfold onMessageText.
    destruct (Z.gtb_spec (slen messageText) MAX_MESSAGE_SIZE); [reflexivity|lia]. }
  repeat split.
  - exact Hcall.
  - intros Hd Hw. rewrite Hcall. unfold sendMessage.
    rewrite Hd, Hw, messageTooLarge_text. reflexivity.
  - intros m s H. apply onMessageText_dispatches in H. lia.
  - intros buffer data m s. unfold onData.
    destruct (_ >? _).
    + intros H. apply cleanupConnection_effects in H. discriminate H.
    + intros H. apply forEachMessage_dispatches in H as (text & Hin & Hle & Hp & _).
      exists text. auto.
Qed.

End ReadHandler.

Lemma oversizedText_length : slen oversizedText > MAX_MESSAGE_SIZE.
Proof.
  unfold oversizedText, slen. rewrite length_replicate.
  unfold MAX_MESSAGE_SIZE. lia.
Qed.

Lemma oversized_message_rejected_witness :
  slen oversizedText > MAX_MESSAGE_SIZE
  /\ onMessageText noParse newServer 1%nat oversizedText =
       (newServer, [SocketWrite 1%nat (createWebSocketFrame messageTooLargeText)]).
Proof.
  split; [exact oversizedText_length|].
  exact (proj1 (proj2 (oversized_message_rejected noParse newServer 1%nat
                         oversizedText oversizedText_length))
           eq_refl eq_refl).
Defined.

(** ** The dispatcher *)

Module MCPHandlerFacts.
Import MCPHandler.

(** What the [catch] of [handleMessage] does with a failure: an
    internal-error response with the text of the failure when the [id]
    is truthy, nothing otherwise. *)
Lemma handleMessage_catch (app : App) (message : JSValue) (socket : SocketId)
    (sent : list Sent) (text id : JSValue) :
  dispatch app message socket = (sent, Threw text) ->
  getProp message (js "id") = Some id ->
  handleMessage app message socket =
  (if truthy id then sent ++ [(socket, errorResponse id (-32603) text)] else sent,
   Returned).
Proof.
  intros Hd Hid. unfold handleMessage. rewrite Hd, Hid.
  destruct (truthy id); reflexivity.
Qed.





(** C5, where the code departs from it. A notification for a method the
    dispatcher does not know is answered with a "Method not found" error;
    and a request whose id is 0 gets no answer when its handler throws,
    though it had an id. *)
Theorem notification_error_divergence :
  handleMessage idleApp
    (jsonObject [("jsonrpc", JString (js "2.0")); ("method", JString (js "bogus"))])
    3%nat =
  ([(3%nat, errorResponse JUndefined (-32601) (JString (js "Method not found")))],
   Returned)
  /\ handleMessage idleApp
       (jsonObject [("jsonrpc", JString (js "2.0")); ("id", JNumber 0);
                 ("method", JString (js "workspace/selection"))]) 3%nat =
     ([], Returned).
Proof. split; reflexivity. Qed.

(** On a notification that reaches a handler, the part of C5 the code
    keeps: a handler that throws sends nothing when the message has no
    id. *)
Lemma notification_throw_silent (app : App) (message : JSValue) (socket : SocketId)
    (sent : list Sent) (text : JSValue) :
  dispatch app message socket = (sent, Threw text) ->
  getProp message (js "id") = Some JUndefined ->
  handleMessage app message socket = (sent, Returned).
Proof.
  intros Hd Hid. rewrite (handleMessage_catch _ _ _ _ _ _ Hd Hid). reflexivity.
Qed.

End MCPHandlerFacts.

(** ** From the dispatcher to the wire *)

(** On an open, writable socket [sendMessage] writes one frame, the
    frame of the JSON text of the message, when the text is within the
    ceiling. *)
Lemma sendMessage_live (srv : Server) (socket : SocketId) (answer : JSValue)
    (payload : JSString) :
  destroyed (flagsOf srv socket) = false ->
  writable (flagsOf srv socket) = true ->
  JSON_stringify answer = Some payload ->
  slen payload <= MAX_MESSAGE_SIZE ->
  sendMessage srv socket answer =
  (srv, [SocketWrite socket (createWebSocketFrame payload)]).
Proof.
  intros Hd Hw Hj Hfit. unfold sendMessage. rewrite Hd, Hw, Hj.
  destruct (Z.gtb_spec (slen payload) MAX_MESSAGE_SIZE); [lia | reflexivity].
Qed.

Example method_not_found_on_the_wire :
  JSON_stringify
    (MCPHandler.errorResponse (JNumber 2) (-32601) (JString (js "Method not found"))) =
  Some (dq "{'jsonrpc':'2.0','id':2,'error':{'code':-32601,'message':'Method not found'}}").
Proof. vm_compute. reflexivity. Qed.

(** ** The earlier revision *)

Section LegacyFacts.

Variable sha1_base64 : JSString -> JSString.

(** Below the ceiling, and with the key header a single string, both
    revisions treat an upgrade request alike. *)
Lemma legacy_upgrade_agrees (srv : Server) (request : UpgradeRequest)
    (socket : SocketId) :
  size srv < MAX_CONNECTIONS ->
  (forall values, headers request !! "sec-websocket-key" <> Some (HArray values)) ->
  Legacy.handleWebSocketUpgrade sha1_base64 srv request socket =
  handleWebSocketUpgrade sha1_base64 srv request socket.
Proof.
  intros Hroom Hstr. unfold Legacy.handleWebSocketUpgrade, handleWebSocketUpgrade.
  destruct (headers request !! "sec-websocket-key") as [[key|values]|];
    [| exfalso; eapply Hstr; reflexivity | reflexivity].
  cbn [firstValue missing headerMissing].
  destruct key as [|c key]; [reflexivity|].
  destruct (headerMissing _); [reflexivity|].
  destruct (differsFrom _ _); [reflexivity|].
  destruct (Z.geb_spec (size srv) MAX_CONNECTIONS); [lia|]. reflexivity.
Qed.

(** The read handler of the earlier revision passes a payload of any
    length to [JSON.parse]. *)
Lemma legacy_read_unbounded (JSON_parse : JSString -> option JSValue)
    (srv : Server) (socket : SocketId) (messageText : JSString) (m : JSValue) :
  JSON_parse messageText = Some m ->
  Legacy.onMessageText JSON_parse srv socket messageText =
  (srv, [OnMessage m socket]).
Proof. intros H. unfold Legacy.onMessageText. rewrite H. reflexivity. Qed.

(** The earlier revision has no ceiling: the eleventh client is let in. *)
Example legacy_upgrade_beyond_ten :
  (Legacy.handleWebSocketUpgrade plainDigest fullServer goodRequest 11%nat).2 =
    [SocketWriteText 11%nat
       (switchingProtocols
          (plainDigest (js "dGhlIHNhbXBsZSBub25jZQ=="
                        ++ js "258EAFA5-E914-47DA-95CA-C5AB0DC85B11")));
     OnConnection 11%nat]
  /\ connections (Legacy.handleWebSocketUpgrade plainDigest fullServer goodRequest 11%nat).1 =
     seq 1 11.
Proof. split; vm_compute; reflexivity. Qed.

End LegacyFacts.

(** ** The upgrade handler and the dispatcher on the examples of the design notes *)

(** No authorization header, a wrong one, the right one: 401, 401,
    established. *)
Example auth_enforcement :
  let srv := setAuthToken newServer someToken in
  (handleWebSocketUpgrade plainDigest srv anonymousRequest 1%nat).2 =
    [SocketEnd 1%nat
       (unauthorized "Missing authentication header: x-claude-code-ide-authorization")]
  /\ (handleWebSocketUpgrade plainDigest srv wrongRequest 2%nat).2 =
       [SocketEnd 2%nat (unauthorized "Invalid authentication token")]
  /\ connections (handleWebSocketUpgrade plainDigest srv goodRequest 3%nat).1 = [3%nat].
Proof. repeat split; vm_compute; reflexivity. Qed.

(** Conversion to string, and the order of the properties in JSON text. *)
Example string_conversion :
  toStr (JArray [JNumber 1; JNull; JArray [JString (js "a"); JBool true]]) =
    Some (js "1,,a,true")
  /\ toStr (jsonObject [("a", JNumber 1)]) = Some (js "[object Object]")
  /\ toStr (jsonObject [("toString", JNull)]) = None
  /\ toStr (JArray [jsonObject [("toString", JNull)]]) = None
  /\ toStr (JFloat (js "1e+21")) = Some (js "1e+21").
Proof. repeat split. Qed.

Example json_key_order :
  JSON_stringify
    (jsonObject [("b", JNumber 1); ("10", JNumber 2); ("2", JNumber 3);
                 ("01", JNumber 4); ("id", JFloat (js "1e+21"))]) =
  Some (dq "{'2':3,'10':2,'b':1,'01':4,'id':1e+21}").
Proof. vm_compute. reflexivity. Qed.

(** A method without a string conversion: the template literal throws
    before the [switch]; the [catch] answers an id that is truthy and
    stays silent for the id 0. *)
Example method_without_string :
  MCPHandler.handleMessage idleApp
    (jsonObject [("method", jsonObject [("toString", JNull)]); ("id", JNumber 5)])
    5%nat =
    ([(5%nat, MCPHandler.errorResponse (JNumber 5) (-32603) notPrimitive)],
     MCPHandler.Returned)
  /\ MCPHandler.handleMessage idleApp
       (jsonObject [("method", jsonObject [("toString", JNull)]); ("id", JNumber 0)])
       5%nat =
     ([], MCPHandler.Returned).
Proof. split; reflexivity. Qed.

Example dispatcher_routing :
  MCPHandler.handleMessage idleApp
    (jsonObject [("method", JString (js "initialize")); ("id", JNumber 1)]) 5%nat =
    ([(5%nat, MCPHandler.response (JNumber 1) MCPHandler.initializeResult)],
     MCPHandler.Returned)
  /\ MCPHandler.handleMessage idleApp
       (jsonObject [("method", JString (js "bogus")); ("id", JNumber 2)]) 5%nat =
     ([(5%nat, MCPHandler.errorResponse (JNumber 2) (-32601)
                 (JString (js "Method not found")))],
      MCPHandler.Returned)
  /\ MCPHandler.handleMessage idleApp
       (jsonObject [("method", JString (js "initialized"))]) 5%nat =
     ([], MCPHandler.Returned).
Proof. repeat split. Qed.

(** * The code around the claims *)

(** ** Frames of a client: masked payloads *)

Lemma lxor_byte (a k : Z) :
  0 <= a < 256 -> 0 <= k < 256 -> 0 <= Z.lxor a k < 256.
Proof.
  intros Ha Hk.
  assert (Hnn : 0 <= Z.lxor a k) by (apply Z.lxor_nonneg; lia).
  split; [exact Hnn|].
  destruct (Z.eq_dec (Z.lxor a k) 0) as [->|Hne]; [lia|].
  apply (Z.log2_lt_pow2 _ 8); [lia|].
  pose proof (Z.log2_lxor a k ltac:(lia) ltac:(lia)) as Hlog.
  assert (Hbyte : forall x, 0 <= x < 256 -> Z.log2 x < 8).
  { intros x Hx. destruct (Z.eq_dec x 0) as [->|Hx0]; [reflexivity|].
    apply Z.log2_lt_pow2; lia. }
  pose proof (Hbyte a Ha). pose proof (Hbyte k Hk). lia.
Qed.

(** Unmasking twice with the same key gives the payload back: masking
    and unmasking are the same XOR. *)
Lemma unmask_unmask (payload maskKey : Buffer) :
  unmask (unmask payload maskKey) maskKey = payload.
Proof.
  unfold unmask.
  assert (Hany : forall g : nat -> Z, (forall i, exists b, g i = b2z b) ->
            imap (fun i b => z2b (Z.lxor (b2z b) (g i)))
              (imap (fun i b => z2b (Z.lxor (b2z b) (g i))) payload) = payload).
  { induction payload as [|b rest IH]; intros g Hg; [reflexivity|].
    rewrite !imap_cons. f_equal.
    - destruct (Hg 0%nat) as [k ->].
      pose proof (b2z_range b). pose proof (b2z_range k).
      rewrite b2z_z2b_small by (apply lxor_byte; assumption).
      rewrite Z.lxor_assoc, Z.lxor_nilpotent, Z.lxor_0_r. apply z2b_b2z.
    - apply (IH (g ∘ S)). intros i. apply Hg. }
  apply (Hany (fun i => byte_at maskKey (Z.of_nat i mod 4))).
  intros i. unfold byte_at. eexists. reflexivity.
Qed.

(** X1. What a client sends: a complete text frame whose payload is the
    UTF-8 encoding of a well-formed string masked with the frame's
    four-byte key (the XOR of RFC 6455, the one the decoder applies) is
    decoded to that string, whatever the key and the length form; the
    bytes behind the frame are decoded as if they came alone. *)
Theorem masked_frame_round_trip (fr : WireFrame) (s : JSString) (post : Buffer) :
  wellFramed fr ->
  wf_opcode fr = 0x1 ->
  wf_masked fr = true ->
  wf_payload fr = unmask (Utf8.encode s) (wf_maskKey fr) ->
  Utf8.isWellFormed s = true ->
  parseWebSocketFrames (wire fr ++ post) [] =
  {| parsed := s :: parsed (parseWebSocketFrames post []);
     remaining := remaining (parseWebSocketFrames post []) |}.
Proof.
  intros Hwf Hop Hmask Hpay Hs.
  rewrite (frame_then_rest fr post Hwf). unfold wf_text.
  rewrite Hop, Hmask, Hpay, unmask_unmask, Utf8Facts.decode_encode by exact Hs.
  reflexivity.
Qed.

Lemma masked_frame_round_trip_witness :
  wellFramed maskedHi
  /\ wf_opcode maskedHi = 0x1
  /\ wf_masked maskedHi = true
  /\ wf_payload maskedHi = unmask (Utf8.encode (js "hi")) (wf_maskKey maskedHi)
  /\ Utf8.isWellFormed (js "hi") = true
  /\ parseWebSocketFrames (bytes [0x81; 0x82; 1; 2; 3; 4; 0x69; 0x6B]) [] =
     {| parsed := [js "hi"]; remaining := [] |}.
Proof.
  assert (Hwf : wellFramed maskedHi) by (repeat split).
  exact (conj Hwf (conj eq_refl (conj eq_refl (conj eq_refl (conj eq_refl
           (masked_frame_round_trip maskedHi (js "hi") [] Hwf eq_refl eq_refl
              eq_refl eq_refl)))))).
Defined.

(** ** The read handler: segments, writes, buffers *)

Lemma keepsStore_refl (srv : Server) : keepsStore srv srv.
Proof. split; reflexivity. Qed.

Lemma keepsStore_trans (a b c : Server) :
  keepsStore a b -> keepsStore b c -> keepsStore a c.
Proof. intros [H1 H2] [H3 H4]. split; congruence. Qed.

Lemma cleanupConnection_store (srv : Server) (socket : SocketId) :
  keepsStore srv (cleanupConnection srv socket).1.
Proof. unfold cleanupConnection. destruct (negb _); split; reflexivity. Qed.

Lemma sendMessage_store (srv : Server) (socket : SocketId) (message : JSValue) :
  keepsStore srv (sendMessage srv socket message).1.
Proof.
  unfold sendMessage.
  repeat match goal with
         | |- context [if ?c then _ else _] => destruct c
         | |- context [match ?x with Some _ => _ | None => _ end] => destruct x
         end;
    try apply cleanupConnection_store; apply keepsStore_refl.
Qed.

Lemma forEachSocket_store (f : Server -> SocketId -> Server * list Effect)
    (l : list SocketId) :
  (forall srv socket, keepsStore srv (f srv socket).1) ->
  forall srv, keepsStore srv (forEachSocket f srv l).1.
Proof.
  intros Hf. induction l as [|socket rest IH]; intros srv.
  - apply keepsStore_refl.
  - cbn [forEachSocket]. pose proof (Hf srv socket) as H1.
    destruct (f srv socket) as [srv1 effects1]. pose proof (IH srv1) as H2.
    destruct (forEachSocket f srv1 rest) as [srv2 effects2].
    eapply keepsStore_trans; eassumption.
Qed.

Section ReadFacts.

Variable JSON_parse : JSString -> option JSValue.
Variable sha1_base64 : JSString -> JSString.

Lemma forEachMessage_within (socket : SocketId) (texts : list JSString) (srv : Server) :
  (forall text, text ∈ texts -> slen text <= MAX_MESSAGE_SIZE) ->
  forEachMessage JSON_parse srv socket texts = (srv, dispatched JSON_parse socket texts).
Proof.
  induction texts as [|text rest IH]; intros Hfit; [reflexivity|].
  cbn [forEachMessage]. unfold onMessageText at 1.
  destruct (Z.gtb_spec (slen text) MAX_MESSAGE_SIZE) as [Hbig|_].
  { specialize (Hfit text (list_elem_of_here _ _)). lia. }
  assert (Hrest : forall t, t ∈ rest -> slen t <= MAX_MESSAGE_SIZE)
    by (intros t Ht; apply Hfit, list_elem_of_further, Ht).
  specialize (IH Hrest).
  destruct (JSON_parse text) as [m|] eqn:E; rewrite IH;
    unfold dispatched; cbn [omap list_omap]; rewrite E; reflexivity.
Qed.

Lemma onData_within (srv : Server) (socket : SocketId) (buffer data : Buffer) :
  blen buffer + blen data <= MAX_BUFFER_SIZE ->
  onData JSON_parse srv socket buffer data =
  (withBuffer srv socket (remaining (parseWebSocketFrames data buffer)),
   dispatched JSON_parse socket (parsed (parseWebSocketFrames data buffer))).
Proof.
  intros Hcap. unfold onData.
  destruct (Z.gtb_spec (blen buffer + blen data) MAX_BUFFER_SIZE); [lia|].
  apply forEachMessage_within. intros text Hin.
  eapply payload_within_ceiling; eassumption.
Qed.

Lemma remaining_length (data buffer : Buffer) :
  blen (remaining (parseWebSocketFrames data buffer)) <= blen buffer + blen data.
Proof.
  destruct (parse_offset data buffer) as (off & Hoff & _ & ->).
  unfold subarray_from, blen in *. rewrite length_drop, ?length_app in *. lia.
Qed.

Lemma withBuffer_twice (srv : Server) (socket : SocketId) (b1 b2 : Buffer) :
  withBuffer (withBuffer srv socket b1) socket b2 = withBuffer srv socket b2.
Proof.
  unfold withBuffer. cbn. f_equal. rewrite insert_insert.
  destruct (decide (socket = socket)); [reflexivity | contradiction].
Qed.

(** X2. How the bytes of a connection are cut into [data] events does
    not matter: while buffer and chunks stay within the buffer limit, two
    events with the chunks [chunk1] and [chunk2] leave the server in the
    state, and pass to [onMessage] the messages, of one event with
    [chunk1 ++ chunk2]. *)
Theorem data_in_two_segments (srv : Server) (socket : SocketId)
    (buffer chunk1 chunk2 : Buffer) :
  buffers srv !! socket = Some buffer ->
  blen buffer + blen chunk1 + blen chunk2 <= MAX_BUFFER_SIZE ->
  run JSON_parse sha1_base64 srv [Data socket chunk1; Data socket chunk2] =
  step JSON_parse sha1_base64 srv (Data socket (chunk1 ++ chunk2)).
Proof.
  intros Hbuf Hcap.
  pose proof (blen_nonneg chunk1). pose proof (blen_nonneg chunk2).
  pose proof (blen_nonneg buffer).
  pose proof (remaining_length chunk1 buffer) as Hrem.
  cbn [run step]. rewrite Hbuf.
  rewrite (onData_within srv socket buffer chunk1) by lia.
  rewrite (onData_within srv socket buffer (chunk1 ++ chunk2))
    by (rewrite blen_app; lia).
  cbn [withBuffer buffers]. rewrite lookup_insert.
  destruct (decide (socket = socket)); [|contradiction].
  match goal with
  | |- context [onData _ ?s _ _ _] =>
    change s with (withBuffer srv socket
                     (remaining (parseWebSocketFrames chunk1 buffer)))
  end.
  rewrite onData_within by lia.
  rewrite withBuffer_twice, app_nil_r.
  pose proof (chunked_feed chunk1 chunk2 buffer) as Hfeed. cbn zeta in Hfeed.
  rewrite Hfeed. cbn [parsed remaining].
  unfold dispatched. rewrite omap_app. reflexivity.
Qed.

(** X3. The data handler never writes to the socket: whatever the buffer
    and the chunk, all it does is pass messages of this socket to
    [onMessage], or destroy this socket. In particular the "Message too
    large" answer of its callback is never sent from here: a payload
    decoded from at most [MAX_BUFFER_SIZE] bytes is within
    [MAX_MESSAGE_SIZE]. *)
Theorem data_handler_never_writes (srv : Server) (socket : SocketId)
    (buffer data : Buffer) (e : Effect) :
  e ∈ (onData JSON_parse srv socket buffer data).2 ->
  e = SocketDestroy socket
  \/ exists text m,
       text ∈ parsed (parseWebSocketFrames data buffer)
       /\ JSON_parse text = Some m /\ e = OnMessage m socket.
Proof.
  destruct (Z.le_gt_cases (blen buffer + blen data) MAX_BUFFER_SIZE) as [Hcap|Hover].
  - rewrite onData_within by exact Hcap. cbn [snd]. unfold dispatched.
    intros Hin. apply list_elem_of_omap in Hin as (text & Htext & Hm).
    destruct (JSON_parse text) as [m|] eqn:E; [|discriminate].
    injection Hm as <-. right. exists text, m. auto.
  - unfold onData.
    destruct (Z.gtb_spec (blen buffer + blen data) MAX_BUFFER_SIZE); [|lia].
    intros Hin. left. apply cleanupConnection_effects in Hin. exact Hin.
Qed.

Lemma onMessageText_store (srv : Server) (socket : SocketId) (text : JSString) :
  keepsStore srv (onMessageText JSON_parse srv socket text).1.
Proof.
  unfold onMessageText. destruct (_ >? _); [apply sendMessage_store|].
  destruct (JSON_parse text); apply keepsStore_refl.
Qed.

Lemma forEachMessage_store (socket : SocketId) (messages : list JSString) :
  forall srv, keepsStore srv (forEachMessage JSON_parse srv socket messages).1.
Proof.
  induction messages as [|text rest IH]; intros srv.
  - apply keepsStore_refl.
  - cbn [forEachMessage]. pose proof (onMessageText_store srv socket text) as H1.
    destruct (onMessageText JSON_parse srv socket text) as [srv1 effects1].
    pose proof (IH srv1) as H2.
    destruct (forEachMessage JSON_parse srv1 socket rest) as [srv2 effects2].
    eapply keepsStore_trans; eassumption.
Qed.

(** Where the buffer of a connection comes from: it was there before
    the step, or it is the empty buffer of a new connection, or what the
    decoder left of a chunk that passed the size check. *)
Lemma step_buffers (srv : Server) (e : Event) (s : SocketId) (b : Buffer) :
  buffers (step JSON_parse sha1_base64 srv e).1 !! s = Some b ->
  buffers srv !! s = Some b
  \/ b = []
  \/ exists buffer data,
       blen buffer + blen data <= MAX_BUFFER_SIZE
       /\ b = remaining (parseWebSocketFrames data buffer).
Proof.
  destruct e as [request socket|socket data|socket|socket| | | | | |]; cbn [step].
  - destruct (handleWebSocketUpgrade_result sha1_base64 srv request socket)
      as [?|? ? ?|? ? ?|key ? ? ? ?]; try (intros Hsame; left; exact Hsame).
    cbn [fst buffers withBuffer withConnections]. rewrite lookup_insert.
    destruct (decide (socket = s)); [intros [= <-]; right; left; reflexivity|].
    intros Hsame; left; exact Hsame.
  - destruct (buffers srv !! socket) as [buffer|] eqn:Hb; [|intros Hsame; left; exact Hsame].
    destruct (Z.le_gt_cases (blen buffer + blen data) MAX_BUFFER_SIZE) as [Hcap|Hover].
    + rewrite onData_within by exact Hcap. cbn [fst buffers withBuffer].
      rewrite lookup_insert. destruct (decide (socket = s)).
      * intros [= <-]. right. right. exists buffer, data. auto.
      * intros Hsame; left; exact Hsame.
    + unfold onData.
      destruct (Z.gtb_spec (blen buffer + blen data) MAX_BUFFER_SIZE); [|lia].
      destruct (cleanupConnection_store srv socket) as [-> _].
      intros Hsame; left; exact Hsame.
  - destruct (buffers srv !! socket); intros Hsame; left; exact Hsame.
  - destruct (buffers srv !! socket); [|intros Hsame; left; exact Hsame].
    unfold onError. destruct (cleanupConnection_store srv socket) as [-> _].
    intros Hsame; left; exact Hsame.
  - unfold healthCheck.
    match goal with
    | |- context [forEachSocket ?f ?s0 ?l] =>
      assert (Hk : keepsStore s0 (forEachSocket f s0 l).1)
    end.
    { apply forEachSocket_store. intros srv' socket.
      destruct (_ || _); split; reflexivity. }
    destruct Hk as [-> _]. intros Hsame; left; exact Hsame.
  - destruct (sendMessage_store srv socket message) as [-> _].
    intros Hsame; left; exact Hsame.
  - unfold broadcast.
    match goal with
    | |- context [forEachSocket ?f ?s0 ?l] =>
      assert (Hk : keepsStore s0 (forEachSocket f s0 l).1)
    end.
    { apply forEachSocket_store. intros srv' socket.
      destruct (_ && _); [apply sendMessage_store | apply cleanupConnection_store]. }
    destruct Hk as [-> _]. intros Hsame; left; exact Hsame.
  - intros Hsame; left; exact Hsame.
  - unfold stop.
    pose proof (forEachSocket_store cleanupConnection (connections srv)
                  cleanupConnection_store srv) as [Hk _].
    destruct (forEachSocket cleanupConnection srv (connections srv)) as [srv' effects].
    cbn [fst buffers withConnections] in *. rewrite Hk. intros Hsame; left; exact Hsame.
  - intros Hsame; left; exact Hsame.
Qed.

(** X4. The receive buffers stay bounded and hold no complete frame:
    after any sequence of events, the buffer of every connection is at
    most [MAX_BUFFER_SIZE] bytes long, and decoding it again yields no
    message and leaves it as it is. *)
Theorem receive_buffer_invariant (events : list Event) (socket : SocketId)
    (buffer : Buffer) :
  buffers (run JSON_parse sha1_base64 newServer events).1 !! socket = Some buffer ->
  blen buffer <= MAX_BUFFER_SIZE
  /\ parseWebSocketFrames [] buffer = {| parsed := []; remaining := buffer |}.
Proof.
  assert (Hgen : forall events srv,
            (forall s b, buffers srv !! s = Some b ->
               blen b <= MAX_BUFFER_SIZE
               /\ parseWebSocketFrames [] b = {| parsed := []; remaining := b |}) ->
            forall s b,
              buffers (run JSON_parse sha1_base64 srv events).1 !! s = Some b ->
              blen b <= MAX_BUFFER_SIZE
              /\ parseWebSocketFrames [] b = {| parsed := []; remaining := b |}).
  { clear. induction events as [|e rest IH]; intros srv Hinv s b; [apply Hinv|].
    rewrite run_cons. apply IH. clear s b. intros s b Hb.
    apply step_buffers in Hb as [Hold|[->|(buffer & data & Hcap & ->)]].
    - exact (Hinv s b Hold).
    - split; [vm_compute; discriminate | reflexivity].
    - split; [|apply remaining_is_kept].
      pose proof (remaining_length data buffer). lia. }
  apply Hgen. intros s b Hb. cbn [newServer buffers] in Hb.
  rewrite lookup_empty in Hb. discriminate.
Qed.

End ReadFacts.

(** ** The connection set: cleanup, health check, broadcast, stop *)

Lemma filter_agree {A} (P Q : A -> Prop) `{forall x, Decision (P x)}
    `{forall x, Decision (Q x)} (l : list A) :
  (forall x, x ∈ l -> (P x <-> Q x)) -> filter P l = filter Q l.
Proof.
  induction l as [|a l IH]; intros Hpq; [reflexivity|].
  rewrite !filter_cons.
  pose proof (Hpq a (list_elem_of_here _ _)) as Ha.
  rewrite IH by (intros x Hx; apply Hpq, list_elem_of_further, Hx).
  destruct (decide (P a)), (decide (Q a)); tauto.
Qed.

Lemma filter_all {A} (P : A -> Prop) `{forall x, Decision (P x)} (l : list A) :
  (forall x, x ∈ l -> P x) -> filter P l = l.
Proof.
  induction l as [|a l IH]; intros Hp; [reflexivity|].
  rewrite filter_cons_True by apply Hp, list_elem_of_here.
  rewrite IH by (intros x Hx; apply Hp, list_elem_of_further, Hx). reflexivity.
Qed.

Lemma setDelete_twice (socket : SocketId) (set : list SocketId) :
  setDelete socket (setDelete socket set) = setDelete socket set.
Proof.
  unfold setDelete. rewrite list_filter_filter. apply list_filter_iff. tauto.
Qed.

Lemma setDelete_elem (socket x : SocketId) (set : list SocketId) :
  x ∈ setDelete socket set <-> x <> socket /\ x ∈ set.
Proof. unfold setDelete. apply (list_elem_of_filter (fun y => y <> socket)). Qed.

Lemma live_flags (srv srv' : Server) (socket : SocketId) :
  flagsOf srv' socket = flagsOf srv socket -> live srv' socket = live srv socket.
Proof. unfold live. intros ->. reflexivity. Qed.

Lemma flagsOf_withConnections (srv : Server) (c : list SocketId) (s : SocketId) :
  flagsOf (withConnections srv c) s = flagsOf srv s.
Proof. reflexivity. Qed.

Lemma flagsOf_withFlags (srv : Server) (socket s : SocketId) (f : SocketFlags) :
  flagsOf (withFlags srv socket f) s = if decide (socket = s) then f else flagsOf srv s.
Proof.
  unfold flagsOf, withFlags. cbn [sockets]. rewrite lookup_insert.
  destruct (decide (socket = s)); reflexivity.
Qed.

(** What [cleanupConnection] does, field by field. *)
Lemma cleanupConnection_spec (srv : Server) (socket : SocketId) :
  let r := cleanupConnection srv socket in
  connections r.1 = setDelete socket (connections srv)
  /\ buffers r.1 = buffers srv
  /\ authToken r.1 = authToken srv
  /\ destroyed (flagsOf r.1 socket) = true
  /\ (forall s, s <> socket -> flagsOf r.1 s = flagsOf srv s)
  /\ (destroyed (flagsOf srv socket) = true -> flagsOf r.1 socket = flagsOf srv socket)
  /\ r.2 = if destroyed (flagsOf srv socket) then [] else [SocketDestroy socket].
Proof.
  cbn zeta. unfold cleanupConnection. rewrite flagsOf_withConnections.
  destruct (destroyed (flagsOf srv socket)) eqn:Hd; cbn [negb fst snd socketDestroy].
  - repeat split; try reflexivity. rewrite flagsOf_withConnections. exact Hd.
  - repeat split; try reflexivity.
    + rewrite flagsOf_withFlags. destruct (decide (socket = socket)); [reflexivity|contradiction].
    + intros s Hs. rewrite flagsOf_withFlags.
      destruct (decide (socket = s)); [congruence | reflexivity].
    + discriminate.
Qed.

(** X5. [cleanupConnection] removes the socket from the set and leaves
    it destroyed, destroying it only if it was not; every other
    connection keeps its place, and a second call for the same socket
    changes nothing and destroys nothing again. *)
Theorem cleanup_once (srv : Server) (socket : SocketId) :
  let cleaned := (cleanupConnection srv socket).1 in
  (socket ∉ connections cleaned)
  /\ destroyed (flagsOf cleaned socket) = true
  /\ (forall s, s <> socket -> (s ∈ connections cleaned <-> s ∈ connections srv))
  /\ cleanupConnection cleaned socket = (cleaned, []).
Proof.
  cbn zeta.
  destruct (cleanupConnection_spec srv socket) as (Hc & Hb & Ha & Hd & Hothers & _ & _).
  repeat split.
  - rewrite Hc, setDelete_elem. tauto.
  - exact Hd.
  - rewrite Hc, setDelete_elem. tauto.
  - rewrite Hc, setDelete_elem. tauto.
  - revert Hc Hd. generalize (cleanupConnection srv socket).1. intros cleaned Hc Hd.
    unfold cleanupConnection. rewrite flagsOf_withConnections, Hd. cbn [negb].
    rewrite Hc, setDelete_twice, <- Hc. destruct cleaned. reflexivity.
Qed.

(** The loop of the health check: it filters the set and touches
    nothing else. *)
Lemma healthCheck_loop (l : list SocketId) :
  forall srv0,
    let r := forEachSocket
               (fun srv socket =>
                  if destroyed (flagsOf srv socket) || negb (writable (flagsOf srv socket))
                  then (withConnections srv (setDelete socket (connections srv)), [])
                  else (srv, []))
               srv0 l in
    r.2 = []
    /\ sockets r.1 = sockets srv0
    /\ buffers r.1 = buffers srv0
    /\ authToken r.1 = authToken srv0
    /\ connections r.1 =
       filter (fun x => ~ (x ∈ l /\ live srv0 x = false)) (connections srv0).
Proof.
  induction l as [|s rest IH]; intros srv0; cbn zeta.
  - cbn [forEachSocket fst snd]. repeat split.
    symmetry. apply filter_all.
    intros x _ [Hx _]. apply elem_of_nil in Hx. exact Hx.
  - cbn [forEachSocket].
    assert (Hdead : destroyed (flagsOf srv0 s) || negb (writable (flagsOf srv0 s))
                    = negb (live srv0 s)).
    { unfold live. destruct (destroyed _), (writable _); reflexivity. }
    rewrite Hdead. destruct (live srv0 s) eqn:Hlive; cbn [negb].
    + specialize (IH srv0). cbn zeta in IH.
      destruct (forEachSocket _ srv0 rest) as [srv2 effects2].
      cbn [fst snd] in *. destruct IH as (-> & -> & -> & -> & ->).
      repeat split. apply list_filter_iff. intros x.
      rewrite elem_of_cons. split.
      * intros Hn [[->|Hx] Hd]; [congruence | tauto].
      * intros Hn [Hx Hd]. apply Hn. tauto.
    + specialize (IH (withConnections srv0 (setDelete s (connections srv0)))).
      cbn zeta in IH.
      destruct (forEachSocket _ (withConnections srv0 _) rest) as [srv2 effects2].
      cbn [fst snd] in *. destruct IH as (-> & -> & -> & -> & ->).
      repeat split. cbn [connections withConnections]. unfold setDelete.
      rewrite list_filter_filter. apply list_filter_iff. intros x.
      rewrite elem_of_cons.
      change (live (withConnections srv0 (filter (fun y => y <> s) (connections srv0))) x)
        with (live srv0 x).
      split.
      * intros [Hn Hne] [[->|Hx] Hd]; [congruence | tauto].
      * intros Hn. split; [tauto|]. intros ->. apply Hn. tauto.
Qed.

(** X6. A tick of the health check removes from the set exactly the
    connections whose socket is destroyed or no longer writable, keeps
    the others in their order, and does nothing else: it writes to no
    socket, destroys none, and leaves buffers, flags and credential as
    they are. *)
Theorem health_check_sweeps_dead (srv : Server) :
  healthCheck srv =
  ({| connections := filter (fun s => live srv s = true) (connections srv);
      authToken := authToken srv;
      buffers := buffers srv;
      sockets := sockets srv |},
   []).
Proof.
  unfold healthCheck.
  pose proof (healthCheck_loop (connections srv) srv) as H. cbn zeta in H.
  destruct (forEachSocket _ srv (connections srv)) as [srv' effects].
  cbn [fst snd] in H. destruct H as (-> & Hs & Hb & Ha & Hc).
  f_equal. destruct srv' as [c a b s]. cbn [connections authToken buffers sockets] in *.
  subst. f_equal. apply filter_agree. intros x Hx.
  destruct (live srv x); split; intros H; try tauto; try congruence.
  intros [_ Hd]. discriminate.
Qed.

Lemma flat_map_agree {A B} (f g : A -> list B) (l : list A) :
  (forall x, x ∈ l -> f x = g x) -> flat_map f l = flat_map g l.
Proof.
  induction l as [|a l IH]; intros Hfg; [reflexivity|].
  cbn [flat_map]. rewrite (Hfg a) by apply list_elem_of_here.
  rewrite IH by (intros x Hx; apply Hfg, list_elem_of_further, Hx). reflexivity.
Qed.

(** The loop of [broadcast] for a message that serializes within the
    ceiling, over sockets each visited once. *)
Lemma broadcast_loop (message : JSValue) (payload : JSString) (l : list SocketId) :
  JSON_stringify message = Some payload ->
  slen payload <= MAX_MESSAGE_SIZE ->
  NoDup l ->
  forall srv0,
    let r := forEachSocket
               (fun srv socket =>
                  if negb (destroyed (flagsOf srv socket)) && writable (flagsOf srv socket)
                  then sendMessage srv socket message
                  else cleanupConnection srv socket)
               srv0 l in
    r.2 = flat_map
            (fun s => if live srv0 s then [SocketWrite s (createWebSocketFrame payload)]
                      else if destroyed (flagsOf srv0 s) then []
                      else [SocketDestroy s]) l
    /\ connections r.1 =
       filter (fun x => ~ (x ∈ l /\ live srv0 x = false)) (connections srv0)
    /\ buffers r.1 = buffers srv0
    /\ authToken r.1 = authToken srv0
    /\ (forall x, x ∉ l -> flagsOf r.1 x = flagsOf srv0 x)
    /\ (forall x, live srv0 x = true -> flagsOf r.1 x = flagsOf srv0 x).
Proof.
  intros Hj Hfit. induction l as [|s rest IH]; intros Hnd srv0; cbn zeta.
  - cbn [forEachSocket fst snd flat_map]. repeat split.
    symmetry. apply filter_all.
    intros x _ [Hx _]. apply elem_of_nil in Hx. exact Hx.
  - apply NoDup_cons in Hnd as [Hs Hnd]. specialize (IH Hnd).
    cbn [forEachSocket flat_map].
    change (negb (destroyed (flagsOf srv0 s)) && writable (flagsOf srv0 s))
      with (live srv0 s).
    destruct (live srv0 s) eqn:Hlive.
    + assert (Hd : destroyed (flagsOf srv0 s) = false /\ writable (flagsOf srv0 s) = true).
      { unfold live in Hlive. destruct (destroyed _), (writable _);
          try discriminate; auto. }
      rewrite (sendMessage_live srv0 s message payload (proj1 Hd) (proj2 Hd) Hj Hfit).
      specialize (IH srv0). cbn zeta in IH.
      destruct (forEachSocket _ srv0 rest) as [srv2 effects2].
      cbn [fst snd] in *. destruct IH as (-> & -> & -> & -> & Hout & Hkeep).
      repeat split.
      * apply list_filter_iff. intros x. rewrite elem_of_cons. split.
        -- intros Hn [[->|Hx] Hdead]; [congruence | tauto].
        -- intros Hn [Hx Hdead]. apply Hn. tauto.
      * intros x Hx. apply Hout. intros Hin. apply Hx, list_elem_of_further, Hin.
      * exact Hkeep.
    + destruct (cleanupConnection_spec srv0 s) as (Hc & Hb & Ha & _ & Hothers & _ & He).
      destruct (cleanupConnection srv0 s) as [srv1 effects1]. cbn [fst snd] in *.
      specialize (IH srv1). cbn zeta in IH.
      destruct (forEachSocket _ srv1 rest) as [srv2 effects2].
      cbn [fst snd] in *. destruct IH as (-> & -> & -> & -> & Hout & Hkeep).
      assert (Hlive1 : forall x, x <> s -> live srv1 x = live srv0 x)
        by (intros x Hx; apply live_flags, Hothers, Hx).
      repeat split.
      * rewrite He. f_equal. apply flat_map_agree. intros x Hx.
        assert (x <> s) by (intros ->; contradiction).
        rewrite Hlive1, Hothers by assumption. reflexivity.
      * rewrite Hc. unfold setDelete. rewrite list_filter_filter.
        apply list_filter_iff. intros x. rewrite elem_of_cons. split.
        -- intros [Hn Hne] [[->|Hx] Hdead]; [congruence|].
           apply Hn. rewrite Hlive1 by exact Hne. tauto.
        -- intros Hn. assert (Hne : x <> s) by (intros ->; apply Hn; tauto).
           split; [|exact Hne]. intros [Hx Hdead]. apply Hn.
           rewrite Hlive1 in Hdead by exact Hne. tauto.
      * congruence.
      * congruence.
      * intros x Hx. rewrite Hout by (intros Hin; apply Hx, list_elem_of_further, Hin).
        apply Hothers. intros ->. apply Hx, list_elem_of_here.
      * intros x Hx. assert (Hne : x <> s) by (intros ->; congruence).
        rewrite Hkeep by (rewrite Hlive1; assumption). apply Hothers, Hne.
Qed.

(** X7. [broadcast] of a message whose JSON text is within the ceiling:
    every connection whose socket is open and writable is written the
    frame of that text, once, in the order the connections were made, and
    stays in the set with its flags untouched; every other connection is
    removed from the set, and its socket destroyed unless it was already;
    no buffer changes. *)
Theorem broadcast_reaches_the_live (srv : Server) (message : JSValue)
    (payload : JSString) :
  NoDup (connections srv) ->
  JSON_stringify message = Some payload ->
  slen payload <= MAX_MESSAGE_SIZE ->
  (broadcast srv message).2 =
    flat_map
      (fun s => if live srv s then [SocketWrite s (createWebSocketFrame payload)]
                else if destroyed (flagsOf srv s) then []
                else [SocketDestroy s])
      (connections srv)
  /\ connections (broadcast srv message).1 =
     filter (fun s => live srv s = true) (connections srv)
  /\ buffers (broadcast srv message).1 = buffers srv
  /\ (forall s, live srv s = true ->
        flagsOf (broadcast srv message).1 s = flagsOf srv s).
Proof.
  intros Hnd Hj Hfit. unfold broadcast.
  pose proof (broadcast_loop message payload (connections srv) Hj Hfit Hnd srv) as H.
  cbn zeta in H.
  destruct (forEachSocket _ srv (connections srv)) as [srv' effects].
  cbn [fst snd] in *. destruct H as (-> & -> & -> & _ & _ & Hkeep).
  repeat split; [|exact Hkeep].
  apply filter_agree. intros x Hx.
  destruct (live srv x); split; intros H; try tauto; try congruence.
  intros [_ Hd]. discriminate.
Qed.

(** The loop of [stop], over sockets each visited once. *)
Lemma stop_loop (l : list SocketId) :
  NoDup l ->
  forall srv0,
    let r := forEachSocket cleanupConnection srv0 l in
    r.2 = map SocketDestroy (filter (fun s => destroyed (flagsOf srv0 s) = false) l)
    /\ (forall s, s ∈ l -> destroyed (flagsOf r.1 s) = true)
    /\ (forall s, s ∉ l -> flagsOf r.1 s = flagsOf srv0 s)
    /\ (forall s, destroyed (flagsOf srv0 s) = true -> flagsOf r.1 s = flagsOf srv0 s)
    /\ buffers r.1 = buffers srv0
    /\ authToken r.1 = authToken srv0.
Proof.
  induction l as [|s rest IH]; intros Hnd srv0; cbn zeta.
  - cbn [forEachSocket fst snd]. repeat split.
    intros s Hs. apply elem_of_nil in Hs. contradiction.
  - apply NoDup_cons in Hnd as [Hs Hnd]. specialize (IH Hnd).
    cbn [forEachSocket].
    destruct (cleanupConnection_spec srv0 s) as (Hc & Hb & Ha & Hd & Hothers & Hwas & He).
    destruct (cleanupConnection srv0 s) as [srv1 effects1]. cbn [fst snd] in *.
    specialize (IH srv1). cbn zeta in IH.
    destruct (forEachSocket _ srv1 rest) as [srv2 effects2].
    cbn [fst snd] in *. destruct IH as (-> & Hin & Hout & Hkeep & -> & ->).
    repeat split.
    + rewrite He, filter_cons.
      assert (Hrest : filter (fun x => destroyed (flagsOf srv1 x) = false) rest =
                      filter (fun x => destroyed (flagsOf srv0 x) = false) rest).
      { apply filter_agree. intros x Hx.
        rewrite Hothers by (intros ->; contradiction). reflexivity. }
      rewrite Hrest.
      destruct (destroyed (flagsOf srv0 s)); destruct (decide _); try congruence;
        reflexivity.
    + intros x Hx. apply elem_of_cons in Hx as [->|Hx]; [|apply Hin, Hx].
      rewrite Hkeep by exact Hd. exact Hd.
    + intros x Hx. rewrite Hout by (intros Hin'; apply Hx, list_elem_of_further, Hin').
      apply Hothers. intros ->. apply Hx, list_elem_of_here.
    + intros x Hx. destruct (decide (x = s)) as [->|Hne].
      * rewrite Hkeep by exact Hd. apply Hwas, Hx.
      * rewrite Hkeep by (rewrite Hothers; assumption). apply Hothers, Hne.
    + exact Hb.
    + exact Ha.
Qed.

(** X8. [stop] empties the set and leaves every socket that was in it
    destroyed; it destroys exactly those that were not destroyed yet,
    each once, in the order of the set; sockets outside the set, the
    buffers and the credential are left as they are. *)
Theorem stop_destroys_every_connection (srv : Server) :
  NoDup (connections srv) ->
  connections (stop srv).1 = []
  /\ (stop srv).2 =
     map SocketDestroy
       (filter (fun s => destroyed (flagsOf srv s) = false) (connections srv))
  /\ (forall s, s ∈ connections srv -> destroyed (flagsOf (stop srv).1 s) = true)
  /\ (forall s, s ∉ connections srv -> flagsOf (stop srv).1 s = flagsOf srv s)
  /\ buffers (stop srv).1 = buffers srv
  /\ authToken (stop srv).1 = authToken srv.
Proof.
  intros Hnd. unfold stop.
  pose proof (stop_loop (connections srv) Hnd srv) as H. cbn zeta in H.
  destruct (forEachSocket cleanupConnection srv (connections srv)) as [srv' effects].
  cbn [fst snd] in *. destruct H as (-> & Hin & Hout & _ & Hb & Ha).
  repeat split; assumption.
Qed.

(** ** Events of one socket *)

Lemma sameButFor_refl (socket : SocketId) (srv : Server) : sameButFor socket srv srv.
Proof. repeat split. Qed.

Lemma sameButFor_trans (socket : SocketId) (a b c : Server) :
  sameButFor socket a b -> sameButFor socket b c -> sameButFor socket a c.
Proof.
  intros (H1 & H2 & H3) (H4 & H5 & H6). repeat split; try congruence.
  - destruct (H3 s H), (H6 s H). congruence.
  - destruct (H3 s H), (H6 s H). congruence.
Qed.

Lemma localTo_refl (socket : SocketId) (srv : Server) : localTo socket srv (srv, []).
Proof. split; [apply sameButFor_refl | constructor]. Qed.

Lemma cleanupConnection_local (srv : Server) (socket : SocketId) :
  localTo socket srv (cleanupConnection srv socket).
Proof.
  destruct (cleanupConnection_spec srv socket) as (Hc & Hb & Ha & _ & Hothers & _ & He).
  split; [repeat split|].
  - rewrite Hc. apply setDelete_twice.
  - exact Ha.
  - rewrite Hb. reflexivity.
  - apply Hothers. assumption.
  - rewrite He. destruct (destroyed _); repeat constructor.
Qed.

Lemma sendMessage_local (srv : Server) (socket : SocketId) (message : JSValue) :
  localTo socket srv (sendMessage srv socket message).
Proof.
  unfold sendMessage.
  repeat match goal with
         | |- context [if ?c then _ else _] => destruct c
         | |- context [match ?x with Some _ => _ | None => _ end] => destruct x
         end;
    try apply cleanupConnection_local; try apply localTo_refl;
    (split; [apply sameButFor_refl | repeat constructor]).
Qed.

Lemma setDelete_setAdd (socket : SocketId) (set : list SocketId) :
  setDelete socket (setAdd socket set) = setDelete socket set.
Proof.
  unfold setAdd. destruct (decide (socket ∈ set)); [reflexivity|].
  unfold setDelete. rewrite filter_app, filter_cons_False by tauto.
  rewrite filter_nil. apply app_nil_r.
Qed.

Lemma socketEnd_local (srv : Server) (socket : SocketId) (text : JSString) :
  localTo socket srv (socketEnd srv socket text).
Proof.
  split; [repeat split|repeat constructor].
  cbn [fst socketEnd]. rewrite flagsOf_withFlags.
  destruct (decide (socket = s)); [congruence | reflexivity].
Qed.

Lemma withBuffer_local (srv : Server) (socket : SocketId) (b : Buffer) :
  sameButFor socket srv (withBuffer srv socket b).
Proof.
  repeat split. cbn [buffers withBuffer]. apply lookup_insert_ne. congruence.
Qed.

Section Locality.

Variable JSON_parse : JSString -> option JSValue.
Variable sha1_base64 : JSString -> JSString.

Lemma forEachMessage_local (socket : SocketId) (messages : list JSString) :
  forall srv, localTo socket srv (forEachMessage JSON_parse srv socket messages).
Proof.
  induction messages as [|text rest IH]; intros srv; [apply localTo_refl|].
  cbn [forEachMessage].
  assert (H1 : localTo socket srv (onMessageText JSON_parse srv socket text)).
  { unfold onMessageText. destruct (_ >? _); [apply sendMessage_local|].
    destruct (JSON_parse text); [|apply localTo_refl].
    split; [apply sameButFor_refl | repeat constructor]. }
  destruct (onMessageText JSON_parse srv socket text) as [srv1 effects1].
  pose proof (IH srv1) as H2.
  destruct (forEachMessage JSON_parse srv1 socket rest) as [srv2 effects2].
  destruct H1 as [H1 H1'], H2 as [H2 H2']. cbn [fst snd] in *. split.
  - eapply sameButFor_trans; eassumption.
  - apply Forall_app. split; assumption.
Qed.

Lemma step_local (srv : Server) (e : Event) (socket : SocketId) :
  eventSocket e = Some socket ->
  localTo socket srv (step JSON_parse sha1_base64 srv e).
Proof.
  intros He.
  destruct e as [request s|s data|s|s| |s message| | | |s flags];
    try discriminate He; injection He as ->; cbn [step].
  - destruct (handleWebSocketUpgrade_result sha1_base64 srv request socket)
      as [?|? ? ?|? ? ?|key ? ? ? ?]; try apply socketEnd_local.
    split; [|repeat constructor]. cbn [fst].
    apply (sameButFor_trans _ _ (withConnections srv (setAdd socket (connections srv)))).
    + repeat split. apply setDelete_setAdd.
    + apply withBuffer_local.
  - destruct (buffers srv !! socket) as [buffer|]; [|apply localTo_refl].
    unfold onData. destruct (_ >? _); [apply cleanupConnection_local|].
    destruct (forEachMessage_local socket
                (parsed (parseWebSocketFrames data buffer))
                (withBuffer srv socket (remaining (parseWebSocketFrames data buffer))))
      as [H1 H2].
    split; [|exact H2].
    eapply sameButFor_trans; [apply withBuffer_local | exact H1].
  - destruct (buffers srv !! socket); [|apply localTo_refl].
    split; [|constructor]. repeat split. apply setDelete_twice.
  - destruct (buffers srv !! socket); [|apply localTo_refl].
    apply cleanupConnection_local.
  - apply sendMessage_local.
  - split; [|constructor]. repeat split. cbn [fst]. rewrite flagsOf_withFlags.
    destruct (decide (socket = s)); [congruence | reflexivity].
Qed.

(** X9. Failures and traffic are local to one connection. An event of
    one socket (its upgrade request, data, close, error, a call of
    [sendMessage] for it, a change of its transport) changes nothing
    about any other connection: the others stay in the set in their
    order, with their buffers and flags, the credential stays, and every
    write, destroy and callback the event causes is for that socket. *)
Theorem socket_events_are_local (srv : Server) (e : Event) (socket : SocketId) :
  eventSocket e = Some socket ->
  let r := step JSON_parse sha1_base64 srv e in
  setDelete socket (connections r.1) = setDelete socket (connections srv)
  /\ authToken r.1 = authToken srv
  /\ (forall s, s <> socket ->
        buffers r.1 !! s = buffers srv !! s /\ flagsOf r.1 s = flagsOf srv s)
  /\ Forall (fun effect => effectSocket effect = socket) r.2.
Proof.
  intros He. cbn zeta.
  destruct (step_local srv e socket He) as [(H1 & H2 & H3) H4]. auto.
Qed.

End Locality.

(** ** Before the credential is set *)

Section Start.

Variable JSON_parse : JSString -> option JSValue.
Variable sha1_base64 : JSString -> JSString.

Lemma upgrade_or_not (e : Event) :
  (exists request socket, e = Upgrade request socket)
  \/ (forall request socket, e <> Upgrade request socket).
Proof. destruct e; [left; eauto | right; discriminate ..]. Qed.

Lemma step_authToken (srv : Server) (e : Event) :
  (forall token, e <> CallSetAuthToken token) ->
  authToken (step JSON_parse sha1_base64 srv e).1 = authToken srv.
Proof.
  intros Hnot.
  destruct (eventSocket e) as [socket|] eqn:He.
  { apply (step_local JSON_parse sha1_base64 srv e socket He). }
  destruct e; try discriminate He; cbn [step].
  - unfold healthCheck. apply (healthCheck_loop (connections srv) srv).
  - unfold broadcast.
    match goal with
    | |- context [forEachSocket ?f ?s0 ?l] =>
      assert (Hk : keepsStore s0 (forEachSocket f s0 l).1)
    end.
    { apply forEachSocket_store. intros srv' socket.
      destruct (_ && _); [apply sendMessage_store | apply cleanupConnection_store]. }
    apply Hk.
  - exfalso. eapply Hnot. reflexivity.
  - unfold stop.
    pose proof (forEachSocket_store cleanupConnection (connections srv)
                  cleanupConnection_store srv) as [_ Hk].
    destruct (forEachSocket cleanupConnection srv (connections srv)) as [srv' effects].
    exact Hk.
Qed.

(** With the empty credential a server starts with, no request passes
    the check: the header would have to be empty, and an empty header
    counts as missing. *)
Lemma empty_credential_rejects (srv : Server) (request : UpgradeRequest) :
  authToken srv = [] -> ~ passesCheck srv request.
Proof. intros Ht (value & _ & Hne & Heq). congruence. Qed.

(** X10. Nobody gets in before the credential is set. The plugin starts
    the server first and calls [setAuthToken] afterwards; in between the
    credential is the empty string. After any sequence of events without
    a call of [setAuthToken] the connection set of a new server is empty,
    and every upgrade request is answered by ending its socket with a 400
    or 401 response, whatever its headers. *)
Theorem no_entry_before_credential (events : list Event)
    (request : UpgradeRequest) (socket : SocketId) :
  (forall token, CallSetAuthToken token ∉ events) ->
  let srv := (run JSON_parse sha1_base64 newServer events).1 in
  connections srv = []
  /\ authToken srv = []
  /\ connections (handleWebSocketUpgrade sha1_base64 srv request socket).1 = []
  /\ ((handleWebSocketUpgrade sha1_base64 srv request socket).2 =
        [SocketEnd socket badRequest]
      \/ exists reason,
           (handleWebSocketUpgrade sha1_base64 srv request socket).2 =
             [SocketEnd socket (unauthorized reason)]).
Proof.
  intros Hnone. cbn zeta.
  assert (Hgen : forall events srv,
            (forall token, CallSetAuthToken token ∉ events) ->
            connections srv = [] -> authToken srv = [] ->
            connections (run JSON_parse sha1_base64 srv events).1 = []
            /\ authToken (run JSON_parse sha1_base64 srv events).1 = []).
  { clear. induction events as [|e rest IH]; intros srv Hnone Hc Ha; [auto|].
    rewrite run_cons.
    assert (Hnot : forall token, e <> CallSetAuthToken token).
    { intros token ->. apply (Hnone token), list_elem_of_here. }
    apply IH.
    - intros token Hin. apply (Hnone token), list_elem_of_further, Hin.
    - destruct (upgrade_or_not e) as [(request & socket & ->)|Hno].
      + cbn [step].
        destruct (handleWebSocketUpgrade_result sha1_base64 srv request socket)
          as [?|? ? ?|? Hpass ?|key ? ? Hpass ?]; try exact Hc;
          exfalso; exact (empty_credential_rejects srv request Ha Hpass).
      + pose proof (step_shrinks JSON_parse sha1_base64 srv e) as Hs.
        unfold shrinks in Hs. rewrite Hc in Hs.
        apply sublist_nil_r, Hs, Hno.
    - rewrite step_authToken by exact Hnot. exact Ha. }
  destruct (Hgen events newServer Hnone eq_refl eq_refl) as [Hc Ha].
  split; [exact Hc|]. split; [exact Ha|].
  destruct (handleWebSocketUpgrade_result sha1_base64
              (run JSON_parse sha1_base64 newServer events).1 request socket)
    as [?|reason ? ?|? Hpass ?|key ? ? Hpass ?].
  - split; [exact Hc | left; reflexivity].
  - split; [exact Hc | right; exists reason; reflexivity].
  - exfalso. exact (empty_credential_rejects _ request Ha Hpass).
  - exfalso. exact (empty_credential_rejects _ request Ha Hpass).
Qed.

(** The set holds each socket once. *)
Lemma step_NoDup (srv : Server) (e : Event) :
  NoDup (connections srv) ->
  NoDup (connections (step JSON_parse sha1_base64 srv e).1).
Proof.
  intros Hnd.
  destruct (upgrade_or_not e) as [(request & socket & ->)|Hno].
  - cbn [step].
    destruct (handleWebSocketUpgrade_result sha1_base64 srv request socket)
      as [?|? ? ?|? ? ?|key ? ? ? ?]; try exact Hnd.
    cbn [fst connections withBuffer withConnections]. unfold setAdd.
    destruct (decide (socket ∈ connections srv)) as [Hin|Hnin]; [exact Hnd|].
    apply NoDup_app. repeat split; [exact Hnd | | apply NoDup_singleton].
    intros x Hx Hx'. apply list_elem_of_singleton in Hx'. congruence.
  - eapply sublist_NoDup; [exact Hnd|].
    apply step_shrinks, Hno.
Qed.

Lemma run_NoDup (events : list Event) (srv : Server) :
  NoDup (connections srv) ->
  NoDup (connections (run JSON_parse sha1_base64 srv events).1).
Proof.
  revert srv. induction events as [|e rest IH]; intros srv Hnd; [exact Hnd|].
  rewrite run_cons. apply IH, step_NoDup, Hnd.
Qed.

End Start.

(** ** The dispatcher on any message *)

Module DispatcherFacts.
Import MCPHandler.

Lemma dispatch_cases (app : App) (message : JSValue) (socket : SocketId) :
  (exists a, dispatch app message socket = ([a], Returned)
             /\ Answer message socket a)
  \/ dispatch app message socket = ([], Returned)
  \/ (exists text, dispatch app message socket = ([], Threw text)).
Proof.
  unfold dispatch. destruct (getProp message (js "method")) as [method|];
    [|right; right; eexists; reflexivity].
  destruct (truthy method); [|right; left; reflexivity].
  destruct (toStr method) as [text|]; [|right; right; eexists; reflexivity].
  destruct (strictEquals method (js "initialize")).
  { left. eexists. split; [reflexivity | constructor]. }
  destruct (strictEquals method (js "initialized")); [right; left; reflexivity|].
  destruct (strictEquals method (js "files/read")).
  { unfold handleFileRead. destruct (negb _); [right; right; eexists; reflexivity|].
    destruct (getAbstractFileByPath app _) as [file|];
      [|destruct (toStr _); right; right; eexists; reflexivity].
    destruct (read app file) as [content|err].
    - left. eexists. split; [reflexivity | constructor].
    - right. right. eexists. reflexivity. }
  destruct (strictEquals method (js "workspace/selection")).
  { unfold handleWorkspaceSelection. destruct (getActiveViewOfType app).
    - left. eexists. split; [reflexivity | constructor].
    - right. right. eexists. reflexivity. }
  destruct (strictEquals method (js "resources/list")).
  - left. eexists. split; [reflexivity | constructor].
  - left. eexists. split; [reflexivity | constructor; left; reflexivity].
Qed.

Lemma handleMessage_cases (app : App) (message : JSValue) (socket : SocketId) :
  (exists a, handleMessage app message socket = ([a], Returned)
             /\ Answer message socket a)
  \/ handleMessage app message socket = ([], Returned)
  \/ (exists text, handleMessage app message socket = ([], Threw text)
                   /\ getProp message (js "id") = None).
Proof.
  unfold handleMessage.
  destruct (dispatch_cases app message socket)
    as [(a & -> & Ha)|[->|(text & ->)]].
  - left. exists a. auto.
  - right. left. reflexivity.
  - destruct (getProp message (js "id")) as [id|] eqn:Hid.
    + destruct (truthy id); [|right; left; reflexivity].
      left. eexists. split; [reflexivity|].
      replace id with (getPropOpt message (js "id"))
        by (unfold getPropOpt; rewrite Hid; reflexivity).
      constructor. right. reflexivity.
    + right. right. eexists. split; reflexivity.
Qed.

Lemma handleMessage_outcome (app : App) (message : JSValue) (socket : SocketId) :
  (handleMessage app message socket).2 = Returned
  <-> message <> JNull /\ message <> JUndefined.
Proof.
  assert (Hobj : getProp message (js "id") <> None ->
                 (handleMessage app message socket).2 = Returned).
  { intros Hsome.
    destruct (handleMessage_cases app message socket)
      as [(a & -> & _)|[->|(text & _ & Hid)]]; [reflexivity .. | contradiction]. }
  destruct message;
    try (split; [intros _; split; discriminate | intros _; apply Hobj; discriminate]).
  - split; [discriminate | intros [_ Hu]; contradiction].
  - split; [discriminate | intros [Hn _]; contradiction].
Qed.

(** X11. Whatever message reaches the dispatcher - any JSON value, with
    or without method, id or params, the method of any type, with or
    without a string conversion - it calls [sendMessage] at most
    once, only for the connection the message came from, with a JSON-RPC
    2.0 answer that carries the [id] of the message and either a result
    or an error whose code is -32601 or -32603 (no other code is ever
    used). The promise rejects only for a message that is [null] or
    [undefined], and then nothing was sent. *)
Theorem dispatcher_answers_the_sender (app : App) (message : JSValue)
    (socket : SocketId) :
  let r := handleMessage app message socket in
  (length r.1 <= 1)%nat
  /\ (forall s answer, (s, answer) ∈ r.1 ->
        s = socket
        /\ getProp answer (js "jsonrpc") = Some (JString (js "2.0"))
        /\ getProp answer (js "id") = Some (getPropOpt message (js "id"))
        /\ ((exists result,
               answer = response (getPropOpt message (js "id")) result)
            \/ (exists code text,
                  answer = errorResponse (getPropOpt message (js "id")) code text
                  /\ (code = -32601 \/ code = -32603))))
  /\ (r.2 = Returned <-> message <> JNull /\ message <> JUndefined)
  /\ (r.2 <> Returned -> r.1 = []).
Proof.
  cbn zeta. pose proof (handleMessage_outcome app message socket) as Hout.
  destruct (handleMessage_cases app message socket)
    as [(a & Heq & Ha)|[Heq|(text & Heq & Hid)]]; rewrite Heq in *;
    cbn [fst snd length] in *.
  - split; [lia|]. split; [|split; [exact Hout | intros Hne; contradiction]].
    intros s answer Hin. apply list_elem_of_singleton in Hin. subst a.
    inversion Ha as [result|code text Hcode]; subst.
    + repeat split. left. eexists. reflexivity.
    + repeat split. right. eexists _, _. split; [reflexivity | exact Hcode].
  - split; [lia|]. split; [|split; [exact Hout | reflexivity]].
    intros s answer Hin. apply elem_of_nil in Hin. contradiction.
  - split; [lia|]. split; [|split; [exact Hout | reflexivity]].
    intros s answer Hin. apply elem_of_nil in Hin. contradiction.
Qed.

(** X12. [files/read], for a request with a truthy id (a message made of
    values of the runtime): without a path an internal error "File path
    is required"; for a path that is no file of the vault an internal
    error "File not found: " followed by the path converted to a string,
    or, when the path is an object that has no string conversion, the
    message of that TypeError; for a file whose read fails an internal
    error with the message of the failure; otherwise the content the
    vault read, unchanged. One answer in every case, all errors with
    code -32603. *)
Theorem files_read_contract (app : App) (message : JSValue) (socket : SocketId)
    (id : JSValue) :
  isValue message = true ->
  getProp message (js "method") = Some (JString (js "files/read")) ->
  getProp message (js "id") = Some id ->
  truthy id = true ->
  let path := getPropOpt (getPropOpt message (js "params")) (js "path") in
  handleMessage app message socket =
  ([(socket,
     if truthy path then
       match getAbstractFileByPath app path with
       | None =>
         errorResponse id (-32603)
           match toStr path with
           | Some text => JString (js "File not found: " ++ text)
           | None => notPrimitive
           end
       | Some file =>
         match read app file with
         | inl content => response id (JObject [(js "content", JString content)])
         | inr error => errorResponse id (-32603) error
         end
       end
     else errorResponse id (-32603) (JString (js "File path is required")))],
   Returned).
Proof.
  intros _ Hm Hid Ht. cbn zeta.
  assert (Hopt : getPropOpt message (js "id") = id)
    by (unfold getPropOpt; rewrite Hid; reflexivity).
  set (path := getPropOpt (getPropOpt message (js "params")) (js "path")).
  assert (Hd : dispatch app message socket = handleFileRead app message socket).
  { unfold dispatch. rewrite Hm.
    replace (truthy (JString (js "files/read"))) with true by reflexivity.
    replace (toStr (JString (js "files/read"))) with (Some (js "files/read"))
      by reflexivity.
    replace (strictEquals (JString (js "files/read")) (js "initialize"))
      with false by reflexivity.
    replace (strictEquals (JString (js "files/read")) (js "initialized"))
      with false by reflexivity.
    replace (strictEquals (JString (js "files/read")) (js "files/read"))
      with true by reflexivity.
    reflexivity. }
  unfold handleMessage. rewrite Hd. unfold handleFileRead. fold path. rewrite Hopt.
  destruct (truthy path); cbn [negb].
  - destruct (getAbstractFileByPath app path) as [file|].
    + destruct (read app file); [reflexivity|]. rewrite Hid, Ht. reflexivity.
    + destruct (toStr path); rewrite Hid, Ht; reflexivity.
  - rewrite Hid, Ht. reflexivity.
Qed.

Lemma files_read_contract_witness :
  isValue (readRequest (JNumber 4) (JString (js "notes/today.md"))) = true
  /\ handleMessage noteApp (readRequest (JNumber 4) (JString (js "notes/today.md")))
       2%nat =
     ([(2%nat, response (JNumber 4) (JObject [(js "content", JString (js "# Today"))]))],
      Returned).
Proof.
  exact (conj eq_refl
           (files_read_contract noteApp
              (readRequest (JNumber 4) (JString (js "notes/today.md"))) 2%nat
              (JNumber 4) eq_refl eq_refl eq_refl eq_refl)).
Defined.

Lemma sendMessage_at_most_one (srv : Server) (socket : SocketId) (message : JSValue) :
  (length (sendMessage srv socket message).2 <= 1)%nat.
Proof.
  unfold sendMessage, cleanupConnection.
  repeat match goal with
         | |- context [if ?c then _ else _] => destruct c
         | |- context [match ?x with Some _ => _ | None => _ end] => destruct x
         end; cbn; lia.
Qed.

(** X13. The plugin answers on the connection that asked, and only
    there. It hands the dispatcher the server's [sendMessage]; whatever
    the message and whatever the state of the server when the answer is
    ready, carrying out the calls of [handleMessage] has at most one
    effect, a frame written to the socket the message came from or the
    cleanup of that socket, and leaves every other connection in the
    set with its buffer and flags. *)
Theorem answers_stay_on_the_connection (app : App) (message : JSValue)
    (socket : SocketId) (srv : Server) :
  let r := deliver srv (handleMessage app message socket).1 in
  (length r.2 <= 1)%nat
  /\ Forall (fun effect => effectSocket effect = socket) r.2
  /\ (forall m s, OnMessage m s ∉ r.2)
  /\ setDelete socket (connections r.1) = setDelete socket (connections srv)
  /\ (forall s, s <> socket ->
        buffers r.1 !! s = buffers srv !! s /\ flagsOf r.1 s = flagsOf srv s).
Proof.
  cbn zeta.
  assert (Hone : forall answer,
            deliver srv [(socket, answer)] = sendMessage srv socket answer).
  { intros answer. cbn [deliver].
    destruct (sendMessage srv socket answer) as [srv' effects].
    rewrite app_nil_r. reflexivity. }
  assert (Hsend : forall answer,
            let r := sendMessage srv socket answer in
            (length r.2 <= 1)%nat
            /\ Forall (fun effect => effectSocket effect = socket) r.2
            /\ (forall m s, OnMessage m s ∉ r.2)
            /\ setDelete socket (connections r.1) = setDelete socket (connections srv)
            /\ (forall s, s <> socket ->
                  buffers r.1 !! s = buffers srv !! s
                  /\ flagsOf r.1 s = flagsOf srv s)).
  { intros answer. cbn zeta.
    destruct (sendMessage_local srv socket answer) as [(H1 & _ & H3) H4].
    split; [apply sendMessage_at_most_one|]. split; [exact H4|].
    split; [|split; assumption].
    intros m s Hin. apply sendMessage_effects in Hin as [Hin|[frame Hin]];
      discriminate Hin. }
  destruct (handleMessage_cases app message socket)
    as [(a & -> & Ha)|[->|(text & -> & _)]]; cbn [fst].
  - inversion Ha; subst; rewrite Hone; apply Hsend.
  - cbn [deliver fst snd length]. repeat split; try lia; try constructor.
    intros m s Hin. apply elem_of_nil in Hin. exact Hin.
  - cbn [deliver fst snd length]. repeat split; try lia; try constructor.
    intros m s Hin. apply elem_of_nil in Hin. exact Hin.
Qed.

End DispatcherFacts.

(** ** What the server writes *)

















(** ** The credential of the lock file, and the file tracking of the plugin *)

Module LockFileFacts.
Import LockFileManager.

Lemma hexDigit_inj (n m : Z) :
  0 <= n < 16 -> 0 <= m < 16 -> hexDigit n = hexDigit m -> n = m.
Proof. unfold hexDigit. destruct (n <? 10) eqn:En, (m <? 10) eqn:Em; lia. Qed.

Lemma hexDigit_token (n : Z) : 0 <= n < 16 -> isTokenChar (hexDigit n) = true.
Proof.
  intros Hn. unfold hexDigit, isTokenChar.
  destruct (Z.ltb_spec n 10).
  - replace ((48 <=? 48 + n) && (48 + n <=? 57)) with true; [reflexivity|].
    symmetry. apply andb_true_iff. split; apply Z.leb_le; lia.
  - replace ((97 <=? 87 + n) && (87 + n <=? 102)) with true;
      [apply orb_true_iff; left; apply orb_true_r|].
    symmetry. apply andb_true_iff. split; apply Z.leb_le; lia.
Qed.

Lemma toHex_length (buf : Buffer) : length (toHex buf) = (2 * length buf)%nat.
Proof. induction buf as [|b rest IH]; cbn [toHex flat_map app length] in *; [|unfold toHex in IH]; lia. Qed.

Lemma toHex_chars (buf : Buffer) : forallb isTokenChar (toHex buf) = true.
Proof.
  induction buf as [|b rest IH]; [reflexivity|].
  cbn [toHex flat_map app forallb]. pose proof (b2z_range b).
  rewrite !hexDigit_token.
  - exact IH.
  - apply Z.mod_pos_bound. lia.
  - split; [apply Z.div_pos; lia | apply Z.div_lt_upper_bound; lia].
Qed.

Lemma toHex_inj (a b : Buffer) : toHex a = toHex b -> a = b.
Proof.
  revert b. induction a as [|x a IH]; intros [|y b] H; try discriminate H;
    [reflexivity|].
  cbn [toHex flat_map app] in H. injection H as Hhi Hlo Hrest.
  pose proof (b2z_range x). pose proof (b2z_range y).
  apply hexDigit_inj in Hhi;
    [|split; [apply Z.div_pos; lia | apply Z.div_lt_upper_bound; lia] ..].
  apply hexDigit_inj in Hlo; [|apply Z.mod_pos_bound; lia ..].
  f_equal; [|apply IH, Hrest].
  rewrite <- (z2b_b2z x), <- (z2b_b2z y). f_equal.
  rewrite (Z.div_mod (b2z x) 16), (Z.div_mod (b2z y) 16) by lia. lia.
Qed.

Lemma createLockFile_parts (entropy : list byte) :
  createLockFile entropy =
  (toHex (take 16 entropy) ++ js "-" ++ toHex (take 2 (drop 16 entropy)) ++ js "-"
     ++ toHex (take 2 (drop 18 entropy)) ++ js "-"
     ++ toHex (take 2 (drop 20 entropy)) ++ js "-"
     ++ toHex (take 6 (drop 22 entropy)),
   drop 28 entropy).
Proof.
  unfold createLockFile, randomBytes. rewrite !drop_drop. reflexivity.
Qed.

Lemma createLockFile_nonempty (entropy : list byte) :
  (createLockFile entropy).1 <> [].
Proof.
  rewrite createLockFile_parts. cbn [fst].
  destruct (toHex (take 16 entropy)); discriminate.
Qed.

(** X15. The credential [createLockFile] generates from 28 bytes of the
    random generator is 60 characters long, made of lowercase
    hexadecimal digits and dashes only (so it passes through an HTTP
    header unchanged), uses up exactly those 28 bytes, and loses none of
    them: two tokens are equal only if the 28 bytes were. *)
Theorem token_keeps_the_entropy (entropy entropy' : list byte) :
  (28 <= length entropy)%nat ->
  (28 <= length entropy')%nat ->
  slen (createLockFile entropy).1 = 60
  /\ forallb isTokenChar (createLockFile entropy).1 = true
  /\ (createLockFile entropy).2 = drop 28 entropy
  /\ ((createLockFile entropy).1 = (createLockFile entropy').1 ->
      take 28 entropy = take 28 entropy').
Proof.
  intros Hlen Hlen'. rewrite !createLockFile_parts. cbn [fst snd].
  assert (Hl : forall (e : list byte) n k, (28 <= length e)%nat -> (n + k <= 28)%nat ->
                 length (toHex (take n (drop k e))) = (2 * n)%nat).
  { intros e n k He Hnk. rewrite toHex_length, length_take, length_drop. lia. }
  assert (Hl0 : forall (e : list byte) n, (28 <= length e)%nat -> (n <= 28)%nat ->
                 length (toHex (take n e)) = (2 * n)%nat).
  { intros e n He Hn. rewrite toHex_length, length_take. lia. }
  split; [|split; [|split; [reflexivity|]]].
  - unfold slen. rewrite !length_app, Hl0, !Hl by lia. reflexivity.
  - rewrite !forallb_app, !toHex_chars. reflexivity.
  - intros Heq.
    apply app_inj_1 in Heq as [H1 Heq]; [|rewrite !Hl0 by lia; reflexivity].
    apply app_inj_1 in Heq as [_ Heq]; [|reflexivity].
    apply app_inj_1 in Heq as [H2 Heq]; [|rewrite !Hl by lia; reflexivity].
    apply app_inj_1 in Heq as [_ Heq]; [|reflexivity].
    apply app_inj_1 in Heq as [H3 Heq]; [|rewrite !Hl by lia; reflexivity].
    apply app_inj_1 in Heq as [_ Heq]; [|reflexivity].
    apply app_inj_1 in Heq as [H4 Heq]; [|rewrite !Hl by lia; reflexivity].
    apply app_inj_1 in Heq as [_ H5]; [|reflexivity].
    apply toHex_inj in H1, H2, H3, H4, H5.
    change 28%nat with (16 + (2 + (2 + (2 + 6))))%nat.
    rewrite <- !take_take_drop, !drop_drop. cbn [Nat.add].
    congruence.
Qed.

End LockFileFacts.

Section TokenGate.

Variable sha1_base64 : JSString -> JSString.

(** X16. The credential of the lock file opens the gate. Whatever bytes
    the random generator gives, the token [createLockFile] returns is
    not empty; once the plugin has passed it to [setAuthToken], an
    upgrade request with a key that carries this token in its
    authorization header is given the 101 handshake and added to the
    set, as long as the set holds fewer than ten connections. *)
Theorem lock_file_token_accepted (entropy : list byte) (srv : Server)
    (request : UpgradeRequest) (socket : SocketId) (key : JSString) :
  let token := (LockFileManager.createLockFile entropy).1 in
  firstValue (headers request !! "sec-websocket-key") = Some key ->
  key <> [] ->
  headers request !! "x-claude-code-ide-authorization" = Some (HString token) ->
  size srv < MAX_CONNECTIONS ->
  token <> []
  /\ handleWebSocketUpgrade sha1_base64 (setAuthToken srv token) request socket =
     (withBuffer
        (withConnections (setAuthToken srv token) (setAdd socket (connections srv)))
        socket [],
      [SocketWriteText socket
         (switchingProtocols
            (sha1_base64 (key ++ js "258EAFA5-E914-47DA-95CA-C5AB0DC85B11")));
       OnConnection socket]).
Proof.
  cbn zeta. intros Hkey Hne Hauth Hroom.
  pose proof (LockFileFacts.createLockFile_nonempty entropy) as Htoken.
  split; [exact Htoken|].
  set (token := (LockFileManager.createLockFile entropy).1) in *.
  assert (Hpass : passesCheck (setAuthToken srv token) request).
  { exists token. repeat split; assumption. }
  destruct (handleWebSocketUpgrade_result sha1_base64 (setAuthToken srv token)
              request socket) as [Hmiss|reason _ Hno|_ _ Hfull|key' Hkey' _ _ _].
  - rewrite Hkey in Hmiss. destruct key; [contradiction | discriminate].
  - contradiction.
  - unfold size in *. cbn [connections setAuthToken] in Hfull. lia.
  - rewrite Hkey in Hkey'. injection Hkey' as <-. reflexivity.
Qed.

End TokenGate.

Lemma lock_file_token_accepted_witness :
  firstValue (headers tokenRequest !! "sec-websocket-key")
    = Some (js "dGhlIHNhbXBsZSBub25jZQ==")
  /\ js "dGhlIHNhbXBsZSBub25jZQ==" <> []
  /\ headers tokenRequest !! "x-claude-code-ide-authorization"
     = Some (HString (LockFileManager.createLockFile someEntropy).1)
  /\ size newServer < MAX_CONNECTIONS
  /\ connections
       (handleWebSocketUpgrade plainDigest
          (setAuthToken newServer (LockFileManager.createLockFile someEntropy).1)
          tokenRequest 1%nat).1 = [1%nat].
Proof.
  assert (Hne : js "dGhlIHNhbXBsZSBub25jZQ==" <> []) by discriminate.
  assert (Hroom : size newServer < MAX_CONNECTIONS) by reflexivity.
  split; [reflexivity|]. split; [exact Hne|]. split; [reflexivity|].
  split; [exact Hroom|].
  exact (f_equal (fun r => connections r.1)
           (proj2 (lock_file_token_accepted plainDigest someEntropy newServer
                     tokenRequest 1%nat (js "dGhlIHNhbXBsZSBub25jZQ==")
                     eq_refl Hne eq_refl Hroom))).
Defined.

Lemma token_keeps_the_entropy_witness :
  (28 <= length someEntropy)%nat
  /\ slen (LockFileManager.createLockFile someEntropy).1 = 60
  /\ (LockFileManager.createLockFile someEntropy).1 =
     js "000102030405060708090a0b0c0d0e0f-1011-1213-1415-161718191a1b".
Proof.
  assert (Hlen : (28 <= length someEntropy)%nat) by (vm_compute; lia).
  split; [exact Hlen|].
  split; [|reflexivity].
  exact (proj1 (LockFileFacts.token_keeps_the_entropy someEntropy someEntropy
                  Hlen Hlen)).
Defined.

Module PluginFacts.
Import ClaudeCodeBridge.

(** X17. A file switch is announced once. Obsidian fires both
    [file-open] and [active-leaf-change] for it, and both call
    [handleFileChange]: whatever the first call did, a second call for
    the same file changes nothing and sends nothing, whatever the active
    view is by then. *)
Theorem file_change_announced_once (activeView activeView' : option Editor)
    (plugin : Plugin) (file : option JSString) :
  let after := (handleFileChange activeView plugin file).1 in
  handleFileChange activeView' after file = (after, []).
Proof.
  cbn zeta.
  set (newFilePath :=
         match file with Some (c :: path) => Some (c :: path) | _ => None end).
  set (guard := fun p : Plugin =>
         bool_decide (newFilePath <> currentFile p)
         && match webSocketServer p with
            | Some srv => size srv >? 0
            | None => false
            end).
  assert (Hsecond : forall p, guard p = false ->
            handleFileChange activeView' p file = (p, [])).
  { intros p Hp. unfold handleFileChange. fold newFilePath.
    change (bool_decide (newFilePath <> currentFile p) && _) with (guard p).
    rewrite Hp. reflexivity. }
  apply Hsecond.
  unfold handleFileChange. fold newFilePath.
  change (bool_decide (newFilePath <> currentFile plugin) && _) with (guard plugin).
  destruct (guard plugin) eqn:Hfirst; [|exact Hfirst].
  assert (Hcur : forall p : Plugin, currentFile p = newFilePath -> guard p = false).
  { intros p Hp. unfold guard. rewrite Hp.
    rewrite bool_decide_eq_false_2 by (intros H; apply H; reflexivity).
    reflexivity. }
  apply Hcur.
  destruct newFilePath as [path|]; [|reflexivity].
  unfold sendSelectionChanged. destruct activeView as [editor|]; [|reflexivity].
  cbn [webSocketServer]. destruct (webSocketServer plugin) as [srv|]; [|reflexivity].
  destruct (broadcast srv _). reflexivity.
Qed.

End PluginFacts.

(** ** The properties on concrete inputs; frames in two chunks; the two revisions *)

Lemma twoClients_NoDup : NoDup (connections twoClients).
Proof. apply run_NoDup. constructor. Qed.

Lemma data_in_two_segments_witness :
  buffers twoClients !! 1%nat = Some []
  /\ blen [] + blen (bytes [0x81]) + blen (bytes [0x04; 0x6E; 0x75; 0x6C; 0x6C])
     <= MAX_BUFFER_SIZE
  /\ run parseNull plainDigest twoClients
       [Data 1%nat (bytes [0x81]);
        Data 1%nat (bytes [0x04; 0x6E; 0x75; 0x6C; 0x6C])] =
     step parseNull plainDigest twoClients
       (Data 1%nat (bytes [0x81] ++ bytes [0x04; 0x6E; 0x75; 0x6C; 0x6C])).
Proof.
  assert (Hbuf : buffers twoClients !! 1%nat = Some []) by (vm_compute; reflexivity).
  assert (Hcap : blen [] + blen (bytes [0x81])
                 + blen (bytes [0x04; 0x6E; 0x75; 0x6C; 0x6C]) <= MAX_BUFFER_SIZE)
    by (vm_compute; discriminate).
  exact (conj Hbuf (conj Hcap
           (data_in_two_segments parseNull plainDigest twoClients 1%nat []
              (bytes [0x81]) (bytes [0x04; 0x6E; 0x75; 0x6C; 0x6C]) Hbuf Hcap))).
Defined.

Lemma data_handler_never_writes_witness :
  OnMessage JNull 1%nat
    ∈ (onData parseNull twoClients 1%nat (bytes [0x81])
         (bytes [0x04; 0x6E; 0x75; 0x6C; 0x6C])).2
  /\ (OnMessage JNull 1%nat = SocketDestroy 1%nat
      \/ exists text m,
           text ∈ parsed (parseWebSocketFrames
                            (bytes [0x04; 0x6E; 0x75; 0x6C; 0x6C]) (bytes [0x81]))
           /\ parseNull text = Some m /\ OnMessage JNull 1%nat = OnMessage m 1%nat).
Proof.
  assert (Hin : OnMessage JNull 1%nat
                  ∈ (onData parseNull twoClients 1%nat (bytes [0x81])
                       (bytes [0x04; 0x6E; 0x75; 0x6C; 0x6C])).2)
    by (vm_compute; apply list_elem_of_here).
  exact (conj Hin
           (data_handler_never_writes parseNull twoClients 1%nat (bytes [0x81])
              (bytes [0x04; 0x6E; 0x75; 0x6C; 0x6C]) (OnMessage JNull 1%nat) Hin)).
Defined.

Lemma receive_buffer_invariant_witness :
  buffers (run noParse plainDigest newServer
             (tenUpgrades ++ [Data 3%nat (bytes [0x81; 0x05; 0x68])])).1 !! 3%nat
    = Some (bytes [0x81; 0x05; 0x68])
  /\ blen (bytes [0x81; 0x05; 0x68]) <= MAX_BUFFER_SIZE
  /\ parseWebSocketFrames [] (bytes [0x81; 0x05; 0x68]) =
     {| parsed := []; remaining := bytes [0x81; 0x05; 0x68] |}.
Proof.
  assert (Hbuf : buffers (run noParse plainDigest newServer
                   (tenUpgrades ++ [Data 3%nat (bytes [0x81; 0x05; 0x68])])).1 !! 3%nat
                 = Some (bytes [0x81; 0x05; 0x68])) by (vm_compute; reflexivity).
  exact (conj Hbuf
           (receive_buffer_invariant noParse plainDigest _ 3%nat _ Hbuf)).
Defined.

Lemma broadcast_reaches_the_live_witness :
  NoDup (connections twoClients)
  /\ JSON_stringify messageTooLarge = Some messageTooLargeText
  /\ slen messageTooLargeText <= MAX_MESSAGE_SIZE
  /\ (broadcast twoClients messageTooLarge).2 =
       [SocketWrite 1%nat (createWebSocketFrame messageTooLargeText);
        SocketDestroy 2%nat]
  /\ connections (broadcast twoClients messageTooLarge).1 = [1%nat].
Proof.
  assert (Hfit : slen messageTooLargeText <= MAX_MESSAGE_SIZE)
    by (vm_compute; discriminate).
  pose proof (broadcast_reaches_the_live twoClients messageTooLarge
                messageTooLargeText twoClients_NoDup messageTooLarge_text Hfit)
    as (He & Hc & _).
  exact (conj twoClients_NoDup (conj messageTooLarge_text (conj Hfit (conj He Hc)))).
Defined.

Lemma stop_destroys_every_connection_witness :
  NoDup (connections twoClients)
  /\ connections (stop twoClients).1 = []
  /\ (stop twoClients).2 = [SocketDestroy 1%nat; SocketDestroy 2%nat].
Proof.
  pose proof (stop_destroys_every_connection twoClients twoClients_NoDup)
    as (Hc & He & _).
  exact (conj twoClients_NoDup (conj Hc He)).
Defined.

Lemma socket_events_are_local_witness :
  eventSocket (Error 1%nat) = Some 1%nat
  /\ connections (step noParse plainDigest twoClients (Error 1%nat)).1 = [2%nat]
  /\ (step noParse plainDigest twoClients (Error 1%nat)).2 = [SocketDestroy 1%nat]
  /\ Forall (fun effect => effectSocket effect = 1%nat)
       (step noParse plainDigest twoClients (Error 1%nat)).2.
Proof.
  split; [reflexivity|]. split; [reflexivity|]. split; [reflexivity|].
  exact (proj2 (proj2 (proj2
           (socket_events_are_local noParse plainDigest twoClients (Error 1%nat)
              1%nat eq_refl)))).
Defined.

Lemma earlyUpgrades_no_token (token : JSString) :
  CallSetAuthToken token ∉ earlyUpgrades.
Proof.
  unfold earlyUpgrades. intros Hin.
  repeat (apply elem_of_cons in Hin as [Hin|Hin]; [discriminate Hin|]).
  apply elem_of_nil in Hin. exact Hin.
Qed.

Lemma no_entry_before_credential_witness :
  (forall token, CallSetAuthToken token ∉ earlyUpgrades)
  /\ connections (run noParse plainDigest newServer earlyUpgrades).1 = []
  /\ (run noParse plainDigest newServer earlyUpgrades).2 =
       [SocketEnd 1%nat
          (unauthorized "Missing authentication header: x-claude-code-ide-authorization");
        SocketEnd 2%nat
          (unauthorized "Missing authentication header: x-claude-code-ide-authorization");
        SocketEnd 3%nat (unauthorized "Invalid authentication token")].
Proof.
  split; [exact earlyUpgrades_no_token|]. split; [|reflexivity].
  exact (proj1 (no_entry_before_credential noParse plainDigest earlyUpgrades
                  bareRequest 4%nat earlyUpgrades_no_token)).
Defined.


(** X18. Any frame in two chunks. A complete frame of any kind - masked
    or not, text or not, any length form - that arrives cut in two, the
    second part not empty, behind frames that are complete: the first
    feed delivers the payloads of the complete frames and keeps the part
    that has arrived, byte for byte; the second feed, given that
    remainder and the rest, delivers the payload of the frame if it is a
    text frame and leaves nothing. *)
Theorem any_frame_in_two_chunks (before : list WireFrame) (fr : WireFrame)
    (chunk1 chunk2 : Buffer) :
  Forall wellFramed before ->
  wellFramed fr ->
  wire fr = chunk1 ++ chunk2 ->
  chunk2 <> [] ->
  let first := parseWebSocketFrames (concat (map wire before) ++ chunk1) [] in
  first = {| parsed := texts before; remaining := chunk1 |}
  /\ parseWebSocketFrames chunk2 (remaining first) =
     {| parsed := option_list (wf_text fr); remaining := [] |}.
Proof.
  intros Hall Hwf Hsplit Hne. cbn zeta.
  rewrite (partial_frame_kept before fr chunk1 chunk2 Hall Hwf Hsplit Hne).
  split; [reflexivity|]. cbn [remaining].
  rewrite parse_pure, <- Hsplit.
  pose proof (frame_then_rest fr [] Hwf) as H. rewrite app_nil_r in H.
  rewrite H. cbn [parsed remaining]. rewrite app_nil_r. reflexivity.
Qed.

Lemma any_frame_in_two_chunks_witness :
  Forall wellFramed [pingFrame]
  /\ wellFramed maskedHi
  /\ wire maskedHi = bytes [0x81; 0x82; 1] ++ bytes [2; 3; 4; 0x69; 0x6B]
  /\ bytes [2; 3; 4; 0x69; 0x6B] <> []
  /\ parseWebSocketFrames (concat (map wire [pingFrame]) ++ bytes [0x81; 0x82; 1]) [] =
     {| parsed := []; remaining := bytes [0x81; 0x82; 1] |}
  /\ parseWebSocketFrames (bytes [2; 3; 4; 0x69; 0x6B]) (bytes [0x81; 0x82; 1]) =
     {| parsed := [js "hi"]; remaining := [] |}.
Proof.
  assert (Hping : Forall wellFramed [pingFrame]) by (repeat constructor).
  assert (Hwf : wellFramed maskedHi) by (repeat split).
  assert (Hne : bytes [2; 3; 4; 0x69; 0x6B] <> []) by discriminate.
  exact (conj Hping (conj Hwf (conj eq_refl (conj Hne
           (any_frame_in_two_chunks [pingFrame] maskedHi (bytes [0x81; 0x82; 1])
              (bytes [2; 3; 4; 0x69; 0x6B]) Hping Hwf eq_refl Hne))))).
Defined.

Section Revisions.

Variable JSON_parse : JSString -> option JSValue.
Variable sha1_base64 : JSString -> JSString.

(** X19. The two revisions of the server in the repository agree where
    the limits of the later one do not apply: with fewer than ten
    connections in the set and a key header that is a single string,
    [handleWebSocketUpgrade] of src/websocket.ts does what the revision
    with the limits does; and on a payload within the message-size
    ceiling so does the callback of its read handler. *)
Theorem revisions_agree_within_limits (srv : Server) (request : UpgradeRequest)
    (socket : SocketId) (messageText : JSString) :
  size srv < MAX_CONNECTIONS ->
  (forall values, headers request !! "sec-websocket-key" <> Some (HArray values)) ->
  slen messageText <= MAX_MESSAGE_SIZE ->
  Legacy.handleWebSocketUpgrade sha1_base64 srv request socket =
    handleWebSocketUpgrade sha1_base64 srv request socket
  /\ Legacy.onMessageText JSON_parse srv socket messageText =
     onMessageText JSON_parse srv socket messageText.
Proof.
  intros Hroom Hstr Hfit. split.
  - apply legacy_upgrade_agrees; assumption.
  - unfold Legacy.onMessageText, onMessageText.
    destruct (Z.gtb_spec (slen messageText) MAX_MESSAGE_SIZE); [lia | reflexivity].
Qed.

End Revisions.

Lemma goodRequest_single_key (values : list JSString) :
  headers goodRequest !! "sec-websocket-key" <> Some (HArray values).
Proof. intros H. vm_compute in H. discriminate H. Qed.

Lemma revisions_agree_within_limits_witness :
  size newServer < MAX_CONNECTIONS
  /\ (forall values,
        headers goodRequest !! "sec-websocket-key" <> Some (HArray values))
  /\ slen (js "null") <= MAX_MESSAGE_SIZE
  /\ Legacy.handleWebSocketUpgrade plainDigest newServer goodRequest 1%nat =
       handleWebSocketUpgrade plainDigest newServer goodRequest 1%nat
  /\ Legacy.onMessageText parseNull newServer 1%nat (js "null") =
     onMessageText parseNull newServer 1%nat (js "null").
Proof.
  assert (Hroom : size newServer < MAX_CONNECTIONS) by reflexivity.
  assert (Hfit : slen (js "null") <= MAX_MESSAGE_SIZE) by (vm_compute; discriminate).
  exact (conj Hroom (conj goodRequest_single_key (conj Hfit
           (revisions_agree_within_limits parseNull plainDigest newServer goodRequest
              1%nat (js "null") Hroom goodRequest_single_key Hfit)))).
Defined.

(** ** The bits the decoder ignores; a frame beyond the receive buffer *)

(** X20. The decoder looks at the opcode only: the FIN bit and the three
    reserved bits of the first byte are ignored. Two complete frames that
    differ in these bits alone are decoded alike; so a text frame that is
    not final (FIN clear, the first fragment of a fragmented message) is
    delivered as a message of its own. *)
Theorem fin_and_reserved_bits_ignored (fr : WireFrame) (first : byte)
    (post : Buffer) :
  wellFramed fr ->
  Z.land (b2z first) 0x0f = wf_opcode fr ->
  parseWebSocketFrames (wire (withFirst fr first) ++ post) [] =
  parseWebSocketFrames (wire fr ++ post) [].
Proof.
  intros Hwf Hop.
  assert (Hwf' : wellFramed (withFirst fr first)) by exact Hwf.
  rewrite (frame_then_rest _ post Hwf'), (frame_then_rest _ post Hwf).
  unfold wf_text. 
  change (wf_opcode (withFirst fr first)) with (Z.land (b2z first) 0x0f).
  rewrite Hop. reflexivity.
Qed.

Lemma fin_and_reserved_bits_ignored_witness :
  wellFramed (encodedFrame (js "hi"))
  /\ Z.land (b2z (z2b 0x01)) 0x0f = wf_opcode (encodedFrame (js "hi"))
  /\ parseWebSocketFrames (bytes [0x01; 0x02; 0x68; 0x69]) [] =
     parseWebSocketFrames (bytes [0x81; 0x02; 0x68; 0x69]) [].
Proof.
  assert (Hwf : wellFramed (encodedFrame (js "hi"))) by (repeat split).
  exact (conj Hwf (conj eq_refl
           (fin_and_reserved_bits_ignored (encodedFrame (js "hi")) (z2b 0x01) []
              Hwf eq_refl))).
Defined.

Section Oversize.

Variable JSON_parse : JSString -> option JSValue.
Variable sha1_base64 : JSString -> JSString.

Lemma run_app (events1 events2 : list Event) (srv : Server) :
  run JSON_parse sha1_base64 srv (events1 ++ events2) =
  let r1 := run JSON_parse sha1_base64 srv events1 in
  let r2 := run JSON_parse sha1_base64 r1.1 events2 in
  (r2.1, r1.2 ++ r2.2).
Proof.
  revert srv. induction events1 as [|e rest IH]; intros srv; cbn zeta.
  - cbn [app run fst snd]. destruct (run _ _ srv events2). reflexivity.
  - cbn [app run]. destruct (step JSON_parse sha1_base64 srv e) as [srv1 effects1].
    rewrite IH. cbn zeta.
    destruct (run JSON_parse sha1_base64 srv1 rest) as [srv2 effects2].
    cbn [fst snd].
    destruct (run JSON_parse sha1_base64 srv2 events2) as [srv3 effects3].
    cbn [fst snd]. rewrite app_assoc. reflexivity.
Qed.

(** While a frame is incomplete, the data events that bring its bytes
    only extend the buffer. *)
Lemma run_partial_frame (fr : WireFrame) (socket : SocketId) (rest : Buffer)
    (chunks : list Buffer) :
  wellFramed fr -> rest <> [] ->
  forall (srv : Server) (buffer : Buffer),
    buffers srv !! socket = Some buffer ->
    wire fr = (buffer ++ concat chunks) ++ rest ->
    blen buffer + blen (concat chunks) <= MAX_BUFFER_SIZE ->
    run JSON_parse sha1_base64 srv (map (Data socket) chunks) =
    (withBuffer srv socket (buffer ++ concat chunks), []).
Proof.
  intros Hwf Hrest. induction chunks as [|c chunks IH]; intros srv buffer Hbuf Hsplit Hcap.
  - cbn [map run concat]. rewrite app_nil_r. f_equal.
    destruct srv as [c a b s]. unfold withBuffer. cbn in *. f_equal.
    symmetry. apply insert_id, Hbuf.
  - cbn [map run step concat] in *. rewrite Hbuf.
    rewrite blen_app in Hcap.
    pose proof (blen_nonneg (concat chunks)). pose proof (blen_nonneg c).
    rewrite onData_within by lia.
    assert (Hpart : parseWebSocketFrames c buffer =
                    {| parsed := []; remaining := buffer ++ c |}).
    { rewrite parse_pure.
      apply (partial_frame_alone fr (buffer ++ c) (concat chunks ++ rest) Hwf).
      - rewrite Hsplit, <- !app_assoc. reflexivity.
      - destruct (concat chunks); [exact Hrest | discriminate]. }
    rewrite Hpart. cbn [parsed remaining dispatched omap list_omap].
    rewrite (IH (withBuffer srv socket (buffer ++ c)) (buffer ++ c)).
    + rewrite withBuffer_twice, <- app_assoc. reflexivity.
    + cbn [buffers withBuffer]. rewrite lookup_insert.
      destruct (decide (socket = socket)); [reflexivity | contradiction].
    + rewrite Hsplit, <- !app_assoc. reflexivity.
    + rewrite blen_app. lia.
Qed.

(** X21. A frame that does not fit the receive buffer is never
    delivered. Let the bytes of a complete frame of any kind arrive on a
    connection with an empty buffer, cut into data events in any way.
    The chunks that keep the total within [MAX_BUFFER_SIZE] are
    buffered, nothing being dispatched; the chunk that takes the total
    beyond [MAX_BUFFER_SIZE] makes the server drop the connection:
    the socket is removed from the set and destroyed, the chunk is
    discarded, and no message has reached [onMessage]. (With a limit of
    1 MiB here, the 10 MiB message limit of the same file is never what
    stops a message.) *)
Theorem oversize_frame_drops_the_connection (srv : Server) (socket : SocketId)
    (fr : WireFrame) (chunks : list Buffer) (last more : Buffer) :
  buffers srv !! socket = Some [] ->
  wellFramed fr ->
  wire fr = concat chunks ++ last ++ more ->
  blen (concat chunks) <= MAX_BUFFER_SIZE ->
  blen (concat chunks) + blen last > MAX_BUFFER_SIZE ->
  let r := run JSON_parse sha1_base64 srv (map (Data socket) (chunks ++ [last])) in
  r = cleanupConnection (withBuffer srv socket (concat chunks)) socket
  /\ r.2 = (if destroyed (flagsOf srv socket) then [] else [SocketDestroy socket])
  /\ (socket ∉ connections r.1)
  /\ destroyed (flagsOf r.1 socket) = true
  /\ buffers r.1 !! socket = Some (concat chunks).
Proof.
  intros Hbuf Hwf Hsplit Hcap Hover. cbn zeta.
  assert (Hlast : last ++ more <> []).
  { destruct last; [|discriminate]. rewrite blen_nil in Hover. lia. }
  assert (Hrun : run JSON_parse sha1_base64 srv (map (Data socket) (chunks ++ [last])) =
                 cleanupConnection (withBuffer srv socket (concat chunks)) socket).
  { rewrite map_app, run_app. cbn zeta.
    rewrite (run_partial_frame fr socket (last ++ more) chunks Hwf Hlast srv [] Hbuf)
      by (first [exact Hsplit | rewrite blen_nil; lia]).
    cbn [app fst snd map run step buffers withBuffer]. rewrite lookup_insert.
    destruct (decide (socket = socket)); [|contradiction].
    unfold onData.
    destruct (Z.gtb_spec (blen (concat chunks) + blen last) MAX_BUFFER_SIZE); [|lia].
    destruct (cleanupConnection _ socket) as [srv' effects].
    cbn [fst snd app]. rewrite app_nil_r. reflexivity. }
  rewrite Hrun. split; [reflexivity|].
  destruct (cleanupConnection_spec (withBuffer srv socket (concat chunks)) socket)
    as (Hc & Hb & _ & Hd & _ & _ & He).
  split; [exact He|]. split; [|split; [exact Hd|]].
  - rewrite Hc, setDelete_elem. tauto.
  - rewrite Hb. cbn [buffers withBuffer]. rewrite lookup_insert.
    destruct (decide (socket = socket)); [reflexivity | contradiction].
Qed.

End Oversize.

Lemma bigPayloadStart_length : blen bigPayloadStart = MAX_BUFFER_SIZE.
Proof.
  unfold bigPayloadStart, blen. rewrite length_replicate.
  unfold MAX_BUFFER_SIZE. lia.
Qed.

Lemma bigFrame_wellFramed : wellFramed bigFrame.
Proof.
  split; [reflexivity|]. split; [reflexivity|].
  cbn [wf_payload bigFrame]. rewrite blen_app, bigPayloadStart_length.
  vm_compute. reflexivity.
Qed.

Lemma bigFrame_wire :
  wire bigFrame = concat [bigHeader] ++ bigPayloadStart ++ [z2b 0x62].
Proof.
  unfold wire, bigFrame, bigHeader.
  cbn [wf_first wf_second wf_extended wf_maskKey wf_payload concat].
  generalize bigPayloadStart (be_bytes 8 (MAX_BUFFER_SIZE + 1)). intros p ext.
  rewrite app_nil_r, <- !app_assoc. reflexivity.
Qed.

Lemma oversize_frame_drops_the_connection_witness :
  buffers twoClients !! 1%nat = Some []
  /\ wellFramed bigFrame
  /\ wire bigFrame = concat [bigHeader] ++ bigPayloadStart ++ [z2b 0x62]
  /\ blen (concat [bigHeader]) <= MAX_BUFFER_SIZE
  /\ blen (concat [bigHeader]) + blen bigPayloadStart > MAX_BUFFER_SIZE
  /\ (run noParse plainDigest twoClients
        (map (Data 1%nat) ([bigHeader] ++ [bigPayloadStart]))).2 =
     [SocketDestroy 1%nat]
  /\ 1%nat ∉ connections
       (run noParse plainDigest twoClients
          (map (Data 1%nat) ([bigHeader] ++ [bigPayloadStart]))).1.
Proof.
  assert (Hbuf : buffers twoClients !! 1%nat = Some []) by (vm_compute; reflexivity).
  assert (Hcap : blen (concat [bigHeader]) <= MAX_BUFFER_SIZE)
    by (vm_compute; discriminate).
  assert (Hover : blen (concat [bigHeader]) + blen bigPayloadStart > MAX_BUFFER_SIZE)
    by (rewrite bigPayloadStart_length; vm_compute; reflexivity).
  pose proof (oversize_frame_drops_the_connection noParse plainDigest twoClients
                1%nat bigFrame [bigHeader] bigPayloadStart [z2b 0x62] Hbuf
                bigFrame_wellFramed bigFrame_wire Hcap Hover) as (_ & He & Hc & _).
  exact (conj Hbuf (conj bigFrame_wellFramed (conj bigFrame_wire (conj Hcap
           (conj Hover (conj He Hc)))))).
Defined.
